(** * SME atmosphere interpolation: [sme/interpolate_atmosphere.py]

    A shallow embedding of the four routines of the module

      - [interp_atmo_func]         (ShiftedInterpolator)
      - [interp_atmo_constrained]  (ShiftFitter)
      - [interp_atmo_pair]         (PairBlender)
      - [interp_atmo_grid]         (GridInterpolator)

    and the properties of them that the specification states.

    Conventions of the embedding.

    - Python floats are rationals ([Q]); Python integers are [Z].
      Arithmetic on them is exact, with one exception: the test of the
      top-trimming loop, which decides how many depth points an atmosphere
      keeps, is rounded as binary64 rounds it ([round64]).
      Where numpy would produce [inf] or [nan] (division by a zero step,
      logarithm of a non-positive number) the model either follows the
      IEEE comparison result (loop tests) or stops with [NonFinite].
    - Structures ([numpy] records, [SME_Structure]) are finite maps from
      upper-case tags to values; attribute access [a.teff] and item access
      [a["TEFF"]] are the same lookup, as in the IDL original.
    - Exceptions and printed diagnostics are explicit: a computation is a
      pair of the events it emitted and either an exception or a value.
      A call of scipy's [curve_fit] is an event too, so that the number
      of fits a run performs can be counted.
    - A [ValueError] carries the message of the source; where the source
      formats numbers into it, the message is the format string.
    - [log10], [10 ** x] and [curve_fit] belong to numpy/scipy: they are
      fields of a record [numerics] that every routine takes.             *)

From Stdlib Require Import QArith Qabs Qround Lqa ZArith List Ascii String Lia Bool.
From Equations Require Import Equations.
From stdpp Require Import base option list strings gmap.
Import ListNotations.
Local Open Scope string_scope.
Local Open Scope list_scope.
Local Open Scope Z_scope.

(** ** Field values *)

Inductive value :=
| VNone
| VInt (z : Z)
| VNum (q : Q)
| VStr (s : string)
| VVec (v : list Q).

(** ** Exceptions, events and the computation monad *)

Inductive exn :=
| ValueError (msg : string)
| IndexError
| AttributeError (tag : string)
| KeyError (tag : string)
| TypeError
| UnboundLocalError (name : string)
| NonFinite
| OptimizeError.

(** The messages the module prints, with the numbers they format. *)
Inductive diag :=
| MonH_above_grid (MonH Mmax : Q)
| logg_above_grid (logg Gmax : Q)
| Teff_below_grid (Teff Tmin : Q)
| corner_models (nwhr : Z) (M G T : Q)
| geom_overrides (given : value) (computed : string)
| trace_line.

Inductive event :=
| Print (d : diag)
| Call_curve_fit.

Definition M (A : Type) : Type := (list event * (exn + A))%type.

Definition ret {A} (a : A) : M A := ([], inr a).
Definition raise {A} (e : exn) : M A := ([], inl e).
Definition emit (e : event) : M unit := ([e], inr tt).
Definition bind {A B} (m : M A) (f : A -> M B) : M B :=
  match m with
  | (t, inl e) => (t, inl e)
  | (t, inr a) => let '(t', r) := f a in (t ++ t', r)
  end.

#[global] Instance M_ret : MRet M := @ret.
#[global] Instance M_bind : MBind M := fun A B f m => bind m f.

Definition events {A} (m : M A) : list event := fst m.
Definition outcome {A} (m : M A) : exn + A := snd m.

Fixpoint mapM {A B} (f : A -> M B) (l : list A) : M (list B) :=
  match l with
  | [] => ret []
  | a :: r => b ← f a; bs ← mapM f r; ret (b :: bs)
  end.

(** [for i in range(n)] threading a state. *)
Fixpoint for_range {S} (n : nat) (i : Z) (body : Z -> S -> M S) (s : S) : M S :=
  match n with
  | O => ret s
  | Datatypes.S n' => s' ← body i s; for_range n' (i + 1) body s'
  end.

Definition is_fit (e : event) : bool :=
  match e with Call_curve_fit => true | _ => false end.
Definition is_print (e : event) : bool :=
  match e with Print _ => true | _ => false end.
Definition fit_calls {A} (m : M A) : nat := length (filter is_fit (events m)).
Definition prints {A} (m : M A) : list event := filter is_print (events m).

(** ** Rational helpers *)

Definition Qleb (a b : Q) : bool := Qle_bool a b.
Definition Qltb (a b : Q) : bool := negb (Qle_bool b a).
Definition Qeqb (a b : Q) : bool := Qeq_bool a b.
Definition Qmin2 (a b : Q) : Q := if Qleb a b then a else b.
Definition Qmax2 (a b : Q) : Q := if Qleb a b then b else a.

(** ** IEEE binary64

    numpy's [float64] arithmetic rounds the exact result of one operation
    to the nearest number [m * 2 ^ e] with [|m| < 2 ^ 53] and [e >= -1074],
    ties to the even [m]. The trimming loop of [interp_atmo_pair] branches
    on such a result, so its test is computed with this rounding. *)

(** [floor (log2 |q|)] for [q <> 0]. *)
Definition ilog2 (q : Q) : Z :=
  let n := Z.abs (Qnum q) in
  let d := Zpos (Qden q) in
  let k := Z.log2 n - Z.log2 d in
  if (if 0 <=? k then d * 2 ^ k <=? n else d <=? n * 2 ^ (- k)) then k else k - 1.

(** The integer nearest to [n / d], the even one of two, for [0 <= n] and
    [0 < d]. *)
Definition round_half_even (n d : Z) : Z :=
  let q := n / d in
  match 2 * (n mod d) ?= d with
  | Lt => q
  | Gt => q + 1
  | Eq => if Z.even q then q else q + 1
  end.

(** Rounding to binary64 with the exponent unbounded above. *)
Definition round64 (q : Q) : Q :=
  if Qnum q =? 0 then 0%Q
  else
    let n := Z.abs (Qnum q) in
    let d := Zpos (Qden q) in
    let e := Z.max (ilog2 q - 52) (-1074) in
    let m := if 0 <=? e then round_half_even n (d * 2 ^ e)
             else round_half_even (n * 2 ^ (- e)) d in
    let r := if 0 <=? e then inject_Z (m * 2 ^ e) else Qmake m (Z.to_pos (2 ^ (- e))) in
    if Qnum q <? 0 then (- r)%Q else r.

(** A rounded result of this size is [inf] or [-inf] in binary64. *)
Definition overflows (r : Q) : bool := Qleb (inject_Z (2 ^ 1024)) (Qabs r).

(** ** numpy arrays as lists *)

Definition Zlen {A} (l : list A) : Z := Z.of_nat (length l).

(** [a[i]] with Python's negative indices; [None] is an [IndexError]. *)
Definition py_index (len i : Z) : option nat :=
  if (0 <=? i) && (i <? len) then Some (Z.to_nat i)
  else if (i <? 0) && (- len <=? i) then Some (Z.to_nat (len + i))
  else None.

Definition getitem {A} (l : list A) (i : Z) : M A :=
  match py_index (Zlen l) i with
  | Some n => match l !! n with Some a => ret a | None => raise IndexError end
  | None => raise IndexError
  end.

(** [a[lo:hi]]: bounds are clipped, never an error. *)
Definition slice_bound (len i : Z) : Z :=
  if i <? 0 then Z.max 0 (len + i) else Z.min i len.

Definition slice {A} (l : list A) (lo hi : Z) : list A :=
  let a := slice_bound (Zlen l) lo in
  let b := slice_bound (Zlen l) hi in
  take (Z.to_nat (b - a)) (drop (Z.to_nat a) l).

(** [a[idx]] for an index array. *)
Definition take_indices {A} (l : list A) (idx : list Z) : M (list A) :=
  mapM (getitem l) idx.

Definition np_arange (n : Z) : list Z := Z.of_nat <$> seq 0 (Z.to_nat n).

Definition np_full (n : Z) (x : Q) : M (list Q) :=
  if n <? 0 then raise (ValueError "negative dimensions are not allowed")
  else ret (replicate (Z.to_nat n) x).

Definition np_min (l : list Q) : M Q :=
  match l with
  | [] => raise (ValueError "zero-size array to reduction operation minimum")
  | x :: r => ret (fold_left Qmin2 r x)
  end.

Definition np_max (l : list Q) : M Q :=
  match l with
  | [] => raise (ValueError "zero-size array to reduction operation maximum")
  | x :: r => ret (fold_left Qmax2 r x)
  end.

(** Python's builtin [min] and [max] of a sequence. *)
Definition py_min (l : list Q) : M Q :=
  match l with
  | [] => raise (ValueError "min() arg is an empty sequence")
  | x :: r => ret (fold_left Qmin2 r x)
  end.

Definition py_max (l : list Q) : M Q :=
  match l with
  | [] => raise (ValueError "max() arg is an empty sequence")
  | x :: r => ret (fold_left Qmax2 r x)
  end.

(** Index of the first minimum. *)
Fixpoint argmin_from (best : Q) (bi i : nat) (l : list Q) : nat :=
  match l with
  | [] => bi
  | x :: r => if Qltb x best then argmin_from x i (S i) r
              else argmin_from best bi (S i) r
  end.

Definition np_argmin (l : list Q) : M Z :=
  match l with
  | [] => raise (ValueError "attempt to get argmin of an empty sequence")
  | x :: r => ret (Z.of_nat (argmin_from x 0 1 r))
  end.

Fixpoint insert_sorted (x : Q) (l : list Q) : list Q :=
  match l with
  | [] => [x]
  | y :: r => if Qleb x y then x :: l else y :: insert_sorted x r
  end.

Definition np_sort (l : list Q) : list Q := foldr insert_sorted [] l.

Fixpoint drop_repeats (l : list Q) : list Q :=
  match l with
  | [] => []
  | x :: r =>
      match r with
      | [] => [x]
      | y :: _ => if Qeqb x y then drop_repeats r else x :: drop_repeats r
      end
  end.

(** [np.unique]: the sorted distinct values. *)
Definition np_unique (l : list Q) : list Q := drop_repeats (np_sort l).

(** [np.where(mask)[0]] for a mask given as a predicate on the elements. *)
Fixpoint where_from {A} (p : A -> bool) (i : Z) (l : list A) : list Z :=
  match l with
  | [] => []
  | a :: r => if p a then i :: where_from p (i + 1) r else where_from p (i + 1) r
  end.

Definition np_where {A} (p : A -> bool) (l : list A) : list Z := where_from p 0 l.

Definition count_nonzero (mask : list bool) : Z :=
  Zlen (filter (fun b => Is_true b) mask).

Definition np_clip (l : list Q) (lo hi : Q) : list Q :=
  (fun y => Qmin2 (Qmax2 y lo) hi) <$> l.

Definition np_sum (l : list Q) : Q := fold_left Qplus l 0%Q.

Definition np_mean (l : list Q) : M Q :=
  match l with
  | [] => raise NonFinite
  | _ => ret (np_sum l / inject_Z (Zlen l))%Q
  end.

Definition np_median (l : list Q) : M Q :=
  let s := np_sort l in
  let n := length s in
  match n with
  | O => raise NonFinite
  | _ =>
      if Nat.odd n then
        match s !! (n / 2)%nat with Some m => ret m | None => raise IndexError end
      else
        match s !! (n / 2 - 1)%nat, s !! (n / 2)%nat with
        | Some a, Some b => ret ((a + b) / 2)%Q
        | _, _ => raise IndexError
        end
  end.

(** Elementwise arithmetic of two arrays under numpy's broadcasting rule
    for one dimension: equal lengths, or one operand of length one. *)
Fixpoint zip_with_same {A B C} (f : A -> B -> C) (l : list A) (k : list B)
  : M (list C) :=
  match l, k with
  | [], [] => ret []
  | a :: l', b :: k' => r ← zip_with_same f l' k'; ret (f a b :: r)
  | _, _ => raise (ValueError "operands could not be broadcast together")
  end.

Definition broadcast2 {A B C} (f : A -> B -> C) (l : list A) (k : list B)
  : M (list C) :=
  match l, k with
  | [a], _ :: _ :: _ => ret (f a <$> k)
  | _ :: _ :: _, [b] => ret ((fun a => f a b) <$> l)
  | _, _ => zip_with_same f l k
  end.

(** [(1 - frac) * u + frac * v]. *)
Definition blend (frac : Q) (u v : list Q) : M (list Q) :=
  broadcast2 (fun a b => (1 - frac) * a + frac * b)%Q u v.

(** [v[mask] = src[mask]]. *)
Fixpoint mask_assign (v : list Q) (mask : list bool) (src : list Q) : M (list Q) :=
  match v, mask, src with
  | [], [], [] => ret []
  | a :: v', m :: mask', s :: src' =>
      r ← mask_assign v' mask' src'; ret ((if m : bool then s else a) :: r)
  | _, _, _ => raise IndexError
  end.

(** ** scipy.interpolate.interp1d, kind linear, fill_value extrapolate *)

Fixpoint insert_pair (p : Q * Q) (l : list (Q * Q)) : list (Q * Q) :=
  match l with
  | [] => [p]
  | q :: r => if Qleb (fst p) (fst q) then p :: l else q :: insert_pair p r
  end.

(** [ind = np.argsort(x); x = x[ind]; y = np.take(y, ind)] *)
Definition sort_pairs (l : list (Q * Q)) : list (Q * Q) := foldr insert_pair [] l.

(** [np.searchsorted(x, v)] (side left) on a sorted array. *)
Fixpoint searchsorted (xs : list Q) (v : Q) : nat :=
  match xs with
  | [] => O
  | x :: r => if Qltb x v then S (searchsorted r v) else O
  end.

Definition clip_nat (i lo hi : nat) : nat := Nat.min (Nat.max i lo) hi.

(** [_call_linear]: one new abscissa. On a table of one point the clipped
    index [hi] is 0 and [lo = -1] reads the last entry, the same point, so
    that the slope is [0 / 0]. *)
Definition interp_at (s : list (Q * Q)) (v : Q) : M Q :=
  let hi := clip_nat (searchsorted (fst <$> s) v) 1 (length s - 1) in
  let lo := (hi - 1)%nat in
  match s !! lo, s !! hi with
  | Some (x_lo, y_lo), Some (x_hi, y_hi) =>
      if Qeqb x_hi x_lo then raise NonFinite
      else ret ((y_hi - y_lo) / (x_hi - x_lo) * (v - x_lo) + y_lo)%Q
  | _, _ => raise IndexError
  end.

Definition interp1d (x y : list Q) (x_new : list Q) : M (list Q) :=
  if negb (length x =? length y)%nat then
    raise (ValueError "x and y arrays must be equal in length along interpolation axis.")
  else if (length x <? 1)%nat then
    raise (ValueError "x and y arrays must have at least 1 entries")
  else mapM (interp_at (sort_pairs (zip x y))) x_new.

(** ** Structures and the numerical library *)

Abbreviation struct := (gmap string value).

Definition has_tag (a : struct) (tag : string) : bool :=
  match a !! tag with Some _ => true | None => false end.

Definition getattr (a : struct) (tag : string) : M value :=
  match a !! tag with Some v => ret v | None => raise (AttributeError tag) end.

Definition as_num (v : value) : M Q :=
  match v with
  | VNum q => ret q
  | VInt z => ret (inject_Z z)
  | _ => raise TypeError
  end.

Definition as_int (v : value) : M Z :=
  match v with VInt z => ret z | _ => raise TypeError end.

Definition as_vec (v : value) : M (list Q) :=
  match v with VVec l => ret l | _ => raise TypeError end.

Definition get_num (a : struct) (tag : string) : M Q := v ← getattr a tag; as_num v.
Definition get_int (a : struct) (tag : string) : M Z := v ← getattr a tag; as_int v.
Definition get_vec (a : struct) (tag : string) : M (list Q) := v ← getattr a tag; as_vec v.

(** What the module takes from numpy and scipy. [curve_fit f xdata ydata
    sigma p0] is scipy's least-squares optimiser; it returns the optimal
    parameters or raises. *)
Record numerics := {
  log10 : Q -> Q;
  pow10 : Q -> Q;
  curve_fit : (list Q -> list Q -> M (list Q)) ->
              list Q -> list Q -> list Q -> list Q -> exn + list Q
}.

Definition np_log10 (N : numerics) (l : list Q) : M (list Q) :=
  mapM (fun x => if Qleb x 0 then raise NonFinite else ret (log10 N x)) l.

(** ** interp_atmo_func *)

(** The keyword arguments [x2], [y2], [y1], [ndep], [ipar]. *)
Record functargs := {
  fa_x2 : list Q;
  fa_y2 : list Q;
  fa_y1 : option (list Q);
  fa_ndep : option Z;
  fa_ipar : option (list Q)
}.

(** [y1[:ndep] = head], where [head] is as long as [y1[:ndep]]. *)
Definition set_prefix (y1 head : list Q) : list Q := head ++ drop (length head) y1.

Definition interp_atmo_func (x1 par : list Q) (fa : functargs) : M (list Q) :=
  let ndep := default (Zlen x1) (fa_ndep fa) in
  p0 ← getitem par 0;
  let x2sh := (fun x => x + p0)%Q <$> fa_x2 fa in
  p1 ← getitem par 1;
  let y2sh := (fun y => y + p1)%Q <$> fa_y2 fa in
  let y1 := (fun _ => 0%Q) <$> x1 in
  head ← interp1d x2sh y2sh (slice x1 0 ndep);
  let y1 := set_prefix y1 head in
  y1min ← np_min (slice y1 0 ndep);
  y1max ← np_max (slice y1 0 ndep);
  let y1cen := ((1 # 2) * (y1min + y1max))%Q in
  p2 ← getitem par 2;
  let y1 := set_prefix y1
              ((fun y => y1cen + (1 + p2) * (y - y1cen))%Q <$> slice y1 0 ndep) in
  match fa_y1 fa with
  | Some t =>
      lo ← np_min t;
      hi ← np_max t;
      ret (set_prefix y1 (np_clip (slice y1 0 ndep) lo hi))
  | None => ret y1
  end.

(** ** interp_atmo_constrained *)

Definition nonzero (q : Q) : bool := negb (Qeqb q 0).

(** The points handed to the fit: the input points, followed by one point
    [(x, y) = (0, 0)] per constrained parameter whose uncertainty is that
    parameter's entry of [constraints]. *)
Definition constrained_points (x_in y_in err_in : list Q)
    (constraints : option (list Q)) : Z * (list Q * list Q * list Q) :=
  let picked := match constraints with
                | Some c => List.filter nonzero c
                | None => []
                end in
  let nconstraints := Zlen picked in
  let zeros := replicate (Z.to_nat nconstraints) 0%Q in
  if 0 <? nconstraints
  then (nconstraints, (x_in ++ zeros, y_in ++ zeros, err_in ++ picked))
  else (nconstraints, (x_in, y_in, err_in)).

Definition interp_atmo_constrained (N : numerics)
    (x_in y_in err_in par : list Q) (constraints : option (list Q))
    (fa : functargs) (parinfo : list Z) : M (list Q * list Q) :=
  let ndep := fa_ndep fa in
  let '(nconstraints, (x, y, err)) :=
    constrained_points x_in y_in err_in constraints in
  let func := fun x p => interp_atmo_func x p fa in
  emit Call_curve_fit;;
  popt ← match curve_fit N func x y err par with
         | inl e => raise e
         | inr p => ret p
         end;
  yfit ← func x popt;
  let yfit := if 0 <? nconstraints
              then match ndep with Some n => slice yfit 0 n | None => yfit end
              else yfit in
  ret (popt, yfit).

(** ** interp_atmo_pair *)

(** Internal program parameters: the binary64 number written [0.01]. *)
Definition min_drhox : Q := round64 (1 # 100).
Definition min_dtau : Q := round64 (1 # 100).

(** Selection of the interpolation variable (RHOX vs. TAU). [interpvar] is
    the keyword argument: [None] is Python's [None]. *)
Definition select_interpvar (atmo1 atmo2 : struct) (interpvar : option string)
  : M string :=
  let ok_tau := has_tag atmo1 "TAU" && has_tag atmo2 "TAU" in
  let ok_rhox := has_tag atmo1 "RHOX" && has_tag atmo2 "RHOX" in
  if negb ok_tau && negb ok_rhox then
    raise (ValueError "atmo1 and atmo2 structures must both contain RHOX or TAU")
  else
    let interpvar := match interpvar with
                     | None => if ok_tau then "TAU" else "RHOX"
                     | Some s => s
                     end in
    if negb (String.eqb interpvar "TAU") && negb (String.eqb interpvar "RHOX") then
      raise (ValueError "interpvar must be 'TAU' (default) or 'RHOX'")
    else ret interpvar.

(** The default of the keyword in the signature: [interpvar=""]. *)
Definition interpvar_default : option string := Some "".

(** The test of the trimming loop, [v[i + 1] / v[i] - 1 <= min_d], with
    [a = v[i + 1]] and [b = v[i]]: the quotient is rounded, then the
    difference. For [b = 0] numpy yields [inf], [nan] or [-inf], and a
    quotient that overflows is [inf] or [-inf]; only [-inf] compares below
    [min_d]. *)
Definition small_step (min_d a b : Q) : bool :=
  if Qeqb b 0 then Qltb a 0
  else
    let r := round64 (a / b) in
    if overflows r then Qltb r 0 else Qleb (round64 (r - 1)) min_d.

Definition inspect {A} (a : A) : {b : A | a = b} := exist _ a eq_refl.

(** [while v[itop + 1] / v[itop] - 1 <= min_d: itop += 1] *)
Equations? trim_top (min_d : Q) (v : list Q) (itop : Z) : M Z
  by wf (Z.to_nat (Zlen v - itop)) lt :=
  trim_top min_d v itop with inspect (outcome (getitem v (itop + 1))) := {
    | exist _ (inl e) _ => raise e
    | exist _ (inr a) Ha with outcome (getitem v itop) := {
        | inl e => raise e
        | inr b =>
            if small_step min_d a b then trim_top min_d v (itop + 1) else ret itop } }.
Proof.
  unfold getitem, py_index in Ha.
  repeat match type of Ha with context [if ?c then _ else _] =>
    destruct c eqn:?; try discriminate end; lia.
Qed.

(** The depth scale of one atmosphere: [(itop1, ibot1, ndep1, depth1)].
    The same code block stands twice in the routine, for [atmo1] and for
    [atmo2]. *)
Definition depth_scale (N : numerics) (a : struct) (interpvar : string) (itop : Z)
  : M (Z * Z * Z * list Q) :=
  itop1 ← (if String.eqb interpvar "RHOX" then
             v ← get_vec a "RHOX"; trim_top min_drhox v itop
           else if String.eqb interpvar "TAU" then
             v ← get_vec a "TAU"; trim_top min_dtau v itop
           else ret itop);
  nd ← get_int a "NDEP";
  let ibot1 := nd - 1 in
  let ndep1 := ibot1 - itop1 + 1 in
  depth1 ← (if String.eqb interpvar "RHOX" then
              v ← get_vec a "RHOX"; np_log10 N (slice v itop1 (ibot1 + 1))
            else if String.eqb interpvar "TAU" then
              v ← get_vec a "TAU"; np_log10 N (slice v itop1 (ibot1 + 1))
            else raise (UnboundLocalError "depth1"));
  ret (itop1, ibot1, ndep1, depth1).

(** List of atmosphere vectors that need to be shifted. *)
Definition vtags_of (atmo1 atmo2 : struct) (interpvar : string) : list string :=
  let ok_tau := has_tag atmo1 "TAU" && has_tag atmo2 "TAU" in
  let ok_rhox := has_tag atmo1 "RHOX" && has_tag atmo2 "RHOX" in
  ["TEMP"; "XNE"; "XNA"; "RHO"; interpvar]
  ++ (if String.eqb interpvar "RHOX" && ok_tau then ["TAU"] else [])
  ++ (if String.eqb interpvar "TAU" && ok_rhox then ["RHOX"] else []).

(** [np.log10(atmo[vtag][itop : ibot + 1])] *)
Definition log_vector (N : numerics) (a : struct) (vtag : string) (itop ibot : Z)
  : M (list Q) :=
  v ← get_vec a vtag; np_log10 N (slice v itop (ibot + 1)).

(** [np.argmin(np.abs(t - 0.5 * (t[1] + t[ndep - 2])))] *)
Definition midpoint (t : list Q) (ndep : Z) : M Z :=
  a ← getitem t 1;
  b ← getitem t (ndep - 2);
  np_argmin ((fun x => Qabs (x - (1 # 2) * (a + b)))%Q <$> t).

Definition npar : Z := 4.

(** [constraints = np.zeros(npar); constraints[0] = 0.5] *)
Definition constraints0 : list Q := [1 # 2; 0; 0; 0]%Q.

(** [parinfo = np.zeros(npar, ...); parinfo[2:3].fixed = 1] *)
Definition set_slice {A} (l : list A) (lo hi : Z) (x : A) : list A :=
  let a := Z.to_nat (slice_bound (Zlen l) lo) in
  let b := Z.to_nat (slice_bound (Zlen l) hi) in
  take a l ++ replicate (Nat.min (b - a) (length l - a)) x ++ drop (Nat.max a b) l.

Definition parinfo0 : list Z := set_slice (replicate (Z.to_nat npar) 0) 2 3 1.

(** After the first pass (TEMP): adjust the initial guess and restrict the
    depth points. [ngd] is the number of depth points of the first pass. *)
Definition restrict_after_temp (depth1 depth2 : list Q) (ngd : Z) (pars00 : Q)
  : M (list Q * list Z) :=
  let ipar := [pars00; 0; 0; 0]%Q in
  lo ← py_min depth2;
  hi ← py_max depth2;
  let igd := np_where (fun d => Qleb (lo + pars00) d && Qleb d (hi + pars00)) depth1 in
  let ndg := Zlen igd in
  if ngd <? 2 then raise (ValueError "unstable shift in temperature")
  else ret (ipar, igd).

(** What the fitting loop carries from one vector to the next. *)
Record fit_state := {
  fs_ipar : list Q;
  fs_igd : list Z;
  fs_pars : list (list Q)
}.

(** [pars[ivtag] = popt]: a row of [npar] numbers. *)
Definition store_row (pars : list (list Q)) (ivtag : Z) (popt : list Q)
  : M (list (list Q)) :=
  if negb (Zlen popt =? npar) then
    raise (ValueError "could not broadcast input array into shape (4,)")
  else match py_index (Zlen pars) ivtag with
       | Some i => ret (<[i := popt]> pars)
       | None => raise IndexError
       end.

(** One turn of the loop that finds the best shift parameters. *)
Definition fit_vtag (N : numerics) (atmo1 atmo2 : struct)
    (itop1 ibot1 itop2 ibot2 ngd : Z) (depth1 depth2 err1 : list Q)
    (vtags : list string) (ivtag : Z) (st : fit_state) : M fit_state :=
  vtag ← getitem vtags ivtag;
  if negb (has_tag atmo1 vtag) then
    raise (ValueError ("atmo1 does not contain " +:+ vtag))
  else if negb (has_tag atmo2 vtag) then
    raise (ValueError ("atmo2 does not contain " +:+ vtag))
  else
    vect1 ← log_vector N atmo1 vtag itop1 ibot1;
    vect2 ← log_vector N atmo2 vtag itop2 ibot2;
    let fa := {| fa_x2 := depth2; fa_y2 := vect2; fa_y1 := Some vect1;
                 fa_ndep := Some ngd; fa_ipar := Some (fs_ipar st) |} in
    x ← take_indices depth1 (fs_igd st);
    y ← take_indices vect1 (fs_igd st);
    e ← take_indices err1 (fs_igd st);
    r ← interp_atmo_constrained N x y e (fs_ipar st) (Some constraints0) fa parinfo0;
    pars ← store_row (fs_pars st) ivtag (fst r);
    if ivtag =? 0 then
      row0 ← getitem pars 0;
      pars00 ← getitem row0 0;
      r' ← restrict_after_temp depth1 depth2 ngd pars00;
      ret {| fs_ipar := fst r'; fs_igd := snd r'; fs_pars := pars |}
    else ret {| fs_ipar := fs_ipar st; fs_igd := fs_igd st; fs_pars := pars |}.

(** The output depth scale, from the mean shift [xsh]. *)
Definition output_depth (frac xsh : Q) (ndep1 ndep2 : Z) (depth1 depth2 : list Q)
  : M (list Q) :=
  let depth1f := (fun d => d - xsh * frac)%Q <$> depth1 in
  let depth2f := (fun d => d + xsh * (1 - frac))%Q <$> depth2 in
  if ndep2 <? ndep1 then ret depth2f
  else if ndep1 =? ndep2 then
    broadcast2 (fun a b => a * (1 - frac) + b * frac)%Q depth1f depth2f
  else ret depth1f.

Definition no_kwargs (x2 y2 : list Q) : functargs :=
  {| fa_x2 := x2; fa_y2 := y2; fa_y1 := None; fa_ndep := None; fa_ipar := None |}.

(** One turn of the loop that interpolates the input vectors onto the
    output depth scale. *)
Definition blend_vtag (N : numerics) (atmo1 atmo2 : struct) (frac : Q)
    (itop1 ibot1 ndep1 itop2 ibot2 ndep2 : Z) (depth1 depth2 depth : list Q)
    (vtags : list string) (pars : list (list Q)) (ivtag : Z) : M (list Q) :=
  let ndep := Zlen depth in
  vtag ← getitem vtags ivtag;
  par ← getitem pars ivtag;
  vect1 ← log_vector N atmo1 vtag itop1 ibot1;
  vect2 ← log_vector N atmo2 vtag itop2 ibot2;
  par0 ← getitem par 0;
  let depth1f := (fun d => d - par0 * frac)%Q <$> depth1 in
  let depth2f := (fun d => d + par0 * (1 - frac))%Q <$> depth2 in
  x1min ← np_min depth1f;
  x1max ← np_max depth1f;
  x2min ← np_min depth2f;
  x2max ← np_max depth2f;
  let ilo := (fun d => Qltb d x1min || Qltb d x2min) <$> depth in
  let iup := (fun d => Qltb x1max d || Qltb x2max d) <$> depth in
  let nlo := count_nonzero ilo in
  let nup := count_nonzero iup in
  let inside := Qleb (Qabs (frac - (1 # 2))) (1 # 2) in
  let checklo := (1 <=? nlo) && inside && (ndep1 =? ndep2) in
  let checkup := (1 <=? nup) && inside && (ndep1 =? ndep2) in
  vect1f ← interp_atmo_func depth ((fun p => - frac * p)%Q <$> par)
             (no_kwargs depth1 vect1);
  vect2f ← interp_atmo_func depth ((fun p => (1 - frac) * p)%Q <$> par)
             (no_kwargs depth2 vect2);
  vect ← blend frac vect1f vect2f;
  e1 ← getitem vect1 (ndep1 - 1);
  e ← getitem vect (ndep - 1);
  e2 ← getitem vect2 (ndep2 - 1);
  if checkup then
    med ← np_median [e1; e; e2];
    if negb (Qeqb med e)
       && (Qltb (Qabs (e1 - (42 # 10))) (1 # 10) || Qltb (Qabs (e2 - (42 # 10))) (1 # 10))
    then mask_assign vect iup (if Qltb x1max x2max then vect2f else vect1f)
    else ret vect
  else ret vect.

(** Scalar quantities that are interpolated using [frac]. *)
Definition stags : list string := ["TEFF"; "LOGG"; "MONH"; "VTURB"; "LONH"; "ABUND"].

Definition np_size (v : value) : Z :=
  match v with VVec l => Zlen l | _ => 1 end.

(** [value[:ndep]] *)
Definition trim_value (v : value) (ndep : Z) : M value :=
  match v with
  | VVec l => ret (VVec (slice l 0 ndep))
  | VStr s =>
      ret (VStr (String.substring 0
                   (Z.to_nat (slice_bound (Z.of_nat (String.length s)) ndep)) s))
  | _ => raise TypeError
  end.

(** [(1 - frac) * v1 + frac * v2] on field values. *)
Definition blend_value (frac : Q) (v1 v2 : value) : M value :=
  match v1, v2 with
  | VVec a, VVec b => r ← blend frac a b; ret (VVec r)
  | VVec a, (VNum _ | VInt _) =>
      y ← as_num v2; ret (VVec ((fun x => (1 - frac) * x + frac * y)%Q <$> a))
  | (VNum _ | VInt _), VVec b =>
      x ← as_num v1; ret (VVec ((fun y => (1 - frac) * x + frac * y)%Q <$> b))
  | (VNum _ | VInt _), (VNum _ | VInt _) =>
      x ← as_num v1; y ← as_num v2; ret (VNum ((1 - frac) * x + frac * y))
  | _, _ => raise TypeError
  end.

Fixpoint first_index (tag : string) (l : list string) : option nat :=
  match l with
  | [] => None
  | t :: r => if String.eqb tag t then Some O else S <$> first_index tag r
  end.

(** [a[tag]] *)
Definition getfield (a : struct) (tag : string) : M value :=
  match a !! tag with Some v => ret v | None => raise (KeyError tag) end.

(** The body of [for tag in tags1], up to the assignment [atmo[tag] = value]. *)
Definition output_field (N : numerics) (frac : Q) (atmo1 atmo2 : struct)
    (vtags : list string) (vects : list (list Q)) (ndep ndep_orig : Z)
    (tag : string) : M value :=
  v1 ← getfield atmo1 tag;
  value ← (if (np_size v1 =? ndep_orig) && negb (String.eqb tag "ABUND")
           then trim_value v1 ndep else ret v1);
  value ← (match first_index tag vtags with
           | Some i => vect ← getitem vects (Z.of_nat i);
                       ret (VVec (pow10 N <$> vect))
           | None => ret value
           end);
  value ← (if existsb (String.eqb tag) stags then
             if has_tag atmo2 tag then
               v2 ← getfield atmo2 tag; blend_value frac v1 v2
             else ret v1
           else ret value);
  let value := if String.eqb tag "NDEP" then VInt ndep else value in
  if String.eqb tag "ABUND" then
    v2 ← getfield atmo2 tag; blend_value frac v1 v2
  else ret value.

(** Construct the output structure with the interpolated atmosphere. *)
Definition construct_output (N : numerics) (frac : Q) (atmo1 atmo2 : struct)
    (vtags : list string) (vects : list (list Q)) (ndep : Z) : M struct :=
  temp ← get_vec atmo1 "TEMP";
  let ndep_orig := Zlen temp in
  fields ← mapM (fun tag =>
                   v ← output_field N frac atmo1 atmo2 vtags vects ndep ndep_orig tag;
                   ret (tag, v))
                (fst <$> map_to_list atmo1);
  ret (list_to_map fields).

Definition interp_atmo_pair (N : numerics) (atmo1 atmo2 : struct) (frac : Q)
    (interpvar : option string) (itop : Z) : M struct :=
  (* Parameters used to annotate plots. *)
  get_num atmo1 "TEFF";; get_num atmo1 "LOGG";; get_num atmo1 "MONH";;
  get_num atmo2 "TEFF";; get_num atmo2 "LOGG";; get_num atmo2 "MONH";;
  (* Select interpolation variable. *)
  interpvar ← select_interpvar atmo1 atmo2 interpvar;
  (* Define depth scale for both atmospheres. *)
  '(itop1, ibot1, ndep1, depth1) ← depth_scale N atmo1 interpvar itop;
  '(itop2, ibot2, ndep2, depth2) ← depth_scale N atmo2 interpvar itop;
  (* Prepare to find best shift parameters for each atmosphere vector. *)
  let vtags := vtags_of atmo1 atmo2 interpvar in
  let nvtag := Zlen vtags in
  err1 ← np_full ndep1 (5 # 100);
  temp1 ← log_vector N atmo1 "TEMP" itop1 ibot1;
  temp2 ← log_vector N atmo2 "TEMP" itop2 ibot2;
  mid1 ← midpoint temp1 ndep1;
  mid2 ← midpoint temp2 ndep2;
  d1 ← getitem depth1 mid1;
  d2 ← getitem depth2 mid2;
  t1 ← getitem temp1 mid1;
  t2 ← getitem temp2 mid2;
  let ipar := [d1 - d2; t1 - t2; 0; 0]%Q in
  let ngd := ndep1 in
  let igd := np_arange ngd in
  (* Find best shift parameters for each atmosphere vector. *)
  st ← for_range (length vtags) 0
         (fit_vtag N atmo1 atmo2 itop1 ibot1 itop2 ibot2 ngd depth1 depth2 err1 vtags)
         {| fs_ipar := ipar; fs_igd := igd;
            fs_pars := replicate (length vtags) (replicate (Z.to_nat npar) 0%Q) |};
  let pars := fs_pars st in
  (* Use mean shift to construct output depth scale. *)
  col0 ← mapM (fun row => getitem row 0) pars;
  let xsh := (np_sum col0 / inject_Z nvtag)%Q in
  depth ← output_depth frac xsh ndep1 ndep2 depth1 depth2;
  let ndep := Zlen depth in
  np_min depth;; np_max depth;;
  (* Interpolate input atmosphere vectors onto output depth scale. *)
  vects ← mapM (blend_vtag N atmo1 atmo2 frac itop1 ibot1 ndep1 itop2 ibot2 ndep2
                  depth1 depth2 depth vtags pars)
               (np_arange nvtag);
  (* Construct output structure. *)
  construct_output N frac atmo1 atmo2 vtags vects ndep.

(** ** interp_atmo_grid *)

Definition upper_ascii (c : ascii) : ascii :=
  let n := nat_of_ascii c in
  if (97 <=? n)%nat && (n <=? 122)%nat then ascii_of_nat (n - 32) else c.

Fixpoint upper (s : string) : string :=
  match s with
  | EmptyString => EmptyString
  | String c r => String (upper_ascii c) (upper r)
  end.

(** [str.upper(v)] *)
Definition str_upper (v : value) : M string :=
  match v with VStr s => ret (upper s) | _ => raise TypeError end.

(** [tag in names and a.tag is not None] *)
Definition is_set (a : struct) (tag : string) : bool :=
  match a !! tag with
  | Some VNone | None => false
  | Some _ => true
  end.

(** A record array has one dtype: its field names are those of its entries. *)
Definition gtag (grid : list struct) (tag : string) : bool :=
  match grid with e :: _ => has_tag e tag | [] => false end.

(** [atmo_grid.tag]: the column of a numeric field. *)
Definition column (grid : list struct) (tag : string) : M (list Q) :=
  mapM (fun e => get_num e tag) grid.

(** The order of precedence for ATMO.DEPTH ([first = RHOX], [second = TAU])
    and for ATMO.INTERP ([first = TAU], [second = RHOX]). *)
Definition resolve_variable (tag first second : string)
    (atmo_in : struct) (grid : list struct) : M string :=
  v ← (if is_set atmo_in tag then
         x ← getattr atmo_in tag; str_upper x
       else if match grid with e :: _ => is_set e tag | [] => false end then
         (* [str.upper(atmo_grid.tag)]: the argument is the whole column *)
         raise TypeError
       else if gtag grid first then ret first
       else if gtag grid second then ret second
       else raise (ValueError ("no value for ATMO." +:+ tag)));
  if negb (String.eqb v "TAU") && negb (String.eqb v "RHOX") then
    raise (ValueError ("ATMO." +:+ tag +:+ " must be 'TAU' or 'RHOX', not '" +:+ v +:+ "'"))
  else if negb (gtag grid v) then
    raise (ValueError ("ATMO." +:+ tag +:+ "='" +:+ v +:+ "', but ATMO. " +:+ v
                       +:+ " does not exist"))
  else ret v.

Definition resolve_depth := resolve_variable "DEPTH" "RHOX" "TAU".
Definition resolve_interp := resolve_variable "INTERP" "TAU" "RHOX".

Definition when (b : bool) (m : M unit) : M unit := if b then m else ret tt.

(** The messages of the three range errors (format strings). *)
Definition MonH_too_small : string :=
  "interp_atmo_grid: requested [M/H] (%.3f) smaller than min grid value (%.3f). returning.".
Definition logg_too_small : string :=
  "interp_atmo_grid: requested log(g) (%.3f) smaller than min grid value (%.3f). returning.".
Definition Teff_too_large : string :=
  "interp_atmo_grid: requested Teff (%i) larger than max grid value (%i). returning.".

(** *** Determination of the metallicity bracket *)
Definition metallicity_bracket (Mlist : list Q) (MonH : Q) : M (Q * Q) :=
  Mmin ← np_min Mlist;
  Mmax ← np_max Mlist;
  when (Qltb Mmax MonH) (emit (Print (MonH_above_grid MonH Mmax)));;
  when (Qltb MonH Mmin)
    (raise (ValueError MonH_too_small));;
  if Qleb MonH Mmax then
    Mlo ← np_max (List.filter (fun m => Qleb m MonH) Mlist);
    Mup ← np_min (List.filter (fun m => Qleb MonH m) Mlist);
    ret (Mlo, Mup)
  else
    let Mup := Mmax in
    Mlo ← np_max (List.filter (fun m => Qltb m Mup) Mlist);
    ret (Mlo, Mup).

(** *** Determination of one log(g) bracket *)
Definition gravity_bracket (Glist : list Q) (logg : Q) : M (Q * Q) :=
  Gmin ← np_min Glist;
  Gmax ← np_max Glist;
  when (Qltb Gmax logg) (emit (Print (logg_above_grid logg Gmax)));;
  when (Qltb logg Gmin)
    (raise (ValueError logg_too_small));;
  if Qleb logg Gmax then
    Glo ← np_max (List.filter (fun g => Qleb g logg) Glist);
    Gup ← np_min (List.filter (fun g => Qleb logg g) Glist);
    ret (Glo, Gup)
  else
    let Gup := Gmax in
    Glo ← np_max (List.filter (fun g => Qltb g Gup) Glist);
    ret (Glo, Gup).

(** *** Determination of one Teff bracket *)
Definition temperature_bracket (Tlist : list Q) (Teff : Q) : M (Q * Q) :=
  Tmin ← np_min Tlist;
  Tmax ← np_max Tlist;
  when (Qltb Tmax Teff)
    (raise (ValueError Teff_too_large));;
  when (Qltb Teff Tmin) (emit (Print (Teff_below_grid Teff Tmin)));;
  if Qltb Tmin Teff then
    Tlo ← np_max (List.filter (fun t => Qleb t Teff) Tlist);
    Tup ← np_min (List.filter (fun t => Qleb Teff t) Tlist);
    ret (Tlo, Tup)
  else
    let Tlo := Tmin in
    Tup ← np_min (List.filter (fun t => Qltb Tlo t) Tlist);
    ret (Tlo, Tup).

(** [a[mask]] for a boolean mask. *)
Fixpoint select {A} (mask : list bool) (l : list A) : list A :=
  match mask, l with
  | m :: mask', a :: l' => if m then a :: select mask' l' else select mask' l'
  | _, _ => []
  end.

(** The body of the loop over the [M/H] bounds. (A field of a record array
    exists for all of its entries: [atmo_grid[im].logg] is the masked
    column.) *)
Definition gravity_at (grid : list struct) (logg M_b : Q) (iMb trace : Z)
  : M (Q * Q) :=
  monh ← column grid "MONH";
  let im := (fun m => Qeqb m M_b) <$> monh in
  gs ← column grid "LOGG";
  let Glist := np_unique (select im gs) in
  b ← gravity_bracket Glist logg;
  when (5 <=? trace)
    (when (iMb =? 0) (emit (Print trace_line));; emit (Print trace_line));;
  ret b.

(** The body of the loop over the [M/H] and log(g) bounds. *)
Definition temperature_at (grid : list struct) (Teff M_b G_b : Q) (iMb iGb trace : Z)
  : M (Q * Q) :=
  monh ← column grid "MONH";
  logg ← column grid "LOGG";
  let it := zip_with andb ((fun m => Qeqb m M_b) <$> monh)
                          ((fun g => Qeqb g G_b) <$> logg) in
  ts ← column grid "TEFF";
  let Tlist := np_unique (select it ts) in
  b ← temperature_bracket Tlist Teff;
  when (5 <=? trace)
    (when ((iGb =? 0) && (iMb =? 0)) (emit (Print trace_line));;
     emit (Print trace_line));;
  ret b.

(** The bounding values: [Mb[iMb]], [Gb[iMb, iGb]], [Tb[iMb, iGb, iTb]];
    an index 0 is the first component of a pair, an index 1 the second. *)
Record brackets := {
  Mb : Q * Q;
  Gb : (Q * Q) * (Q * Q);
  Tb : ((Q * Q) * (Q * Q)) * ((Q * Q) * (Q * Q))
}.

Definition at2 {A} (p : A * A) (i : bool) : A := if i then snd p else fst p.

Definition find_brackets (grid : list struct) (Teff logg MonH : Q) (trace : Z)
  : M brackets :=
  monh ← column grid "MONH";
  let Mlist := np_unique monh in
  mb ← metallicity_bracket Mlist MonH;
  when (5 <=? trace) (emit (Print trace_line));;
  g0 ← gravity_at grid logg (fst mb) 0 trace;
  g1 ← gravity_at grid logg (snd mb) 1 trace;
  (* for iGb in range(nb): for iMb in range(nb) *)
  t00 ← temperature_at grid Teff (fst mb) (fst g0) 0 0 trace;
  t10 ← temperature_at grid Teff (snd mb) (fst g1) 1 0 trace;
  t01 ← temperature_at grid Teff (fst mb) (snd g0) 0 1 trace;
  t11 ← temperature_at grid Teff (snd mb) (snd g1) 1 1 trace;
  ret {| Mb := mb; Gb := (g0, g1); Tb := ((t00, t01), (t10, t11)) |}.

(** The key of the corner [iMb, iGb, iTb]. *)
Definition corner_key (b : brackets) (iMb iGb iTb : bool) : Q * Q * Q :=
  (at2 (at2 (at2 (Tb b) iMb) iGb) iTb, at2 (at2 (Gb b) iMb) iGb, at2 (Mb b) iMb).

Definition key_match (key : Q * Q * Q) (e : Q * Q * Q) : bool :=
  Qeqb (fst (fst e)) (fst (fst key)) && Qeqb (snd (fst e)) (snd (fst key))
  && Qeqb (snd e) (snd key).

(** The body of the loop that finds the grid indices of the corner models. *)
Definition find_corner (grid : list struct) (key : Q * Q * Q) : M Z :=
  teff ← column grid "TEFF";
  logg ← column grid "LOGG";
  monh ← column grid "MONH";
  let iwhr := np_where (key_match key) (zip (zip teff logg) monh) in
  let nwhr := Zlen iwhr in
  when (negb (nwhr =? 1))
    (emit (Print (corner_models nwhr (snd key) (snd (fst key)) (fst (fst key)))));;
  getitem iwhr 0.

(** [icor[iMb, iGb, iTb]] *)
Record corners := {
  c000 : Z; c100 : Z; c010 : Z; c110 : Z;
  c001 : Z; c101 : Z; c011 : Z; c111 : Z
}.

Definition find_corners (grid : list struct) (b : brackets) : M corners :=
  (* for iTb: for iGb: for iMb *)
  i000 ← find_corner grid (corner_key b false false false);
  i100 ← find_corner grid (corner_key b true false false);
  i010 ← find_corner grid (corner_key b false true false);
  i110 ← find_corner grid (corner_key b true true false);
  i001 ← find_corner grid (corner_key b false false true);
  i101 ← find_corner grid (corner_key b true false true);
  i011 ← find_corner grid (corner_key b false true true);
  i111 ← find_corner grid (corner_key b true true true);
  ret {| c000 := i000; c100 := i100; c010 := i010; c110 := i110;
         c001 := i001; c101 := i101; c011 := i011; c111 := i111 |}.

(** [0 if x0 == x1 else (x - x0) / (x1 - x0)] *)
Definition pair_fraction (x x0 x1 : Q) : Q :=
  if Qeqb x0 x1 then 0%Q else ((x - x0) / (x1 - x0))%Q.

(** Interpolate two corner models to the desired [M/H]. *)
Definition blend_corners (N : numerics) (grid : list struct) (MonH : Q)
    (interpvar : string) (itop i0 i1 : Z) : M struct :=
  a0 ← getitem grid i0;
  m0 ← get_num a0 "MONH";
  a1 ← getitem grid i1;
  m1 ← get_num a1 "MONH";
  let mfrac := pair_fraction MonH m0 m1 in
  interp_atmo_pair N a0 a1 mfrac (Some interpvar) itop.

(** Interpolate two interpolated models to the desired value of [tag]
    (log(g), then Teff); [itop] has its default. *)
Definition blend_models (N : numerics) (tag : string) (x : Q)
    (interpvar : string) (a0 a1 : struct) : M struct :=
  x0 ← get_num a0 tag;
  x1 ← get_num a1 tag;
  interp_atmo_pair N a0 a1 (pair_fraction x x0 x1) (Some interpvar) 0.

Definition solR : Q := 69550000000.
Definition sollogg : Q := 444 # 100.

(** [icor] as a flat index array. *)
Definition corner_list (c : corners) : list Z :=
  [c000 c; c001 c; c010 c; c011 c; c100 c; c101 c; c110 c; c111 c].

Definition log10_scalar (N : numerics) (x : Q) : M Q :=
  if Qleb x 0 then raise NonFinite else ret (log10 N x).

(** The geometry of the interpolated model and, for a spherical one, its
    radius. *)
Definition compute_geometry (N : numerics) (grid : list struct) (c : corners)
    (logg : Q) : M (string * option Q) :=
  if gtag grid "RADIUS" then
    cs ← take_indices grid (corner_list c);
    radius ← column cs "RADIUS";
    rmin ← np_min radius;
    if Qltb 1 rmin && gtag grid "HEIGHT" then
      loggs ← column cs "LOGG";
      lr ← np_log10 N ((fun r => solR / r)%Q <$> radius);
      mass_cor ← broadcast2 (fun g l => g - sollogg - 2 * l)%Q loggs lr;
      m ← np_mean mass_cor;
      let mass := pow10 N m in
      lm ← log10_scalar N mass;
      ret ("SPH", Some (solR * pow10 N ((sollogg - logg + lm) * (1 # 2)))%Q)
    else ret ("PP", None)
  else ret ("PP", None).

Definition is_str (v : value) (s : string) : bool :=
  match v with VStr t => String.eqb t s | _ => false end.

(** Create ATMO.GEOM, if necessary, and set value. *)
Definition reconcile_geom (atmo : struct) (geom : string) : M struct :=
  (if has_tag atmo "GEOM" then
     g ← getattr atmo "GEOM";
     if negb (is_str g "") && negb (is_str g geom) then
       if is_str g "SPH" then
         raise (ValueError "Input ATMO.GEOM='SPH' not valid for requested model.")
       else emit (Print (geom_overrides g geom))
     else ret tt
   else ret tt);;
  ret (<["GEOM" := VStr geom]> atmo).

Definition discard : list string := ["MODTYP"; "SPHERE"; "NDEP"].

(** Copy most fields from the interpolation result to the output ATMO. *)
Fixpoint copy_fields (ktags : list string) (krz atmo : struct) : M struct :=
  match ktags with
  | [] => ret atmo
  | tag :: r =>
      if existsb (String.eqb tag) discard then copy_fields r krz atmo
      else v ← getfield krz tag; copy_fields r krz (<[tag := v]> atmo)
  end.

(** The routine, from the point where the grid is in memory: [atmo_grid]
    is the loaded record array (loading and caching it are the caller's
    side of the interface). *)
Definition interp_atmo_grid (N : numerics) (atmo_grid : list struct)
    (Teff logg MonH : Q) (atmo_in : struct) (trace : Z) : M struct :=
  let itop := 1 in
  depth ← resolve_depth atmo_in atmo_grid;
  interp ← resolve_interp atmo_in atmo_grid;
  let interpvar := interp in
  b ← find_brackets atmo_grid Teff logg MonH trace;
  c ← find_corners atmo_grid b;
  when (1 <=? trace)
    (mapM (fun _ => emit (Print trace_line)) (seq 0 10);; ret tt);;
  atmo00 ← blend_corners N atmo_grid MonH interpvar itop (c000 c) (c100 c);
  atmo01 ← blend_corners N atmo_grid MonH interpvar itop (c010 c) (c110 c);
  atmo10 ← blend_corners N atmo_grid MonH interpvar itop (c001 c) (c101 c);
  atmo11 ← blend_corners N atmo_grid MonH interpvar itop (c011 c) (c111 c);
  atmo0 ← blend_models N "LOGG" logg interpvar atmo00 atmo01;
  atmo1 ← blend_models N "LOGG" logg interpvar atmo10 atmo11;
  krz ← blend_models N "TEFF" Teff interpvar atmo0 atmo1;
  let ktags := fst <$> map_to_list krz in
  let krz := <["MODTYP" := VStr depth]> krz in
  g ← compute_geometry N atmo_grid c logg;
  let krz := match snd g with
             | Some radius => <["RADIUS" := VNum radius]> krz
             | None => krz
             end in
  let geom := fst g in
  let atmo := atmo_in in
  let atmo := <["DEPTH" := VStr depth]> atmo in
  let atmo := <["INTERP" := VStr interp]> atmo in
  atmo ← reconcile_geom atmo geom;
  copy_fields ktags krz atmo.

(** ** A numerical library to run the routines with

    [log10] and [10 ** x] are exact on the decades and linear in between
    (each the inverse of the other); the fitter answers only the problems
    whose initial guess already reproduces the data exactly, where every
    least-squares optimiser returns the initial guess, and, like scipy's,
    refuses a problem with fewer data points than parameters. *)

Fixpoint decade_up (fuel : nat) (q : Q) (k : Z) : Z :=
  match fuel with
  | O => k
  | S f => if Qleb (Qpower 10 (k + 1)) q then decade_up f q (k + 1) else k
  end.

Fixpoint decade_down (fuel : nat) (q : Q) (k : Z) : Z :=
  match fuel with
  | O => k
  | S f => if Qltb q (Qpower 10 k) then decade_down f q (k - 1) else k
  end.

Definition decade (q : Q) : Z :=
  if Qleb 1 q then decade_up 64 q 0 else decade_down 64 q (-1).

Definition log10_decades (q : Q) : Q :=
  let k := decade q in
  Qred (inject_Z k + (q - Qpower 10 k) / (9 * Qpower 10 k)).

Definition pow10_decades (x : Q) : Q :=
  let k := Qfloor x in
  Qred (Qpower 10 k * (1 + 9 * (x - inject_Z k))).

Definition same_values (u v : list Q) : bool :=
  (length u =? length v)%nat && forallb (fun p => Qeqb (fst p) (snd p)) (zip u v).

Definition fit_converged
    (f : list Q -> list Q -> M (list Q)) (xdata ydata sigma p0 : list Q)
  : exn + list Q :=
  if (length xdata <? length p0)%nat then inl TypeError
  else match outcome (f xdata p0) with
       | inl e => inl e
       | inr y => if same_values y ydata then inr p0 else inl OptimizeError
       end.

Definition decade_numerics : numerics :=
  {| log10 := log10_decades; pow10 := pow10_decades; curve_fit := fit_converged |}.

(** ** Sample data *)

Definition model (teff logg monh : Q) (tau rhox temp xne xna rho : list Q) : struct :=
  list_to_map
    [("TEFF", VNum teff); ("LOGG", VNum logg); ("MONH", VNum monh);
     ("VTURB", VNum 1); ("LONH", VNum (3 # 2)); ("NDEP", VInt (Zlen temp));
     ("TAU", VVec tau); ("RHOX", VVec rhox); ("TEMP", VVec temp);
     ("XNE", VVec xne); ("XNA", VVec xna); ("RHO", VVec rho);
     ("ABUND", VVec [92 # 100; 8 # 100]%Q)].

Definition cool_model : struct :=
  model 5000 (9 # 2) 0
    [1 # 10000; 1 # 1000; 1 # 100; 1 # 10; 1; 10; 100]%Q
    [1 # 100; 1 # 10; 1; 10; 100; 1000; 10000]%Q
    [3000; 3500; 4000; 4500; 5000; 6000; 8000]%Q
    [100; 1000; 10000; 100000; 1000000; 10000000; 100000000]%Q
    [1000; 10000; 100000; 1000000; 10000000; 100000000; 1000000000]%Q
    [1 # 1000000; 1 # 100000; 1 # 10000; 1 # 1000; 1 # 100; 1 # 10; 1]%Q.

Definition warm_model : struct :=
  model 6000 (9 # 2) 0
    [1 # 10000; 1 # 1000; 1 # 100; 1 # 10; 1; 10; 100]%Q
    [1 # 100; 1 # 10; 1; 10; 100; 1000; 10000]%Q
    [3500; 4000; 4500; 5000; 6000; 7000; 9000]%Q
    [100; 1000; 10000; 100000; 1000000; 10000000; 100000000]%Q
    [1000; 10000; 100000; 1000000; 10000000; 100000000; 1000000000]%Q
    [1 # 1000000; 1 # 100000; 1 # 10000; 1 # 1000; 1 # 100; 1 # 10; 1]%Q.

Definition sample_grid : list struct := [cool_model; warm_model].

(** The caller's ATMO structure: depth and interpolation variables chosen,
    geometry left open, and a depth count kept from an earlier model. *)
Definition sample_atmo_in : struct :=
  list_to_map
    [("DEPTH", VStr "RHOX"); ("INTERP", VStr "TAU"); ("GEOM", VStr "");
     ("NDEP", VInt 56)].

(** ** Vocabulary of the properties *)

(** The fractional step from depth point [j] to [j + 1] exceeds [min_d]. *)
Definition large_step_at (min_d : Q) (v : list Q) (j : nat) : bool :=
  match v !! S j, v !! j with
  | Some a, Some b => negb (small_step min_d a b)
  | _, _ => false
  end.

(** A grid of spherical models, and a caller who declares plane-parallel
    geometry. *)
Definition sphere_grid : list struct :=
  (fun m => <["HEIGHT" := VVec [7; 6; 5; 4; 3; 2; 1]%Q]> (<["RADIUS" := VNum solR]> m))
    <$> sample_grid.

Definition pp_atmo_in : struct := <["GEOM" := VStr "PP"]> sample_atmo_in.

(** A fitter standing for a fit that ran away: whatever the data, it
    answers the horizontal shift [shift]; like scipy's, it refuses a problem
    with fewer data points than parameters. *)
Definition stray_fit (shift : Q)
    (f : list Q -> list Q -> M (list Q)) (xdata ydata sigma p0 : list Q)
  : exn + list Q :=
  if (length xdata <? length p0)%nat then inl TypeError
  else inr [shift; 0; 0; 0]%Q.

Definition stray_numerics (shift : Q) : numerics :=
  {| log10 := log10_decades; pow10 := pow10_decades; curve_fit := stray_fit shift |}.

(** The field [tag] of the structure a run returns, if it returns one. *)
Definition field_of (run : M struct) (tag : string) : option value :=
  match outcome run with inr s => s !! tag | inl _ => None end.

(** A fit problem in the shape of the first pass of [interp_atmo_pair]. *)
Definition sample_functargs : functargs :=
  {| fa_x2 := [0; 1; 2; 3]%Q; fa_y2 := [1; 2; 4; 8]%Q;
     fa_y1 := Some [1; 2; 4; 8]%Q; fa_ndep := Some 4;
     fa_ipar := Some [0; 0; 0; 0]%Q |}.

(** A grid that lists one model twice, and the brackets of the target
    (5500, 4.5, 0.0) in it. *)
Definition twin_grid : list struct := [cool_model; warm_model; warm_model].

Definition twin_brackets : brackets :=
  {| Mb := (0, 0)%Q;
     Gb := ((9 # 2, 9 # 2), (9 # 2, 9 # 2))%Q;
     Tb := (((5000, 6000), (5000, 6000)), ((5000, 6000), (5000, 6000)))%Q |}.

(** The brackets and the corners of the target (6000, 4.5, 0.0), a node of
    [sample_grid]. *)
Definition node_brackets : brackets :=
  {| Mb := (0, 0)%Q;
     Gb := ((9 # 2, 9 # 2), (9 # 2, 9 # 2))%Q;
     Tb := (((6000, 6000), (6000, 6000)), ((6000, 6000), (6000, 6000)))%Q |}.

Definition node_corners : corners :=
  {| c000 := 1; c100 := 1; c010 := 1; c110 := 1;
     c001 := 1; c101 := 1; c011 := 1; c111 := 1 |}.

(** A fit problem whose data are the reference curve stretched by two about
    its centre: the reference is the line through (0, 0) and (1, 1), the
    data are 0, 2, 4 at the depths 0, 1, 2. *)
Definition stretched_functargs : functargs :=
  {| fa_x2 := [0; 1]%Q; fa_y2 := [0; 1]%Q; fa_y1 := Some [0; 2; 4]%Q;
     fa_ndep := Some 3; fa_ipar := Some [0; 0; 0; 0]%Q |}.

(** A fitter that tries the initial guess and then the candidates of a list,
    and answers the first parameter vector that reproduces the data
    exactly. *)
Fixpoint first_exact (f : list Q -> list Q -> M (list Q)) (xdata ydata : list Q)
    (cands : list (list Q)) : exn + list Q :=
  match cands with
  | [] => inl OptimizeError
  | p :: r =>
      match outcome (f xdata p) with
      | inr y => if same_values y ydata then inr p else first_exact f xdata ydata r
      | inl _ => first_exact f xdata ydata r
      end
  end.

Definition search_numerics (cands : list (list Q)) : numerics :=
  {| log10 := log10_decades; pow10 := pow10_decades;
     curve_fit := fun f xdata ydata sigma p0 => first_exact f xdata ydata (p0 :: cands) |}.

(** The reference line shifted by [(a, b)], read at [v]. *)
Definition shifted_line (a b v : Q) : Q :=
  ((1 + b - (0 + b)) / (1 + a - (0 + a)) * (v - (0 + a)) + (0 + b))%Q.




(** The tags of the vectors a pairwise blend may shift. *)
Definition six_tags : list string := ["TEMP"; "XNE"; "XNA"; "RHO"; "TAU"; "RHOX"].

(** The interpolation to a node of the sample grid, and what it returns. *)
Definition sample_run : M struct :=
  interp_atmo_grid decade_numerics sample_grid 6000 (9 # 2) 0 sample_atmo_in 0.

Definition sample_out : struct :=
  match outcome sample_run with inr s => s | inl _ => ∅ end.

(** A model with a height for each depth point, a model without turbulence
    value that has an opacity flag instead, and their blend. *)
Definition tall_model : struct :=
  <["HEIGHT" := VVec [7; 6; 5; 4; 3; 2; 1]%Q]> warm_model.

Definition bare_model : struct :=
  <["OPFLAG" := VInt 1]> (delete "VTURB" warm_model).

Definition tall_blend : M struct :=
  interp_atmo_pair decade_numerics tall_model bare_model (1 # 2) (Some "TAU") 1.

Definition tall_krz : struct :=
  match outcome tall_blend with inr s => s | inl _ => ∅ end.

(** Two models on one straight line in every logarithm, the second one
    point shorter at the bottom, and the blend of the shorter with the
    longer one. *)
Definition ramp_model : struct :=
  model 6000 (9 # 2) 0
    [1 # 10000; 1 # 1000; 1 # 100; 1 # 10; 1; 10; 100]%Q
    [1 # 100; 1 # 10; 1; 10; 100; 1000; 10000]%Q
    [10; 100; 1000; 10000; 100000; 1000000; 10000000]%Q
    [100; 1000; 10000; 100000; 1000000; 10000000; 100000000]%Q
    [1000; 10000; 100000; 1000000; 10000000; 100000000; 1000000000]%Q
    [1 # 1000000; 1 # 100000; 1 # 10000; 1 # 1000; 1 # 100; 1 # 10; 1]%Q.

Definition short_model : struct :=
  model 5000 (9 # 2) 0
    [1 # 10000; 1 # 1000; 1 # 100; 1 # 10; 1; 10]%Q
    [1 # 100; 1 # 10; 1; 10; 100; 1000]%Q
    [10; 100; 1000; 10000; 100000; 1000000]%Q
    [100; 1000; 10000; 100000; 1000000; 10000000]%Q
    [1000; 10000; 100000; 1000000; 10000000; 100000000]%Q
    [1 # 1000000; 1 # 100000; 1 # 10000; 1 # 1000; 1 # 100; 1 # 10]%Q.

Definition ramp_blend : M struct :=
  interp_atmo_pair decade_numerics short_model ramp_model (1 # 2) (Some "TAU") 1.

Definition ramp_krz : struct :=
  match outcome ramp_blend with inr s => s | inl _ => ∅ end.

(** * Properties *)

(** ** The computation monad *)

Lemma bind_unfold {A B} (m : M A) (f : A -> M B) : (m ≫= f) = bind m f.
Proof. reflexivity. Qed.

Lemma bind_ok {A B} (m : M A) (f : A -> M B) t b :
  (m ≫= f) = (t, inr b) ->
  exists t1 a t2, m = (t1, inr a) /\ f a = (t2, inr b) /\ t = t1 ++ t2.
Proof.
  rewrite bind_unfold. unfold bind. destruct m as [t1 [e|a]]; [discriminate|].
  destruct (f a) as [t2 r] eqn:Hf. intros [= <- ->]. eauto 6.
Qed.

Lemma bind_ret_l {A B} (a : A) (f : A -> M B) : (ret a ≫= f) = f a.
Proof. rewrite bind_unfold. unfold bind, ret. simpl. destruct (f a); reflexivity. Qed.

Lemma bind_raise {A B} (e : exn) (f : A -> M B) : (raise e ≫= f) = raise e.
Proof. reflexivity. Qed.

Lemma bind_events {A B} (m : M A) (f : A -> M B) t a :
  m = (t, inr a) -> events (m ≫= f) = t ++ events (f a).
Proof.
  intros ->. rewrite bind_unfold. unfold bind, events. destruct (f a); reflexivity.
Qed.

(** ** Indexing *)

Lemma getitem_nat {A} (l : list A) (j : nat) :
  getitem l (Z.of_nat j) =
  match l !! j with Some a => ret a | None => raise IndexError end.
Proof.
  unfold getitem, py_index, Zlen.
  destruct (Z.of_nat j <? Z.of_nat (length l)) eqn:Hlt.
  - replace (0 <=? Z.of_nat j) with true by (symmetry; apply Z.leb_le; lia).
    simpl. rewrite Nat2Z.id. reflexivity.
  - apply Z.ltb_ge in Hlt.
    replace (Z.of_nat j <? 0) with false by (symmetry; apply Z.ltb_ge; lia).
    rewrite andb_false_r. simpl.
    rewrite (proj2 (lookup_ge_None l j)) by lia. reflexivity.
Qed.

(** ** The top-trimming loop *)

Lemma trim_top_step min_d v itop :
  trim_top min_d v itop =
  match outcome (getitem v (itop + 1)) with
  | inl e => raise e
  | inr a =>
      match outcome (getitem v itop) with
      | inl e => raise e
      | inr b =>
          if small_step min_d a b then trim_top min_d v (itop + 1) else ret itop
      end
  end.
Proof.
  funelim (trim_top min_d v itop);
    repeat match goal with H : outcome _ = _ |- _ => rewrite H end; reflexivity.
Qed.

Lemma trim_top_nat min_d v (j : nat) :
  trim_top min_d v (Z.of_nat j) =
  match v !! S j, v !! j with
  | Some a, Some b =>
      if small_step min_d a b then trim_top min_d v (Z.of_nat (S j))
      else ret (Z.of_nat j)
  | _, _ => raise IndexError
  end.
Proof.
  rewrite trim_top_step.
  replace (Z.of_nat j + 1) with (Z.of_nat (S j)) by lia.
  rewrite !getitem_nat.
  destruct (v !! S j) as [a|] eqn:Ha; simpl; [|reflexivity].
  destruct (v !! j) as [b|] eqn:Hb; simpl; reflexivity.
Qed.
Lemma large_step_in_bounds min_d v j :
  large_step_at min_d v j = true -> (S j < length v)%nat.
Proof.
  unfold large_step_at. destruct (v !! S j) eqn:H; [|discriminate].
  intros _. eapply lookup_lt_Some; eauto.
Qed.

Lemma trim_top_first_large min_d v d : forall itop j,
  j = (itop + d)%nat ->
  large_step_at min_d v j = true ->
  exists j0, (itop <= j0 <= j)%nat /\ large_step_at min_d v j0 = true /\
    (forall k, (itop <= k < j0)%nat -> large_step_at min_d v k = false) /\
    trim_top min_d v (Z.of_nat itop) = ret (Z.of_nat j0).
Proof.
  induction d as [|d IH]; intros itop j Hj Hl.
  - replace j with itop in * by lia. exists itop.
    split; [lia|]. split; [exact Hl|]. split; [intros; lia|].
    rewrite trim_top_nat. unfold large_step_at in Hl.
    destruct (v !! S itop); [|discriminate]. destruct (v !! itop); [|discriminate].
    apply negb_true_iff in Hl. rewrite Hl. reflexivity.
  - destruct (large_step_at min_d v itop) eqn:Hi.
    + exists itop. split; [lia|]. split; [exact Hi|]. split; [intros; lia|].
      rewrite trim_top_nat. unfold large_step_at in Hi.
      destruct (v !! S itop); [|discriminate]. destruct (v !! itop); [|discriminate].
      apply negb_true_iff in Hi. rewrite Hi. reflexivity.
    + destruct (IH (S itop) j ltac:(lia) Hl) as (j0 & Hr & Hl0 & Hmin & Hrun).
      exists j0. split; [lia|]. split; [exact Hl0|]. split.
      * intros k Hk. destruct (decide (k = itop)) as [->|]; [exact Hi|].
        apply Hmin. lia.
      * rewrite trim_top_nat. apply large_step_in_bounds in Hl.
        destruct (lookup_lt_is_Some_2 v (S itop) ltac:(lia)) as [a Ha].
        destruct (lookup_lt_is_Some_2 v itop ltac:(lia)) as [b Hb].
        unfold large_step_at in Hi. rewrite Ha, Hb in *.
        apply negb_false_iff in Hi. rewrite Hi. exact Hrun.
Qed.

Lemma trim_top_all_small min_d v n : forall itop,
  (length v - itop <= n)%nat ->
  (forall j, (itop <= j)%nat -> large_step_at min_d v j = false) ->
  trim_top min_d v (Z.of_nat itop) = raise IndexError.
Proof.
  induction n as [|n IH]; intros itop Hn Hs; rewrite trim_top_nat.
  - rewrite (proj2 (lookup_ge_None v (S itop))) by lia. reflexivity.
  - destruct (v !! S itop) as [a|] eqn:Ha; [|reflexivity].
    destruct (v !! itop) as [b|] eqn:Hb; [|reflexivity].
    pose proof (Hs itop ltac:(lia)) as Hi. unfold large_step_at in Hi.
    rewrite Ha, Hb in Hi. apply negb_false_iff in Hi. rewrite Hi.
    apply lookup_lt_Some in Ha.
    apply IH; [lia|]. intros j Hj. apply Hs. lia.
Qed.

(** C10. The top-trimming loop [while v[itop + 1] / v[itop] - 1 <= min_d]
    started at a top index [itop], with the fractional step as the loop
    computes it in binary64: if some step from [itop] on exceeds [min_d],
    the loop returns the index of the first such step, which is in bounds;
    if none does, it raises [IndexError] (it reads past the end of the
    vector), which is none of the routine's [ValueError]s. *)
Theorem trim_top_well_defined (min_d : Q) (v : list Q) (itop : nat) :
  ((exists j, (itop <= j)%nat /\ large_step_at min_d v j = true) ->
   exists j0, (itop <= j0)%nat /\ (S j0 < length v)%nat /\
     large_step_at min_d v j0 = true /\
     (forall k, (itop <= k < j0)%nat -> large_step_at min_d v k = false) /\
     trim_top min_d v (Z.of_nat itop) = ret (Z.of_nat j0))
  /\
  ((forall j, (itop <= j)%nat -> large_step_at min_d v j = false) ->
   trim_top min_d v (Z.of_nat itop) = raise IndexError).
Proof.
  split.
  - intros (j & Hj & Hl).
    destruct (trim_top_first_large min_d v (j - itop) itop j ltac:(lia) Hl)
      as (j0 & Hr & Hl0 & Hmin & Hrun).
    exists j0. split; [lia|]. split; [eapply large_step_in_bounds; eauto|].
    auto.
  - intros Hs. eapply trim_top_all_small; eauto.
Qed.

(** Started at index 1, the loop skips the small step of a vector whose
    later steps are large, and runs past the end of a vector whose steps
    are all small. A step from 100 to 101 is large: the quotient rounds to
    a number above 1.01, and the loop started at index 0 stays there. *)
Lemma trim_top_well_defined_witness :
  (exists j0, (1 <= j0)%nat /\ (S j0 < 5)%nat /\
     trim_top min_drhox [1000; 1001; 1002; 2000; 3000]%Q 1 = ret (Z.of_nat j0))
  /\ trim_top min_dtau [1000; 1001; 1002; 1003]%Q 1 = raise IndexError
  /\ small_step min_dtau 101 100 = false
  /\ (exists j0, (S j0 < 5)%nat /\
       (forall k, (0 <= k < j0)%nat ->
          large_step_at min_dtau [100; 101; 200; 400; 800]%Q k = false) /\
       trim_top min_dtau [100; 101; 200; 400; 800]%Q 0 = ret (Z.of_nat j0))
  /\ trim_top min_dtau [100; 101; 200; 400; 800]%Q 0 = ret 0.
Proof.
  split; [|split; [|split; [|split]]].
  - destruct (proj1 (trim_top_well_defined min_drhox [1000; 1001; 1002; 2000; 3000]%Q 1))
      as (j0 & H1 & H2 & _ & _ & H5).
    + exists 2%nat. split; [lia | vm_compute; reflexivity].
    + exists j0. auto.
  - apply (proj2 (trim_top_well_defined min_dtau [1000; 1001; 1002; 1003]%Q 1)).
    intros j Hj. do 4 (destruct j as [|j]; [try lia; vm_compute; reflexivity|]).
    reflexivity.
  - vm_compute. reflexivity.
  - destruct (proj1 (trim_top_well_defined min_dtau [100; 101; 200; 400; 800]%Q 0))
      as (j0 & _ & H2 & _ & H4 & H5).
    + exists 0%nat. split; [lia | vm_compute; reflexivity].
    + exists j0. auto.
  - vm_compute. reflexivity.
Defined.

(** The rounding at work: the number written [0.01], a tie that goes to the
    even neighbour, a result too large for binary64, and the sum
    [0.1 + 0.2], which is not the number written [0.3]. *)
Lemma round64_samples :
  min_dtau = 5764607523034235 # 576460752303423488
  /\ round64 (inject_Z (2 ^ 53 + 1)) = inject_Z (2 ^ 53)
  /\ round64 (inject_Z (2 ^ 53 + 3)) = inject_Z (2 ^ 53 + 4)
  /\ overflows (round64 (inject_Z (2 ^ 1024 - 2 ^ 970))) = true
  /\ overflows (round64 (inject_Z (2 ^ 1024 - 2 ^ 970 - 1))) = false
  /\ Qeqb (round64 (round64 (1 # 10) + round64 (2 # 10))) (round64 (3 # 10)) = false.
Proof. vm_compute. repeat split; reflexivity. Qed.

(** ** Selection of the interpolation variable *)

(** With [interpvar=None] the routine prefers TAU, then RHOX, and fails only
    when the two atmospheres share neither. *)
Lemma select_interpvar_unset (atmo1 atmo2 : struct) :
  select_interpvar atmo1 atmo2 None =
  if has_tag atmo1 "TAU" && has_tag atmo2 "TAU" then ret "TAU"
  else if has_tag atmo1 "RHOX" && has_tag atmo2 "RHOX" then ret "RHOX"
  else raise (ValueError "atmo1 and atmo2 structures must both contain RHOX or TAU").
Proof.
  unfold select_interpvar.
  destruct (has_tag atmo1 "TAU" && has_tag atmo2 "TAU");
    destruct (has_tag atmo1 "RHOX" && has_tag atmo2 "RHOX"); reflexivity.
Qed.

(** C9. Called without [interpvar=], the routine takes the default of its
    signature, the empty string, which the test [interpvar is None] does not
    catch: the call raises a [ValueError] whatever the two atmospheres hold,
    also when both have TAU (sample models below). *)
Theorem select_interpvar_default_raises (atmo1 atmo2 : struct) :
  select_interpvar atmo1 atmo2 interpvar_default =
    raise (ValueError
      (if (has_tag atmo1 "TAU" && has_tag atmo2 "TAU")
          || (has_tag atmo1 "RHOX" && has_tag atmo2 "RHOX")
       then "interpvar must be 'TAU' (default) or 'RHOX'"
       else "atmo1 and atmo2 structures must both contain RHOX or TAU"))
  /\ interp_atmo_pair decade_numerics cool_model warm_model (1 # 2) interpvar_default 0
     = raise (ValueError "interpvar must be 'TAU' (default) or 'RHOX'").
Proof.
  split.
  - unfold select_interpvar, interpvar_default.
    destruct (has_tag atmo1 "TAU" && has_tag atmo2 "TAU");
      destruct (has_tag atmo1 "RHOX" && has_tag atmo2 "RHOX"); reflexivity.
  - vm_compute. reflexivity.
Qed.

(** ** Geometry *)

(** C5. A caller who declares SPH for a model computed PP gets an error. A
    caller who declares PP for a model computed SPH gets the message that
    the input overrides the grid, and then the computed value: the returned
    structure says SPH. The last part is a run of the whole routine on a
    grid of spherical models. *)
Theorem reconcile_geom_keeps_computed (atmo : struct) :
  reconcile_geom (<["GEOM" := VStr "SPH"]> atmo) "PP"
    = raise (ValueError "Input ATMO.GEOM='SPH' not valid for requested model.")
  /\ reconcile_geom (<["GEOM" := VStr "PP"]> atmo) "SPH"
    = ([Print (geom_overrides (VStr "PP") "SPH")],
       inr (<["GEOM" := VStr "SPH"]> atmo))
  /\ (let run := interp_atmo_grid decade_numerics sphere_grid 6000 (9 # 2) 0 pp_atmo_in 0 in
      prints run = [Print (geom_overrides (VStr "PP") "SPH")]
      /\ field_of run "GEOM" = Some (VStr "SPH")).
Proof.
  split; [|split].
  - unfold reconcile_geom, has_tag, getattr. rewrite !lookup_insert_eq. reflexivity.
  - unfold reconcile_geom, has_tag, getattr. rewrite !lookup_insert_eq. simpl.
    rewrite insert_insert_eq. reflexivity.
  - vm_compute. split; reflexivity.
Qed.

(** ** Restriction of the depth points after the temperature fit *)

(** C4. The guard after the first pass tests [ngd], the number of depth
    points of the first pass, and not the number of points that remain:
    whenever the first pass had two points or more the step returns, however
    few points are left, and the loop goes on to the next quantity. *)
Theorem restrict_after_temp_guard (depth1 depth2 : list Q) (ngd : Z) (pars00 : Q) :
  2 <= ngd -> depth2 <> [] ->
  exists igd, restrict_after_temp depth1 depth2 ngd pars00
              = ret ([pars00; 0; 0; 0]%Q, igd).
Proof.
  intros Hn Hd. unfold restrict_after_temp.
  destruct depth2 as [|d r]; [congruence|]. unfold py_min, py_max.
  rewrite !bind_ret_l.
  replace (ngd <? 2) with false by (symmetry; apply Z.ltb_ge; lia).
  eexists. reflexivity.
Qed.

(** With a temperature fit that strays by ten decades no depth point is
    left; the call goes on and ends inside the second fit, which has the
    constraint point alone to fit four parameters to. *)
Lemma restrict_after_temp_guard_witness :
  restrict_after_temp [0; 1; 2; 3]%Q [0; 1; 2; 3]%Q 4 10 = ret ([10; 0; 0; 0]%Q, [])
  /\ (let run := interp_atmo_pair (stray_numerics 10) cool_model warm_model (1 # 2)
                   (Some "TAU") 0 in
      fit_calls run = 2%nat /\ outcome run = inl TypeError).
Proof.
  split.
  - destruct (restrict_after_temp_guard [0; 1; 2; 3]%Q [0; 1; 2; 3]%Q 4 10) as [igd H];
      [lia | discriminate |].
    rewrite H. f_equal. f_equal. f_equal.
    vm_compute in H. congruence.
  - vm_compute. split; reflexivity.
Defined.

(** ** Arrays *)

Lemma mapM_length {A B} (f : A -> M B) (l : list A) t r :
  mapM f l = (t, inr r) -> length r = length l.
Proof.
  revert t r. induction l as [|a l IH]; intros t r H; simpl in H.
  - injection H as _ <-. reflexivity.
  - apply bind_ok in H as (t1 & b & t2 & _ & H & _).
    apply bind_ok in H as (t3 & bs & t4 & Hbs & H & _).
    injection H as _ <-. simpl. f_equal. eauto.
Qed.

Lemma slice_bound_0 len : 0 <= len -> slice_bound len 0 = 0.
Proof. intros. unfold slice_bound. simpl. lia. Qed.

Lemma slice_app_prefix {A} (l r : list A) : slice (l ++ r) 0 (Zlen l) = l.
Proof.
  unfold slice, Zlen. rewrite slice_bound_0 by lia.
  unfold slice_bound. rewrite length_app.
  replace (Z.of_nat (length l) <? 0) with false by (symmetry; apply Z.ltb_ge; lia).
  replace (Z.to_nat (Z.min (Z.of_nat (length l)) (Z.of_nat (length l + length r)) - 0))
    with (length l) by lia.
  simpl. apply take_app_length.
Qed.

Lemma slice_all {A} (l : list A) : slice l 0 (Zlen l) = l.
Proof.
  rewrite <- (app_nil_r l) at 1. apply slice_app_prefix.
Qed.

Lemma set_prefix_app (h r h' : list Q) :
  length h' = length h -> set_prefix (h ++ r) h' = h' ++ r.
Proof.
  intros H. unfold set_prefix. rewrite H, drop_app_length. reflexivity.
Qed.

Lemma interp1d_length x y x_new t r :
  interp1d x y x_new = (t, inr r) -> length r = length x_new.
Proof.
  unfold interp1d.
  destruct (negb (length x =? length y)%nat); [discriminate|].
  destruct (length x <? 1)%nat; [discriminate|].
  apply mapM_length.
Qed.

(** ** The shifted interpolation function *)

(** The function value on [x_in] followed by [k] further points, when [ndep]
    is the number of points of [x_in]: the further points get the value 0
    that [np.zeros_like] gave them. *)
Lemma interp_atmo_func_tail (x_in par : list Q) (fa : functargs) (k : nat) t out :
  fa_ndep fa = Some (Zlen x_in) ->
  interp_atmo_func (x_in ++ replicate k 0%Q) par fa = (t, inr out) ->
  exists head, length head = length x_in /\ out = head ++ replicate k 0%Q.
Proof.
  intros Hn H. unfold interp_atmo_func in H. rewrite Hn in H. simpl in H.
  rewrite !slice_app_prefix in H.
  apply bind_ok in H as (? & p0 & ? & _ & H & _).
  apply bind_ok in H as (? & p1 & ? & _ & H & _).
  apply bind_ok in H as (? & head & ? & Hh & H & _).
  apply interp1d_length in Hh.
  rewrite fmap_app, fmap_replicate in H.
  assert (E1 : set_prefix (((fun _ : Q => 0%Q) <$> x_in) ++ replicate k 0%Q) head
               = head ++ replicate k 0%Q)
    by (apply set_prefix_app; rewrite length_fmap; exact Hh).
  rewrite E1 in H.
  replace (Zlen x_in) with (Zlen head) in H by (unfold Zlen; congruence).
  rewrite !slice_app_prefix in H.
  apply bind_ok in H as (? & y1min & ? & _ & H & _).
  apply bind_ok in H as (? & y1max & ? & _ & H & _).
  apply bind_ok in H as (? & p2 & ? & _ & H & _).
  match type of H with context [set_prefix (head ++ _) (?f <$> head)] =>
    assert (E2 : set_prefix (head ++ replicate k 0%Q) (f <$> head)
                 = (f <$> head) ++ replicate k 0%Q)
      by (apply set_prefix_app; apply length_fmap);
    rewrite E2 in H; clear E2;
    set (scaled := f <$> head) in *;
    assert (Hs : length scaled = length head) by apply length_fmap
  end.
  destruct (fa_y1 fa) as [y1|].
  - apply bind_ok in H as (? & lo & ? & _ & H & _).
    apply bind_ok in H as (? & hi & ? & _ & H & _).
    replace (Zlen head) with (Zlen scaled) in H by (unfold Zlen; congruence).
    rewrite slice_app_prefix in H.
    rewrite set_prefix_app in H by (unfold np_clip; apply length_fmap).
    injection H as _ <-.
    eexists. split; [|reflexivity]. unfold np_clip. rewrite length_fmap. congruence.
  - injection H as _ <-. eexists. split; [|reflexivity]. congruence.
Qed.

(** C1. In the fit of [interp_atmo_constrained], a point is appended at
    [(x, y) = (0, 0)] for each constrained parameter, and the number of
    depth points [ndep] tells [interp_atmo_func] to leave these points at
    the zero of [np.zeros_like]: for every parameter vector the function
    value at an appended point is 0, the data value there is 0, and the
    residual is 0. The appended points put no penalty on any parameter. *)
Theorem constraint_points_are_inert
    (x_in y_in err_in constraints par : list Q) (fa : functargs)
    (n : Z) (x y err : list Q) t out :
  fa_ndep fa = Some (Zlen x_in) ->
  length y_in = length x_in ->
  constrained_points x_in y_in err_in (Some constraints) = (n, (x, y, err)) ->
  interp_atmo_func x par fa = (t, inr out) ->
  n = Zlen (List.filter nonzero constraints)
  /\ drop (length x_in) y = replicate (Z.to_nat n) 0%Q
  /\ drop (length x_in) out = replicate (Z.to_nat n) 0%Q.
Proof.
  intros Hn Hlen Hc Hf. unfold constrained_points in Hc.
  destruct (0 <? Zlen (List.filter nonzero constraints)) eqn:Hpos;
    injection Hc as <- <- <- <-.
  - split; [reflexivity|]. split.
    + rewrite <- Hlen. apply drop_app_length.
    + apply interp_atmo_func_tail in Hf as (head & Hh & ->); [|exact Hn].
      rewrite <- Hh. apply drop_app_length.
  - apply Z.ltb_ge in Hpos.
    assert (E : Zlen (List.filter nonzero constraints) = 0) by (unfold Zlen in *; lia).
    rewrite E. simpl. split; [reflexivity|]. split.
    + rewrite <- Hlen. apply drop_all.
    + rewrite <- (app_nil_r x_in) in Hf.
      apply (interp_atmo_func_tail x_in par fa 0) in Hf as (head & Hh & ->); [|exact Hn].
      rewrite <- Hh. simpl. rewrite app_nil_r. apply drop_all.
Qed.

(** The first pass on four depth points with the constraint on the
    horizontal shift: the appended point is 0 for the shift 0 and for the
    shift 1. *)
Lemma constraint_points_are_inert_witness :
  (1 = Zlen (List.filter nonzero constraints0)
   /\ drop 4 [1; 2; 4; 8; 0]%Q = replicate (Z.to_nat 1) 0%Q
   /\ drop 4 [1; 8 # 4; 16 # 4; 32 # 4; 0]%Q = replicate (Z.to_nat 1) 0%Q)
  /\
  (1 = Zlen (List.filter nonzero constraints0)
   /\ drop 4 [1; 2; 4; 8; 0]%Q = replicate (Z.to_nat 1) 0%Q
   /\ drop 4 [1; 1; 8 # 4; 16 # 4; 0]%Q = replicate (Z.to_nat 1) 0%Q).
Proof.
  split.
  - apply (constraint_points_are_inert
             [0; 1; 2; 3]%Q [1; 2; 4; 8]%Q (replicate 4 (5 # 100)) constraints0
             [0; 0; 0; 0]%Q sample_functargs 1
             [0; 1; 2; 3; 0]%Q [1; 2; 4; 8; 0]%Q
             (replicate 4 (5 # 100) ++ [1 # 2])%Q []);
      reflexivity.
  - apply (constraint_points_are_inert
             [0; 1; 2; 3]%Q [1; 2; 4; 8]%Q (replicate 4 (5 # 100)) constraints0
             [1; 0; 0; 0]%Q sample_functargs 1
             [0; 1; 2; 3; 0]%Q [1; 2; 4; 8; 0]%Q
             (replicate 4 (5 # 100) ++ [1 # 2])%Q []);
      reflexivity.
Defined.

(** ** Minima and maxima *)

Lemma Qleb_le a b : Qleb a b = true <-> (a <= b)%Q.
Proof. apply Qle_bool_iff. Qed.

Lemma Qltb_lt a b : Qltb a b = true <-> (a < b)%Q.
Proof.
  unfold Qltb. rewrite negb_true_iff. split.
  - intros H. apply Qnot_le_lt. intros Hle. apply Qle_bool_iff in Hle. congruence.
  - intros H. destruct (Qle_bool b a) eqn:E; [|reflexivity].
    apply Qle_bool_iff in E. exfalso. eapply Qlt_not_le; eauto.
Qed.

Lemma Qltb_ge a b : Qltb a b = false <-> (b <= a)%Q.
Proof.
  unfold Qltb. rewrite negb_false_iff. apply Qle_bool_iff.
Qed.

Lemma Qleb_gt a b : Qleb a b = false <-> (b < a)%Q.
Proof.
  rewrite <- Qltb_lt. unfold Qltb, Qleb. rewrite negb_true_iff. reflexivity.
Qed.

Lemma fold_min_spec r : forall x,
  In (fold_left Qmin2 r x) (x :: r)
  /\ forall y, In y (x :: r) -> (fold_left Qmin2 r x <= y)%Q.
Proof.
  induction r as [|a r IH]; intros x; simpl.
  - split; [auto|]. intros y [->|[]]. apply Qle_refl.
  - destruct (IH (Qmin2 x a)) as [Hin Hle]. split.
    + destruct Hin as [Hin|Hin]; [|auto].
      rewrite <- Hin. unfold Qmin2. destruct (Qleb x a); auto.
    + intros y Hy.
      assert (Hm : (fold_left Qmin2 r (Qmin2 x a) <= Qmin2 x a)%Q)
        by (apply Hle; left; reflexivity).
      assert (Hxa : (Qmin2 x a <= x)%Q /\ (Qmin2 x a <= a)%Q).
      { unfold Qmin2. destruct (Qleb x a) eqn:E.
        - apply Qleb_le in E. split; [apply Qle_refl | exact E].
        - apply Qleb_gt in E. split; [apply Qlt_le_weak; exact E | apply Qle_refl]. }
      destruct Hy as [<-|[<-|Hy]].
      * eapply Qle_trans; [exact Hm | tauto].
      * eapply Qle_trans; [exact Hm | tauto].
      * apply Hle. right. exact Hy.
Qed.

Lemma fold_max_spec r : forall x,
  In (fold_left Qmax2 r x) (x :: r)
  /\ forall y, In y (x :: r) -> (y <= fold_left Qmax2 r x)%Q.
Proof.
  induction r as [|a r IH]; intros x; simpl.
  - split; [auto|]. intros y [->|[]]. apply Qle_refl.
  - destruct (IH (Qmax2 x a)) as [Hin Hle]. split.
    + destruct Hin as [Hin|Hin]; [|auto].
      rewrite <- Hin. unfold Qmax2. destruct (Qleb x a); auto.
    + intros y Hy.
      assert (Hm : (Qmax2 x a <= fold_left Qmax2 r (Qmax2 x a))%Q)
        by (apply Hle; left; reflexivity).
      assert (Hxa : (x <= Qmax2 x a)%Q /\ (a <= Qmax2 x a)%Q).
      { unfold Qmax2. destruct (Qleb x a) eqn:E.
        - apply Qleb_le in E. split; [exact E | apply Qle_refl].
        - apply Qleb_gt in E. split; [apply Qle_refl | apply Qlt_le_weak; exact E]. }
      destruct Hy as [<-|[<-|Hy]].
      * eapply Qle_trans; [|exact Hm]. tauto.
      * eapply Qle_trans; [|exact Hm]. tauto.
      * apply Hle. right. exact Hy.
Qed.

Lemma np_min_ok l t m :
  np_min l = (t, inr m) ->
  t = [] /\ In m l /\ forall y, In y l -> (m <= y)%Q.
Proof.
  destruct l as [|x r]; [discriminate|]. intros [= <- <-].
  split; [reflexivity|]. apply fold_min_spec.
Qed.

Lemma np_max_ok l t m :
  np_max l = (t, inr m) ->
  t = [] /\ In m l /\ forall y, In y l -> (y <= m)%Q.
Proof.
  destruct l as [|x r]; [discriminate|]. intros [= <- <-].
  split; [reflexivity|]. apply fold_max_spec.
Qed.

Lemma np_min_nonempty l x : In x l -> exists m, np_min l = ret m.
Proof. destruct l; [intros []|]. intros _. eexists. reflexivity. Qed.

Lemma np_max_nonempty l x : In x l -> exists m, np_max l = ret m.
Proof. destruct l; [intros []|]. intros _. eexists. reflexivity. Qed.

Lemma bind_emit {B} (e : event) (k : unit -> M B) :
  (emit e ≫= k) = (e :: events (k tt), outcome (k tt)).
Proof. rewrite bind_unfold. unfold bind, emit, events, outcome. destruct (k tt); reflexivity. Qed.

Lemma when_false (m : M unit) : when false m = ret tt.
Proof. reflexivity. Qed.

Lemma when_true (m : M unit) : when true m = m.
Proof. reflexivity. Qed.

(** ** The brackets *)

Lemma temperature_bracket_above Tlist Teff Tmax :
  np_max Tlist = ret Tmax -> (Tmax < Teff)%Q ->
  temperature_bracket Tlist Teff
  = raise (ValueError Teff_too_large).
Proof.
  intros Hmax Hlt. unfold temperature_bracket.
  destruct Tlist as [|x r]; [discriminate|].
  destruct (np_min_nonempty (x :: r) x ltac:(left; reflexivity)) as [Tmin Hmin].
  rewrite Hmin, bind_ret_l, Hmax, bind_ret_l.
  apply Qltb_lt in Hlt. rewrite Hlt. reflexivity.
Qed.

Lemma temperature_bracket_below Tlist Teff Tmin :
  np_min Tlist = ret Tmin -> (Teff < Tmin)%Q ->
  (exists t, In t Tlist /\ (Tmin < t)%Q) ->
  exists Tup,
    temperature_bracket Tlist Teff
    = ([Print (Teff_below_grid Teff Tmin)], inr (Tmin, Tup))
    /\ In Tup Tlist /\ (Tmin < Tup)%Q
    /\ forall t, In t Tlist -> (Tmin < t)%Q -> (Tup <= t)%Q.
Proof.
  intros Hmin Hlt (t0 & Hin0 & Hgt0). unfold temperature_bracket.
  destruct (np_max_nonempty Tlist t0 Hin0) as [Tmax Hmax].
  destruct (np_min_ok _ _ _ Hmin) as (_ & HminIn & Hminle).
  destruct (np_max_ok _ _ _ Hmax) as (_ & HmaxIn & Hmaxle).
  rewrite Hmin, bind_ret_l, Hmax, bind_ret_l.
  assert (E1 : Qltb Tmax Teff = false).
  { apply Qltb_ge. apply Qlt_le_weak. eapply Qlt_le_trans; [exact Hlt|]. auto. }
  assert (E2 : Qltb Teff Tmin = true) by (apply Qltb_lt; exact Hlt).
  assert (E3 : Qltb Tmin Teff = false) by (apply Qltb_ge; apply Qlt_le_weak; exact Hlt).
  rewrite E1, E2, E3, when_false, when_true, bind_ret_l, bind_emit.
  assert (Hf : In t0 (List.filter (fun t => Qltb Tmin t) Tlist))
    by (apply filter_In; split; [exact Hin0 | apply Qltb_lt; exact Hgt0]).
  destruct (np_min_nonempty _ _ Hf) as [Tup Hup].
  destruct (np_min_ok _ _ _ Hup) as (_ & HupIn & Huple).
  apply filter_In in HupIn as [HupIn Hupgt]. apply Qltb_lt in Hupgt.
  exists Tup. rewrite Hup, bind_ret_l. split; [reflexivity|].
  split; [exact HupIn|]. split; [exact Hupgt|].
  intros t Ht Hgt. apply Huple. apply filter_In. split; [exact Ht|].
  apply Qltb_lt. exact Hgt.
Qed.

Lemma metallicity_bracket_below Mlist MonH Mmin :
  np_min Mlist = ret Mmin -> (MonH < Mmin)%Q ->
  exists t,
    metallicity_bracket Mlist MonH
    = (t, inl (ValueError MonH_too_small)).
Proof.
  intros Hmin Hlt. unfold metallicity_bracket.
  destruct Mlist as [|x r]; [discriminate|].
  destruct (np_max_nonempty (x :: r) x ltac:(left; reflexivity)) as [Mmax Hmax].
  rewrite Hmin, bind_ret_l, Hmax, bind_ret_l.
  apply Qltb_lt in Hlt. rewrite Hlt, when_true.
  destruct (Qltb Mmax MonH); [rewrite when_true, bind_emit | rewrite when_false, bind_ret_l];
    eexists; reflexivity.
Qed.

Lemma metallicity_bracket_above Mlist MonH Mmax :
  np_max Mlist = ret Mmax -> (Mmax < MonH)%Q ->
  (exists m, In m Mlist /\ (m < Mmax)%Q) ->
  exists Mlo,
    metallicity_bracket Mlist MonH
    = ([Print (MonH_above_grid MonH Mmax)], inr (Mlo, Mmax))
    /\ In Mlo Mlist /\ (Mlo < Mmax)%Q
    /\ (forall m, In m Mlist -> (m < Mmax)%Q -> (m <= Mlo)%Q)
    /\ np_max (List.filter (fun m => Qltb m Mmax) Mlist) = ret Mlo.
Proof.
  intros Hmax Hlt (m0 & Hin0 & Hlt0). unfold metallicity_bracket.
  destruct (np_min_nonempty Mlist m0 Hin0) as [Mmin Hmin].
  destruct (np_min_ok _ _ _ Hmin) as (_ & HminIn & Hminle).
  destruct (np_max_ok _ _ _ Hmax) as (_ & HmaxIn & Hmaxle).
  rewrite Hmin, bind_ret_l, Hmax, bind_ret_l.
  assert (E1 : Qltb Mmax MonH = true) by (apply Qltb_lt; exact Hlt).
  assert (E2 : Qltb MonH Mmin = false).
  { apply Qltb_ge. apply Qlt_le_weak. eapply Qle_lt_trans; [|exact Hlt]. auto. }
  assert (E3 : Qleb MonH Mmax = false) by (apply Qleb_gt; exact Hlt).
  rewrite E1, E2, E3, when_false, when_true, bind_emit, bind_ret_l.
  assert (Hf : In m0 (List.filter (fun m => Qltb m Mmax) Mlist))
    by (apply filter_In; split; [exact Hin0 | apply Qltb_lt; exact Hlt0]).
  destruct (np_max_nonempty _ _ Hf) as [Mlo Hlo].
  destruct (np_max_ok _ _ _ Hlo) as (_ & HloIn & Hlole).
  apply filter_In in HloIn as [HloIn Hlolt]. apply Qltb_lt in Hlolt.
  exists Mlo. rewrite Hlo, bind_ret_l. split; [reflexivity|].
  split; [exact HloIn|]. split; [exact Hlolt|]. split; [|reflexivity].
  intros m Hm Hmlt. apply Hlole. apply filter_In. split; [exact Hm|].
  apply Qltb_lt. exact Hmlt.
Qed.

Lemma gravity_bracket_below Glist logg Gmin :
  np_min Glist = ret Gmin -> (logg < Gmin)%Q ->
  exists t,
    gravity_bracket Glist logg
    = (t, inl (ValueError logg_too_small)).
Proof.
  intros Hmin Hlt. unfold gravity_bracket.
  destruct Glist as [|x r]; [discriminate|].
  destruct (np_max_nonempty (x :: r) x ltac:(left; reflexivity)) as [Gmax Hmax].
  rewrite Hmin, bind_ret_l, Hmax, bind_ret_l.
  apply Qltb_lt in Hlt. rewrite Hlt, when_true.
  destruct (Qltb Gmax logg); [rewrite when_true, bind_emit | rewrite when_false, bind_ret_l];
    eexists; reflexivity.
Qed.

Lemma gravity_bracket_above Glist logg Gmax :
  np_max Glist = ret Gmax -> (Gmax < logg)%Q ->
  (exists g, In g Glist /\ (g < Gmax)%Q) ->
  exists Glo,
    gravity_bracket Glist logg
    = ([Print (logg_above_grid logg Gmax)], inr (Glo, Gmax))
    /\ In Glo Glist /\ (Glo < Gmax)%Q
    /\ (forall g, In g Glist -> (g < Gmax)%Q -> (g <= Glo)%Q)
    /\ np_max (List.filter (fun g => Qltb g Gmax) Glist) = ret Glo.
Proof.
  intros Hmax Hlt (m0 & Hin0 & Hlt0). unfold gravity_bracket.
  destruct (np_min_nonempty Glist m0 Hin0) as [Gmin Hmin].
  destruct (np_min_ok _ _ _ Hmin) as (_ & HminIn & Hminle).
  destruct (np_max_ok _ _ _ Hmax) as (_ & HmaxIn & Hmaxle).
  rewrite Hmin, bind_ret_l, Hmax, bind_ret_l.
  assert (E1 : Qltb Gmax logg = true) by (apply Qltb_lt; exact Hlt).
  assert (E2 : Qltb logg Gmin = false).
  { apply Qltb_ge. apply Qlt_le_weak. eapply Qle_lt_trans; [|exact Hlt]. auto. }
  assert (E3 : Qleb logg Gmax = false) by (apply Qleb_gt; exact Hlt).
  rewrite E1, E2, E3, when_false, when_true, bind_emit, bind_ret_l.
  assert (Hf : In m0 (List.filter (fun m => Qltb m Gmax) Glist))
    by (apply filter_In; split; [exact Hin0 | apply Qltb_lt; exact Hlt0]).
  destruct (np_max_nonempty _ _ Hf) as [Glo Hlo].
  destruct (np_max_ok _ _ _ Hlo) as (_ & HloIn & Hlole).
  apply filter_In in HloIn as [HloIn Hlolt]. apply Qltb_lt in Hlolt.
  exists Glo. rewrite Hlo, bind_ret_l. split; [reflexivity|].
  split; [exact HloIn|]. split; [exact Hlolt|]. split; [|reflexivity].
  intros m Hm Hmlt. apply Hlole. apply filter_In. split; [exact Hm|].
  apply Qltb_lt. exact Hmlt.
Qed.

(** C7 (as amended). On one list of grid values [xs] with minimum [lo] and
    maximum [hi], for a requested value [x]:
    above the maximum, the temperature bracket raises, while the metallicity
    and gravity brackets print a warning and return the two largest values;
    below the minimum, the metallicity and gravity brackets raise, while the
    temperature bracket prints a warning and returns the two smallest
    values. The extrapolating side needs a second distinct value in [xs]. *)
Theorem temperature_bracket_mirror (xs : list Q) (x lo hi : Q) :
  np_min xs = ret lo -> np_max xs = ret hi ->
  ((hi < x)%Q ->
     temperature_bracket xs x
       = raise (ValueError Teff_too_large)
     /\ ((exists m, In m xs /\ (m < hi)%Q) ->
         exists below,
           In below xs /\ (below < hi)%Q
           /\ (forall m, In m xs -> (m < hi)%Q -> (m <= below)%Q)
           /\ metallicity_bracket xs x
              = ([Print (MonH_above_grid x hi)], inr (below, hi))
           /\ gravity_bracket xs x
              = ([Print (logg_above_grid x hi)], inr (below, hi))))
  /\
  ((x < lo)%Q ->
     (exists t, metallicity_bracket xs x
        = (t, inl (ValueError MonH_too_small)))
     /\ (exists t, gravity_bracket xs x
        = (t, inl (ValueError logg_too_small)))
     /\ ((exists t, In t xs /\ (lo < t)%Q) ->
         exists above,
           In above xs /\ (lo < above)%Q
           /\ (forall t, In t xs -> (lo < t)%Q -> (above <= t)%Q)
           /\ temperature_bracket xs x
              = ([Print (Teff_below_grid x lo)], inr (lo, above)))).
Proof.
  intros Hmin Hmax. split; intros Hx.
  - split; [eapply temperature_bracket_above; eauto|].
    intros Htwo.
    destruct (metallicity_bracket_above xs x hi Hmax Hx Htwo)
      as (b & Hm & Hin & Hlt & Hle & Hb).
    destruct (gravity_bracket_above xs x hi Hmax Hx Htwo)
      as (b' & Hg & _ & _ & _ & Hb').
    assert (b' = b) as -> by (rewrite Hb in Hb'; injection Hb'; auto).
    exists b. repeat split; auto.
  - split; [eapply metallicity_bracket_below; eauto|].
    split; [eapply gravity_bracket_below; eauto|].
    intros Htwo.
    destruct (temperature_bracket_below xs x lo Hmin Hx Htwo)
      as (a & Ht & Hin & Hlt & Hle).
    exists a. repeat split; auto.
Qed.

(** Two grid temperatures: 7000 K is refused, 4000 K is extrapolated from
    5000 K and 6000 K. *)
Lemma temperature_bracket_mirror_witness :
  temperature_bracket [5000; 6000]%Q 7000
    = raise (ValueError Teff_too_large)
  /\ temperature_bracket [5000; 6000]%Q 4000
    = ([Print (Teff_below_grid 4000 5000)], inr (5000, 6000)%Q).
Proof.
  split.
  - apply (proj1 (temperature_bracket_mirror [5000; 6000]%Q 7000 5000 6000
                    eq_refl eq_refl)).
    reflexivity.
  - destruct (proj2 (temperature_bracket_mirror [5000; 6000]%Q 4000 5000 6000
                       eq_refl eq_refl)) as (_ & _ & H); [reflexivity|].
    destruct H as (above & _ & _ & _ & Heq).
    + exists 6000%Q. split; [right; left; reflexivity | reflexivity].
    + rewrite Heq. vm_compute in Heq. congruence.
Defined.

(** C7, the case the claim as stated misses: below the minimum of a subgrid
    with a single temperature the bracket prints the warning and then
    fails, in [np.min] of an empty selection; so does the whole routine on
    a grid of one model. *)
Lemma temperature_below_single_value :
  temperature_bracket (np_unique [5000]%Q) 4000
    = ([Print (Teff_below_grid 4000 5000)],
       inl (ValueError "zero-size array to reduction operation minimum"))
  /\ interp_atmo_grid decade_numerics [cool_model] 4000 (9 # 2) 0 sample_atmo_in 0
    = ([Print (Teff_below_grid 4000 5000)],
       inl (ValueError "zero-size array to reduction operation minimum")).
Proof. split; vm_compute; reflexivity. Qed.

(** ** Columns, unique values and masks *)

Lemma mapM_silent {A B} (f : A -> M B) (l : list A) :
  (forall a, events (f a) = []) -> events (mapM f l) = [].
Proof.
  intros Hf. induction l as [|a l IH]; [reflexivity|]. simpl.
  rewrite bind_unfold. unfold bind.
  specialize (Hf a). destruct (f a) as [t [e|b]]; simpl in Hf; subst; [reflexivity|].
  rewrite bind_unfold. unfold bind.
  destruct (mapM f l) as [t' [e|bs]]; simpl in IH; subst; reflexivity.
Qed.

Lemma get_num_silent (a : struct) tag : events (get_num a tag) = [].
Proof.
  unfold get_num, getattr. destruct (a !! tag) as [v|]; [|reflexivity].
  rewrite bind_ret_l. destruct v; reflexivity.
Qed.

Lemma column_ok grid tag t col :
  column grid tag = (t, inr col) -> column grid tag = ret col.
Proof.
  intros H. pose proof (mapM_silent (fun e => get_num e tag) grid
                          (fun a => get_num_silent a tag)) as Hs.
  unfold column in *. rewrite H in Hs. simpl in Hs. subst. exact H.
Qed.

Lemma insert_sorted_In x y l : In y (insert_sorted x l) -> y = x \/ In y l.
Proof.
  induction l as [|a l IH]; simpl.
  - intros [<-|[]]. auto.
  - destruct (Qleb x a); simpl.
    + intros [<-|[<-|H]]; auto.
    + intros [<-|H]; auto. destruct (IH H); auto.
Qed.

Lemma np_sort_In y l : In y (np_sort l) -> In y l.
Proof.
  induction l as [|a l IH]; simpl; [auto|].
  intros H. apply insert_sorted_In in H as [->|H]; auto.
Qed.

Lemma drop_repeats_In y l : In y (drop_repeats l) -> In y l.
Proof.
  induction l as [|a l IH]; [auto|]. simpl.
  destruct l as [|b l']; [auto|].
  destruct (Qeqb a b).
  - intros H. right. apply IH. exact H.
  - intros [<-|H]; [left; reflexivity|]. right. apply IH. exact H.
Qed.

Lemma np_unique_In y l : In y (np_unique l) -> In y l.
Proof. intros H. apply np_sort_In, drop_repeats_In. exact H. Qed.

Lemma select_In {A} (mask : list bool) (l : list A) x :
  In x (select mask l) ->
  exists j, mask !! j = Some true /\ l !! j = Some x.
Proof.
  revert l. induction mask as [|m mask IH]; intros [|a l]; simpl;
    try (intros []; fail).
  destruct m; simpl.
  - intros [<-|H]; [exists O; auto|].
    destruct (IH _ H) as (j & ? & ?). exists (S j). auto.
  - intros H. destruct (IH _ H) as (j & ? & ?). exists (S j). auto.
Qed.

(** The first match of [np.where]. *)
Lemma where_from_first {A} (p : A -> bool) (l : list A) : forall k j x,
  l !! j = Some x -> p x = true ->
  exists pre e post,
    l = pre ++ e :: post /\ forallb (fun a => negb (p a)) pre = true /\ p e = true
    /\ where_from p k l = (k + Zlen pre) :: where_from p (k + Zlen pre + 1) post.
Proof.
  induction l as [|a l IH]; intros k j x Hj Hp; [destruct j; discriminate|].
  simpl. destruct (p a) eqn:Ha.
  - exists [], a, l. simpl. unfold Zlen. simpl.
    rewrite Z.add_0_r. auto.
  - destruct j as [|j]; [simpl in Hj; congruence|].
    destruct (IH (k + 1) j x Hj Hp) as (pre & e & post & -> & Hpre & He & Hw).
    exists (a :: pre), e, post. simpl. rewrite Ha. simpl.
    split; [reflexivity|]. split; [exact Hpre|]. split; [exact He|].
    rewrite Hw. unfold Zlen. simpl length. f_equal; [lia|]. f_equal. lia.
Qed.

Lemma bracket_members_M l x t lo up :
  metallicity_bracket l x = (t, inr (lo, up)) -> In lo l /\ In up l.
Proof.
  unfold metallicity_bracket. intros H.
  apply bind_ok in H as (? & Mmin & ? & Hmin & H & _).
  apply bind_ok in H as (? & Mmax & ? & Hmax & H & _).
  apply bind_ok in H as (? & ? & ? & _ & H & _).
  apply bind_ok in H as (? & ? & ? & _ & H & _).
  destruct (Qleb x Mmax).
  - apply bind_ok in H as (? & a & ? & Ha & H & _).
    apply bind_ok in H as (? & b & ? & Hb & H & _).
    injection H as _ <- <-.
    apply np_max_ok in Ha as (_ & Ha & _). apply np_min_ok in Hb as (_ & Hb & _).
    apply filter_In in Ha, Hb. tauto.
  - apply bind_ok in H as (? & a & ? & Ha & H & _).
    injection H as _ <- <-.
    apply np_max_ok in Ha as (_ & Ha & _). apply np_max_ok in Hmax as (_ & Hmax & _).
    apply filter_In in Ha. tauto.
Qed.

Lemma bracket_members_G l x t lo up :
  gravity_bracket l x = (t, inr (lo, up)) -> In lo l /\ In up l.
Proof.
  unfold gravity_bracket. intros H.
  apply bind_ok in H as (? & Mmin & ? & Hmin & H & _).
  apply bind_ok in H as (? & Mmax & ? & Hmax & H & _).
  apply bind_ok in H as (? & ? & ? & _ & H & _).
  apply bind_ok in H as (? & ? & ? & _ & H & _).
  destruct (Qleb x Mmax).
  - apply bind_ok in H as (? & a & ? & Ha & H & _).
    apply bind_ok in H as (? & b & ? & Hb & H & _).
    injection H as _ <- <-.
    apply np_max_ok in Ha as (_ & Ha & _). apply np_min_ok in Hb as (_ & Hb & _).
    apply filter_In in Ha, Hb. tauto.
  - apply bind_ok in H as (? & a & ? & Ha & H & _).
    injection H as _ <- <-.
    apply np_max_ok in Ha as (_ & Ha & _). apply np_max_ok in Hmax as (_ & Hmax & _).
    apply filter_In in Ha. tauto.
Qed.

Lemma bracket_members_T l x t lo up :
  temperature_bracket l x = (t, inr (lo, up)) -> In lo l /\ In up l.
Proof.
  unfold temperature_bracket. intros H.
  apply bind_ok in H as (? & Tmin & ? & Hmin & H & _).
  apply bind_ok in H as (? & Tmax & ? & Hmax & H & _).
  apply bind_ok in H as (? & ? & ? & _ & H & _).
  apply bind_ok in H as (? & ? & ? & _ & H & _).
  destruct (Qltb Tmin x).
  - apply bind_ok in H as (? & a & ? & Ha & H & _).
    apply bind_ok in H as (? & b & ? & Hb & H & _).
    injection H as _ <- <-.
    apply np_max_ok in Ha as (_ & Ha & _). apply np_min_ok in Hb as (_ & Hb & _).
    apply filter_In in Ha, Hb. tauto.
  - apply bind_ok in H as (? & a & ? & Ha & H & _).
    injection H as _ <- <-.
    apply np_min_ok in Ha as (_ & Ha & _). apply np_min_ok in Hmin as (_ & Hmin & _).
    apply filter_In in Ha. tauto.
Qed.

Lemma where_from_length {A} (p : A -> bool) (l : list A) k k' :
  length (where_from p k l) = length (where_from p k' l).
Proof.
  revert k k'. induction l as [|a l IH]; intros k k'; simpl; [reflexivity|].
  destruct (p a); simpl; [f_equal|]; apply IH.
Qed.

Lemma getitem_head {A} (a : A) (l : list A) : getitem (a :: l) 0 = ret a.
Proof.
  unfold getitem, py_index, Zlen. simpl length.
  replace (0 <? Z.of_nat (S (length l))) with true by (symmetry; apply Z.ltb_lt; lia).
  reflexivity.
Qed.

Lemma gravity_at_members grid logg M_b iMb trace t g :
  gravity_at grid logg M_b iMb trace = (t, inr g) ->
  exists monh gs,
    column grid "MONH" = ret monh /\ column grid "LOGG" = ret gs
    /\ In (fst g) (select ((fun m => Qeqb m M_b) <$> monh) gs)
    /\ In (snd g) (select ((fun m => Qeqb m M_b) <$> monh) gs).
Proof.
  unfold gravity_at. intros H.
  apply bind_ok in H as (? & monh & ? & Hm & H & _).
  apply bind_ok in H as (? & gs & ? & Hg & H & _).
  apply bind_ok in H as (? & [lo up] & ? & Hb & H & _).
  apply bind_ok in H as (? & ? & ? & _ & H & _).
  injection H as _ <-.
  apply column_ok in Hm, Hg.
  apply bracket_members_G in Hb as [Hlo Hup].
  apply np_unique_In in Hlo, Hup. eauto 6.
Qed.

Lemma temperature_at_members grid Teff M_b G_b iMb iGb trace t b :
  temperature_at grid Teff M_b G_b iMb iGb trace = (t, inr b) ->
  exists monh logg ts,
    column grid "MONH" = ret monh /\ column grid "LOGG" = ret logg
    /\ column grid "TEFF" = ret ts
    /\ In (fst b) (select (zip_with andb ((fun m => Qeqb m M_b) <$> monh)
                                         ((fun g => Qeqb g G_b) <$> logg)) ts)
    /\ In (snd b) (select (zip_with andb ((fun m => Qeqb m M_b) <$> monh)
                                         ((fun g => Qeqb g G_b) <$> logg)) ts).
Proof.
  unfold temperature_at. intros H.
  apply bind_ok in H as (? & monh & ? & Hm & H & _).
  apply bind_ok in H as (? & logg & ? & Hg & H & _).
  apply bind_ok in H as (? & ts & ? & Ht & H & _).
  apply bind_ok in H as (? & [lo up] & ? & Hb & H & _).
  apply bind_ok in H as (? & ? & ? & _ & H & _).
  injection H as _ <-.
  apply column_ok in Hm, Hg, Ht.
  apply bracket_members_T in Hb as [Hlo Hup].
  apply np_unique_In in Hlo, Hup. eauto 8.
Qed.

(** A temperature found on the joint boundary [(M_b, G_b)] is the
    temperature of a grid entry with that metallicity and gravity. *)
Lemma boundary_key_matches (monh logg ts : list Q) (M_b G_b T : Q) :
  In T (select (zip_with andb ((fun m => Qeqb m M_b) <$> monh)
                              ((fun g => Qeqb g G_b) <$> logg)) ts) ->
  exists j e, zip (zip ts logg) monh !! j = Some e
              /\ key_match (T, G_b, M_b) e = true.
Proof.
  intros H. apply select_In in H as (j & Hmask & Ht).
  rewrite lookup_zip_with in Hmask.
  rewrite !list_lookup_fmap in Hmask.
  destruct (monh !! j) as [m|] eqn:Hm; [|discriminate].
  destruct (logg !! j) as [g|] eqn:Hg; [|discriminate].
  simpl in Hmask. injection Hmask as Hmask.
  apply andb_true_iff in Hmask as [Em Eg].
  exists j, (T, g, m). split.
  - rewrite !lookup_zip_with, Ht, Hg, Hm. reflexivity.
  - unfold key_match. simpl. rewrite Em, Eg.
    unfold Qeqb. rewrite Qeq_bool_refl. reflexivity.
Qed.

Lemma find_brackets_temperatures grid Teff logg MonH trace t b :
  find_brackets grid Teff logg MonH trace = (t, inr b) ->
  forall iMb iGb, exists t' i j,
    temperature_at grid Teff (at2 (Mb b) iMb) (at2 (at2 (Gb b) iMb) iGb) i j trace
    = (t', inr (at2 (at2 (Tb b) iMb) iGb)).
Proof.
  unfold find_brackets. intros H.
  apply bind_ok in H as (? & monh & ? & _ & H & _).
  apply bind_ok in H as (? & mb & ? & _ & H & _).
  apply bind_ok in H as (? & ? & ? & _ & H & _).
  apply bind_ok in H as (? & g0 & ? & _ & H & _).
  apply bind_ok in H as (? & g1 & ? & _ & H & _).
  apply bind_ok in H as (? & t00 & ? & H00 & H & _).
  apply bind_ok in H as (? & t10 & ? & H10 & H & _).
  apply bind_ok in H as (? & t01 & ? & H01 & H & _).
  apply bind_ok in H as (? & t11 & ? & H11 & H & _).
  injection H as _ <-. simpl.
  intros [|] [|]; simpl; eauto.
Qed.

(** C8. For every corner key [(Teff, logg, [M/H])] that the bracket search
    produces, the grid holds at least one entry with that key; the lookup
    does not fail, it goes on with the index of the first matching entry,
    and it prints the diagnostic exactly when the number of matching
    entries is not one. (An empty match cannot arise from these keys.) *)
Theorem corner_lookup_proceeds
    (grid : list struct) (Teff logg MonH : Q) (trace : Z) t (b : brackets)
    (iMb iGb iTb : bool) :
  find_brackets grid Teff logg MonH trace = (t, inr b) ->
  let key := corner_key b iMb iGb iTb in
  exists teff loggs monh pre e post,
    column grid "TEFF" = ret teff /\ column grid "LOGG" = ret loggs
    /\ column grid "MONH" = ret monh
    /\ zip (zip teff loggs) monh = pre ++ e :: post
    /\ forallb (fun a => negb (key_match key a)) pre = true
    /\ key_match key e = true
    /\ let nwhr := 1 + Zlen (np_where (key_match key) post) in
       find_corner grid key
       = (if nwhr =? 1 then []
          else [Print (corner_models nwhr (snd key) (snd (fst key)) (fst (fst key)))],
          inr (Zlen pre)).
Proof.
  intros H key.
  destruct (find_brackets_temperatures _ _ _ _ _ _ _ H iMb iGb) as (t' & i & j & Ht).
  apply temperature_at_members in Ht as (monh & loggs & ts & Hm & Hg & Hts & Hlo & Hup).
  assert (Hin : In (fst (fst key))
                  (select (zip_with andb ((fun m => Qeqb m (snd key)) <$> monh)
                                         ((fun g => Qeqb g (snd (fst key))) <$> loggs)) ts))
    by (subst key; unfold corner_key; simpl; destruct iTb; assumption).
  apply boundary_key_matches in Hin as (k & e0 & Hk & Hmatch).
  replace (fst (fst key), snd (fst key), snd key) with key in Hmatch
    by (destruct key as [[? ?] ?]; reflexivity).
  destruct (where_from_first (key_match key) _ 0 k e0 Hk Hmatch)
    as (pre & e & post & Hsplit & Hpre & He & Hw).
  exists ts, loggs, monh, pre, e, post.
  repeat (split; [assumption|]).
  intros nwhr. unfold find_corner.
  rewrite Hts, bind_ret_l, Hg, bind_ret_l, Hm, bind_ret_l.
  unfold np_where. rewrite Hw.
  assert (En : Zlen ((0 + Zlen pre) :: where_from (key_match key) (0 + Zlen pre + 1) post)
               = nwhr).
  { subst nwhr. unfold np_where, Zlen. simpl length.
    rewrite (where_from_length _ post _ 0). lia. }
  rewrite En. rewrite getitem_head. rewrite Z.add_0_l.
  destruct (nwhr =? 1); cbn [negb].
  - rewrite when_false, bind_ret_l. reflexivity.
  - rewrite when_true, bind_emit. reflexivity.
Qed.

(** In a grid that lists the warm model twice, the corner at 6000 K has two
    entries: the lookup prints and takes the first; the corner at 5000 K
    has one and the lookup is silent. *)
Lemma corner_lookup_proceeds_witness :
  find_brackets twin_grid 5500 (9 # 2) 0 0 = ([], inr twin_brackets)
  /\ (let key := corner_key twin_brackets false false true in
      exists teff loggs monh pre e post,
        column twin_grid "TEFF" = ret teff /\ column twin_grid "LOGG" = ret loggs
        /\ column twin_grid "MONH" = ret monh
        /\ zip (zip teff loggs) monh = pre ++ e :: post
        /\ forallb (fun a => negb (key_match key a)) pre = true
        /\ key_match key e = true
        /\ let nwhr := 1 + Zlen (np_where (key_match key) post) in
           find_corner twin_grid key
           = (if nwhr =? 1 then []
              else [Print (corner_models nwhr (snd key) (snd (fst key)) (fst (fst key)))],
              inr (Zlen pre)))
  /\ find_corner twin_grid (corner_key twin_brackets false false true)
     = ([Print (corner_models 2 0 (9 # 2) 6000)], inr 1)
  /\ find_corner twin_grid (corner_key twin_brackets false false false)
     = ([], inr 0).
Proof.
  split; [vm_compute; reflexivity|].
  split; [|split; vm_compute; reflexivity].
  apply (corner_lookup_proceeds twin_grid 5500 (9 # 2) 0 0 [] twin_brackets
           false false true).
  vm_compute. reflexivity.
Defined.

(** ** Which computations emit events *)

Lemma silent_bind {A B} (m : M A) (f : A -> M B) :
  events m = [] -> (forall a, events (f a) = []) -> events (m ≫= f) = [].
Proof.
  intros Hm Hf. rewrite bind_unfold. unfold bind.
  destruct m as [t [e|a]]; simpl in Hm; subst; [reflexivity|].
  specialize (Hf a). destruct (f a) as [t' r]. simpl in Hf. subst. reflexivity.
Qed.

Lemma silent_ok {A} (m : M A) t r : events m = [] -> m = (t, r) -> t = [].
Proof. intros H ->. exact H. Qed.

Ltac silent_step :=
  match goal with
  | |- events (_ ≫= _) = [] => apply silent_bind; [|intros]
  | |- events (mapM _ _) = [] => apply mapM_silent; intros
  | |- events (ret _) = [] => reflexivity
  | |- events (raise _) = [] => reflexivity
  | |- events (if ?c then _ else _) = [] => destruct c
  | |- events (match ?x with _ => _ end) = [] => destruct x
  | |- events (let '(_, _) := ?x in _) = [] => destruct x
  end.

Ltac silent := repeat silent_step; try reflexivity; try assumption.

Lemma getitem_silent {A} (l : list A) i : events (getitem l i) = [].
Proof. unfold getitem. silent. Qed.

Lemma getattr_silent (a : struct) tag : events (getattr a tag) = [].
Proof. unfold getattr. silent. Qed.

Lemma getfield_silent (a : struct) tag : events (getfield a tag) = [].
Proof. unfold getfield. silent. Qed.

Lemma get_vec_silent (a : struct) tag : events (get_vec a tag) = [].
Proof. unfold get_vec, as_vec. silent. apply getattr_silent. Qed.

Lemma get_int_silent (a : struct) tag : events (get_int a tag) = [].
Proof. unfold get_int, as_int. silent. apply getattr_silent. Qed.

Lemma np_min_silent l : events (np_min l) = [].
Proof. unfold np_min. silent. Qed.

Lemma np_max_silent l : events (np_max l) = [].
Proof. unfold np_max. silent. Qed.

Lemma np_log10_silent N l : events (np_log10 N l) = [].
Proof. unfold np_log10. silent. Qed.

Lemma zip_with_same_silent {A B C} (f : A -> B -> C) l k :
  events (zip_with_same f l k) = [].
Proof.
  revert k. induction l as [|a l IH]; intros [|b k]; simpl; try reflexivity.
  silent. apply IH.
Qed.

Lemma broadcast2_silent {A B C} (f : A -> B -> C) l k :
  events (broadcast2 f l k) = [].
Proof.
  unfold broadcast2.
  destruct l as [|a [|a' l]]; destruct k as [|b [|b' k]];
    try reflexivity; apply zip_with_same_silent.
Qed.

Lemma mask_assign_silent v mask src : events (mask_assign v mask src) = [].
Proof.
  revert mask src. induction v as [|a v IH]; intros [|m mask] [|s src];
    simpl; try reflexivity.
  silent. apply IH.
Qed.

Lemma interp_at_silent s v : events (interp_at s v) = [].
Proof. unfold interp_at. silent. Qed.

Lemma interp1d_silent x y x_new : events (interp1d x y x_new) = [].
Proof. unfold interp1d. silent. apply interp_at_silent. Qed.

Lemma interp_atmo_func_silent x1 par fa : events (interp_atmo_func x1 par fa) = [].
Proof.
  unfold interp_atmo_func. silent;
    auto using getitem_silent, interp1d_silent, np_min_silent, np_max_silent.
Qed.

Lemma trim_top_silent min_d v itop : events (trim_top min_d v itop) = [].
Proof.
  funelim (trim_top min_d v itop); try reflexivity.
  destruct (small_step min_d a b); [assumption | reflexivity].
Qed.

Lemma log_vector_silent N a vtag itop ibot : events (log_vector N a vtag itop ibot) = [].
Proof. unfold log_vector. silent; auto using get_vec_silent, np_log10_silent. Qed.

Lemma depth_scale_silent N a interpvar itop : events (depth_scale N a interpvar itop) = [].
Proof.
  unfold depth_scale.
  silent; auto using get_vec_silent, trim_top_silent, get_int_silent, np_log10_silent.
Qed.

Lemma select_interpvar_silent a1 a2 iv : events (select_interpvar a1 a2 iv) = [].
Proof. unfold select_interpvar. silent. Qed.

Lemma midpoint_silent t n : events (midpoint t n) = [].
Proof. unfold midpoint, np_argmin. silent; auto using getitem_silent. Qed.

Lemma np_full_silent n x : events (np_full n x) = [].
Proof. unfold np_full. silent. Qed.

Lemma take_indices_silent {A} (l : list A) idx : events (take_indices l idx) = [].
Proof. unfold take_indices. silent. apply getitem_silent. Qed.

Lemma store_row_silent pars i popt : events (store_row pars i popt) = [].
Proof. unfold store_row. silent. Qed.

Lemma restrict_after_temp_silent d1 d2 ngd s : events (restrict_after_temp d1 d2 ngd s) = [].
Proof. unfold restrict_after_temp, py_min, py_max. silent. Qed.

Lemma output_depth_silent frac xsh n1 n2 d1 d2 : events (output_depth frac xsh n1 n2 d1 d2) = [].
Proof. unfold output_depth. silent. apply broadcast2_silent. Qed.

Lemma np_median_silent l : events (np_median l) = [].
Proof. unfold np_median. silent. Qed.

Lemma blend_vtag_silent N a1 a2 frac i1 b1 n1 i2 b2 n2 d1 d2 d vtags pars ivtag :
  events (blend_vtag N a1 a2 frac i1 b1 n1 i2 b2 n2 d1 d2 d vtags pars ivtag) = [].
Proof.
  unfold blend_vtag, blend.
  silent; auto using getitem_silent, log_vector_silent, np_min_silent, np_max_silent,
    interp_atmo_func_silent, broadcast2_silent, np_median_silent, mask_assign_silent.
Qed.

Lemma blend_value_silent frac v1 v2 : events (blend_value frac v1 v2) = [].
Proof. unfold blend_value, blend, as_num. silent; apply broadcast2_silent. Qed.

Lemma output_field_silent N frac a1 a2 vtags vects ndep ndep_orig tag :
  events (output_field N frac a1 a2 vtags vects ndep ndep_orig tag) = [].
Proof.
  unfold output_field, trim_value.
  silent; auto using getfield_silent, getitem_silent, blend_value_silent.
Qed.

Lemma construct_output_silent N frac a1 a2 vtags vects ndep :
  events (construct_output N frac a1 a2 vtags vects ndep) = [].
Proof.
  unfold construct_output. silent; auto using get_vec_silent, output_field_silent.
Qed.

Create HintDb silent.
#[local] Hint Resolve getitem_silent getattr_silent getfield_silent get_vec_silent
  get_int_silent get_num_silent np_min_silent np_max_silent np_log10_silent
  broadcast2_silent mask_assign_silent interp1d_silent interp_atmo_func_silent
  trim_top_silent log_vector_silent depth_scale_silent select_interpvar_silent
  midpoint_silent np_full_silent take_indices_silent store_row_silent
  restrict_after_temp_silent output_depth_silent np_median_silent
  blend_vtag_silent blend_value_silent output_field_silent
  construct_output_silent : silent.

(** Take the next step of a computation that returned: [H] states that a
    bind returned; the step's own events are shown empty when the step is
    silent. *)
Ltac next H :=
  let t1 := fresh "t" in
  let t2 := fresh "t" in
  let Hm := fresh "Hstep" in
  apply bind_ok in H as (t1 & ? & t2 & Hm & H & ->);
  try (assert (t1 = []) as -> by (eapply silent_ok; [|exact Hm]; silent; auto with silent);
       rewrite ?app_nil_l).

(** ** The fits of a pairwise blend *)

Lemma interp_atmo_constrained_events N x y e p c fa pinfo :
  events (interp_atmo_constrained N x y e p c fa pinfo) = [Call_curve_fit].
Proof.
  unfold interp_atmo_constrained.
  destruct (constrained_points x y e c) as [n [[x' y'] e']].
  rewrite bind_emit. unfold events at 1. cbn [fst]. f_equal.
  silent; auto with silent.
Qed.

Lemma fit_vtag_events N a1 a2 i1 b1 i2 b2 ngd d1 d2 err1 vtags ivtag st t st' :
  fit_vtag N a1 a2 i1 b1 i2 b2 ngd d1 d2 err1 vtags ivtag st = (t, inr st') ->
  t = [Call_curve_fit].
Proof.
  unfold fit_vtag. intros H.
  next H.
  destruct (negb (has_tag a1 _)); [discriminate|].
  destruct (negb (has_tag a2 _)); [discriminate|].
  do 5 next H.
  apply bind_ok in H as (t1 & r & t2 & Hc & H & ->).
  assert (t1 = [Call_curve_fit]) as ->.
  { match type of Hc with
    | ?m = _ => assert (E : events m = [Call_curve_fit])
                  by apply interp_atmo_constrained_events;
                rewrite Hc in E; exact E
    end. }
  next H.
  destruct (ivtag =? 0).
  - do 3 next H. injection H as <- _. reflexivity.
  - injection H as <- _. reflexivity.
Qed.

Lemma for_range_events {S} (body : Z -> S -> M S) (e : event) n :
  (forall i s t s', body i s = (t, inr s') -> t = [e]) ->
  forall i s t s', for_range n i body s = (t, inr s') -> t = replicate n e.
Proof.
  intros Hb. induction n as [|n IH]; intros i s t s' H; simpl in H.
  - injection H as <- _. reflexivity.
  - apply bind_ok in H as (t1 & s1 & t2 & H1 & H2 & ->).
    apply Hb in H1 as ->. apply IH in H2 as ->. reflexivity.
Qed.

Lemma vtags_of_length a1 a2 interpvar : (5 <= length (vtags_of a1 a2 interpvar))%nat.
Proof. unfold vtags_of. rewrite !length_app. simpl. lia. Qed.

(** Whatever the fraction, a pairwise blend that returns has called the
    fitter once for each vector it shifts. *)
Lemma interp_atmo_pair_fits N a1 a2 frac iv itop t out :
  interp_atmo_pair N a1 a2 frac iv itop = (t, inr out) ->
  exists interpvar,
    select_interpvar a1 a2 iv = ret interpvar
    /\ t = replicate (length (vtags_of a1 a2 interpvar)) Call_curve_fit.
Proof.
  unfold interp_atmo_pair. intros H.
  do 6 next H.
  apply bind_ok in H as (t1 & interpvar & t2 & Hsel & H & ->).
  assert (t1 = []) as -> by (eapply silent_ok; [apply select_interpvar_silent | exact Hsel]).
  exists interpvar. split; [exact Hsel|]. rewrite app_nil_l.
  next H.
  match goal with x : (Z * Z * Z * list Q)%type |- _ =>
    destruct x as [[[itop1 ibot1] ndep1] depth1] end.
  next H.
  match goal with x : (Z * Z * Z * list Q)%type |- _ =>
    destruct x as [[[itop2 ibot2] ndep2] depth2] end.
  do 9 next H.
  apply bind_ok in H as (t1 & st & t2 & Hloop & H & ->).
  eapply for_range_events in Hloop; [|intros; eapply fit_vtag_events; eauto].
  subst t1.
  do 4 next H.
  apply bind_ok in H as (t3 & vects & t4 & Hv & H & ->).
  assert (t3 = []) as ->.
  { eapply silent_ok; [|exact Hv]. apply mapM_silent. intros. auto with silent. }
  assert (t4 = []) as -> by (eapply silent_ok; [apply construct_output_silent | exact H]).
  rewrite app_nil_r. reflexivity.
Qed.

(** ** A target on a grid node *)

Lemma insert_sorted_In_iff x y l : In y (insert_sorted x l) <-> y = x \/ In y l.
Proof.
  split; [apply insert_sorted_In|].
  induction l as [|a l IH]; simpl.
  - intros [->|[]]. auto.
  - destruct (Qleb x a); simpl.
    + intros [->|[->|H]]; auto.
    + intros [->|[->|H]]; auto.
Qed.

Lemma np_sort_In_iff y l : In y (np_sort l) <-> In y l.
Proof.
  split; [apply np_sort_In|].
  induction l as [|a l IH]; simpl; [auto|].
  intros [->|H]; apply insert_sorted_In_iff; auto.
Qed.

Lemma drop_repeats_covers y l :
  In y l -> exists y', In y' (drop_repeats l) /\ (y' == y)%Q.
Proof.
  revert y. induction l as [|a l IH]; intros y; [intros []|].
  intros Hy. simpl. destruct l as [|b l'].
  - destruct Hy as [->|[]]. exists y. split; [left; reflexivity | reflexivity].
  - destruct (Qeqb a b) eqn:E.
    + destruct Hy as [->|Hy]; [|apply IH; exact Hy].
      destruct (IH b ltac:(left; reflexivity)) as (y' & Hin & Heq).
      exists y'. split; [exact Hin|]. apply Qeq_bool_iff in E.
      rewrite Heq. symmetry. exact E.
    + destruct Hy as [->|Hy].
      * exists y. split; [left; reflexivity | reflexivity].
      * destruct (IH y Hy) as (y' & Hin & Heq). exists y'. split; [right|]; assumption.
Qed.

Lemma np_unique_covers y l :
  In y l -> exists y', In y' (np_unique l) /\ (y' == y)%Q.
Proof. intros H. apply drop_repeats_covers, np_sort_In_iff. exact H. Qed.

(** A requested metallicity that is a grid value is bracketed by that
    value on both sides, without a warning. *)
Lemma metallicity_bracket_at_node (monh : list Q) (MonH m : Q) :
  In m monh -> (m == MonH)%Q ->
  exists lo up,
    metallicity_bracket (np_unique monh) MonH = ret (lo, up)
    /\ (lo == MonH)%Q /\ (up == MonH)%Q.
Proof.
  intros Hin Heq.
  destruct (np_unique_covers m monh Hin) as (m' & Hin' & Heq').
  set (l := np_unique monh) in *.
  assert (Em : (m' == MonH)%Q) by (rewrite Heq'; exact Heq).
  destruct (np_min_nonempty l m' Hin') as [Mmin Hmin].
  destruct (np_max_nonempty l m' Hin') as [Mmax Hmax].
  destruct (np_min_ok _ _ _ Hmin) as (_ & _ & Hminle).
  destruct (np_max_ok _ _ _ Hmax) as (_ & _ & Hmaxle).
  pose proof (Hminle m' Hin') as H1. pose proof (Hmaxle m' Hin') as H2.
  unfold metallicity_bracket.
  rewrite Hmin, bind_ret_l, Hmax, bind_ret_l.
  assert (E1 : Qltb Mmax MonH = false) by (apply Qltb_ge; lra).
  assert (E2 : Qltb MonH Mmin = false) by (apply Qltb_ge; lra).
  assert (E3 : Qleb MonH Mmax = true) by (apply Qleb_le; lra).
  rewrite E1, E2, E3, !when_false, !bind_ret_l.
  assert (Hf1 : In m' (List.filter (fun x => Qleb x MonH) l))
    by (apply filter_In; split; [exact Hin' | apply Qleb_le; lra]).
  assert (Hf2 : In m' (List.filter (fun x => Qleb MonH x) l))
    by (apply filter_In; split; [exact Hin' | apply Qleb_le; lra]).
  destruct (np_max_nonempty _ _ Hf1) as [lo Hlo].
  destruct (np_min_nonempty _ _ Hf2) as [up Hup].
  destruct (np_max_ok _ _ _ Hlo) as (_ & Hlo_in & Hlo_le).
  destruct (np_min_ok _ _ _ Hup) as (_ & Hup_in & Hup_le).
  apply filter_In in Hlo_in as [_ Hlo_b]. apply Qleb_le in Hlo_b.
  apply filter_In in Hup_in as [_ Hup_b]. apply Qleb_le in Hup_b.
  pose proof (Hlo_le m' Hf1). pose proof (Hup_le m' Hf2).
  exists lo, up. rewrite Hlo, bind_ret_l, Hup, bind_ret_l.
  split; [reflexivity|]. split; lra.
Qed.

Lemma pair_fraction_same (x x0 x1 : Q) : (x0 == x1)%Q -> pair_fraction x x0 x1 = 0%Q.
Proof.
  intros H. unfold pair_fraction, Qeqb.
  rewrite (proj2 (Qeq_bool_iff x0 x1) H). reflexivity.
Qed.

Lemma column_lookup grid tag : forall t col j m,
  column grid tag = (t, inr col) -> col !! j = Some m ->
  exists a, grid !! j = Some a /\ get_num a tag = ret m.
Proof.
  unfold column. induction grid as [|a grid IH]; intros t col j m H Hj; simpl in H.
  - injection H as _ <-. destruct j; discriminate.
  - apply bind_ok in H as (t1 & b & t2 & Ha & H & _).
    apply bind_ok in H as (t3 & bs & t4 & Hbs & H & _).
    injection H as _ <-. destruct j as [|j]; simpl in Hj.
    + injection Hj as ->. exists a. split; [reflexivity|].
      assert (t1 = []) as -> by (eapply silent_ok; [apply get_num_silent | exact Ha]).
      exact Ha.
    + eapply IH; eauto.
Qed.

Lemma where_from_spec {A} (p : A -> bool) (l : list A) : forall k i,
  In i (where_from p k l) ->
  exists j e, i = k + Z.of_nat j /\ l !! j = Some e /\ p e = true.
Proof.
  induction l as [|a l IH]; intros k i; simpl; [intros []|].
  destruct (p a) eqn:Ha.
  - intros [<-|H].
    + exists O, a. split; [lia|]. auto.
    + destruct (IH _ _ H) as (j & e & -> & Hj & He).
      exists (S j), e. split; [lia|]. auto.
  - intros H. destruct (IH _ _ H) as (j & e & -> & Hj & He).
    exists (S j), e. split; [lia|]. auto.
Qed.

Lemma getitem_0_inv {A} (l : list A) t a :
  getitem l 0 = (t, inr a) -> exists r, l = a :: r.
Proof.
  destruct l as [|b r]; [discriminate|].
  rewrite getitem_head. intros [= _ <-]. eauto.
Qed.

Lemma column_silent grid tag : events (column grid tag) = [].
Proof. unfold column. apply mapM_silent. intros. apply get_num_silent. Qed.

(** The entry a corner lookup returns has the metallicity of the key. *)
Lemma find_corner_entry grid key t i :
  find_corner grid key = (t, inr i) ->
  exists a m, getitem grid i = ret a /\ get_num a "MONH" = ret m
              /\ (m == snd key)%Q.
Proof.
  unfold find_corner. intros H.
  apply bind_ok in H as (? & teff & ? & Ht & H & _).
  apply bind_ok in H as (? & logg & ? & Hg & H & _).
  apply bind_ok in H as (? & monh & ? & Hm & H & _).
  apply bind_ok in H as (? & ? & ? & _ & H & _).
  apply getitem_0_inv in H as [rest Hw].
  assert (Hi : In i (np_where (key_match key) (zip (zip teff logg) monh)))
    by (rewrite Hw; left; reflexivity).
  apply where_from_spec in Hi as (j & e & -> & Hj & He).
  rewrite lookup_zip_with in Hj.
  destruct (zip teff logg !! j) as [tg|] eqn:Htg; [|discriminate].
  destruct (monh !! j) as [m|] eqn:Hmj; [|discriminate].
  simpl in Hj. injection Hj as <-.
  destruct (column_lookup _ _ _ _ _ _ Hm Hmj) as (a & Ha & Hnum).
  exists a, m. split; [|split; [exact Hnum|]].
  - rewrite Z.add_0_l, getitem_nat, Ha. reflexivity.
  - unfold key_match in He. simpl in He.
    apply andb_true_iff in He as [_ He]. apply Qeq_bool_iff in He. exact He.
Qed.

Lemma fit_calls_replicate {A} n (r : exn + A) :
  fit_calls (replicate n Call_curve_fit, r) = n.
Proof.
  unfold fit_calls, events. cbn [fst]. induction n as [|n IH]; [reflexivity|].
  cbn [replicate]. rewrite filter_cons. cbn [length is_fit].
  destruct (decide (Is_true true)) as [_|Hn]; [|exfalso; apply Hn; exact I].
  cbn [length]. f_equal. exact IH.
Qed.

(** Two corners with the same metallicity: the blend has fraction 0, and
    it is a full pairwise blend, with its fits. *)
Lemma blend_corners_same_metallicity N grid MonH interpvar itop k0 k1 t0 i0 t1 i1 :
  find_corner grid k0 = (t0, inr i0) ->
  find_corner grid k1 = (t1, inr i1) ->
  (snd k0 == snd k1)%Q ->
  exists a0 a1,
    getitem grid i0 = ret a0 /\ getitem grid i1 = ret a1
    /\ blend_corners N grid MonH interpvar itop i0 i1
       = interp_atmo_pair N a0 a1 0 (Some interpvar) itop
    /\ forall tr out,
         interp_atmo_pair N a0 a1 0 (Some interpvar) itop = (tr, inr out) ->
         (5 <= fit_calls (interp_atmo_pair N a0 a1 0 (Some interpvar) itop))%nat.
Proof.
  intros H0 H1 Hk.
  apply find_corner_entry in H0 as (a0 & m0 & Ha0 & Hm0 & E0).
  apply find_corner_entry in H1 as (a1 & m1 & Ha1 & Hm1 & E1).
  exists a0, a1. split; [exact Ha0|]. split; [exact Ha1|]. split.
  - unfold blend_corners.
    rewrite Ha0, bind_ret_l, Hm0, bind_ret_l, Ha1, bind_ret_l, Hm1, bind_ret_l.
    rewrite pair_fraction_same; [reflexivity|].
    rewrite E0, E1. exact Hk.
  - intros tr out Hrun. rewrite Hrun.
    apply interp_atmo_pair_fits in Hrun as (iv & _ & ->).
    rewrite fit_calls_replicate. apply vtags_of_length.
Qed.

Lemma find_brackets_metallicity grid Teff logg MonH trace t b :
  find_brackets grid Teff logg MonH trace = (t, inr b) ->
  exists monh t', column grid "MONH" = ret monh
    /\ metallicity_bracket (np_unique monh) MonH = (t', inr (Mb b)).
Proof.
  unfold find_brackets. intros H.
  apply bind_ok in H as (? & monh & ? & Hm & H & _).
  apply bind_ok in H as (? & mb & ? & Hb & H & _).
  apply bind_ok in H as (? & ? & ? & _ & H & _).
  apply bind_ok in H as (? & g0 & ? & _ & H & _).
  apply bind_ok in H as (? & g1 & ? & _ & H & _).
  apply bind_ok in H as (? & t00 & ? & _ & H & _).
  apply bind_ok in H as (? & t10 & ? & _ & H & _).
  apply bind_ok in H as (? & t01 & ? & _ & H & _).
  apply bind_ok in H as (? & t11 & ? & _ & H & _).
  injection H as _ <-. simpl. apply column_ok in Hm. eauto.
Qed.

(** C6 (as amended). When the requested metallicity is a metallicity of the
    grid, the two bracket values coincide and each of the four metallicity
    pairs is blended with fraction 0. The blend is the full pairwise blend
    all the same: whenever it returns, it has called the fitter once per
    shifted vector, five times or more. *)
Theorem metallicity_blend_on_node
    (N : numerics) (grid : list struct) (Teff logg MonH : Q) (trace : Z)
    (interpvar : string) (itop : Z) t (b : brackets) t' (c : corners)
    (monh : list Q) (m : Q) :
  column grid "MONH" = ret monh -> In m monh -> (m == MonH)%Q ->
  find_brackets grid Teff logg MonH trace = (t, inr b) ->
  find_corners grid b = (t', inr c) ->
  (fst (Mb b) == MonH)%Q /\ (snd (Mb b) == MonH)%Q
  /\ Forall (fun p : Z * Z =>
       exists a0 a1,
         getitem grid (fst p) = ret a0 /\ getitem grid (snd p) = ret a1
         /\ blend_corners N grid MonH interpvar itop (fst p) (snd p)
            = interp_atmo_pair N a0 a1 0 (Some interpvar) itop
         /\ forall tr out,
              interp_atmo_pair N a0 a1 0 (Some interpvar) itop = (tr, inr out) ->
              (5 <= fit_calls (interp_atmo_pair N a0 a1 0 (Some interpvar) itop))%nat)
     [(c000 c, c100 c); (c010 c, c110 c); (c001 c, c101 c); (c011 c, c111 c)].
Proof.
  intros Hcol Hin Heq Hb Hc.
  destruct (find_brackets_metallicity _ _ _ _ _ _ _ Hb) as (monh' & tb & Hcol' & Hmb).
  rewrite Hcol in Hcol'. injection Hcol' as <-.
  destruct (metallicity_bracket_at_node monh MonH m Hin Heq) as (lo & up & Hnode & Hlo & Hup).
  rewrite Hnode in Hmb. injection Hmb as _ Hmb.
  assert (Elo : (fst (Mb b) == MonH)%Q) by (rewrite <- Hmb; exact Hlo).
  assert (Eup : (snd (Mb b) == MonH)%Q) by (rewrite <- Hmb; exact Hup).
  split; [exact Elo|]. split; [exact Eup|].
  unfold find_corners in Hc.
  apply bind_ok in Hc as (? & i000 & ? & H000 & Hc & _).
  apply bind_ok in Hc as (? & i100 & ? & H100 & Hc & _).
  apply bind_ok in Hc as (? & i010 & ? & H010 & Hc & _).
  apply bind_ok in Hc as (? & i110 & ? & H110 & Hc & _).
  apply bind_ok in Hc as (? & i001 & ? & H001 & Hc & _).
  apply bind_ok in Hc as (? & i101 & ? & H101 & Hc & _).
  apply bind_ok in Hc as (? & i011 & ? & H011 & Hc & _).
  apply bind_ok in Hc as (? & i111 & ? & H111 & Hc & _).
  injection Hc as _ <-. simpl.
  assert (Hk : forall iG iT, (snd (corner_key b false iG iT)
                              == snd (corner_key b true iG iT))%Q)
    by (intros; unfold corner_key; simpl; rewrite Elo, Eup; reflexivity).
  repeat constructor; simpl;
    eapply blend_corners_same_metallicity; eauto.
Qed.

(** The node (6000, 4.5, 0.0) of the sample grid. *)
Lemma metallicity_blend_on_node_witness :
  (fst (Mb node_brackets) == 0)%Q /\ (snd (Mb node_brackets) == 0)%Q
  /\ Forall (fun p : Z * Z =>
       exists a0 a1,
         getitem sample_grid (fst p) = ret a0 /\ getitem sample_grid (snd p) = ret a1
         /\ blend_corners decade_numerics sample_grid 0 "TAU" 1 (fst p) (snd p)
            = interp_atmo_pair decade_numerics a0 a1 0 (Some "TAU") 1
         /\ forall tr out,
              interp_atmo_pair decade_numerics a0 a1 0 (Some "TAU") 1 = (tr, inr out) ->
              (5 <= fit_calls (interp_atmo_pair decade_numerics a0 a1 0 (Some "TAU") 1))%nat)
     [(c000 node_corners, c100 node_corners); (c010 node_corners, c110 node_corners);
      (c001 node_corners, c101 node_corners); (c011 node_corners, c111 node_corners)].
Proof.
  apply (metallicity_blend_on_node decade_numerics sample_grid 6000 (9 # 2) 0 0 "TAU" 1
           [] node_brackets [] node_corners [0; 0]%Q 0%Q).
  - reflexivity.
  - left. reflexivity.
  - reflexivity.
  - vm_compute. reflexivity.
  - vm_compute. reflexivity.
Defined.

(** C6, where the claim as stated fails: the target (6000, 4.5, 0.0) is a
    node of the sample grid, its metallicity bracket is (0, 0) and the
    fraction is 0, and still each metallicity blend calls the fitter six
    times (TEMP, XNE, XNA, RHO, TAU, RHOX); the whole interpolation calls it
    42 times. *)
Lemma fitter_runs_on_node :
  column sample_grid "MONH" = ret [0; 0]%Q
  /\ metallicity_bracket (np_unique [0; 0]%Q) 0 = ret (0, 0)%Q
  /\ pair_fraction 0 0 0 = 0%Q
  /\ fit_calls (blend_corners decade_numerics sample_grid 0 "TAU" 1 1 1) = 6%nat
  /\ field_of (blend_corners decade_numerics sample_grid 0 "TAU" 1 1 1) "NDEP"
     = Some (VInt 6)
  /\ fit_calls (interp_atmo_grid decade_numerics sample_grid 6000 (9 # 2) 0
                  sample_atmo_in 0) = 42%nat.
Proof. repeat split; vm_compute; reflexivity. Qed.

(** ** The free parameters of the fit *)

Lemma clip_nat_1_1 i : clip_nat i 1 1 = 1%nat.
Proof. unfold clip_nat. lia. Qed.

Lemma interp_at_two_points x0 y0 x1 y1 v :
  Qeqb x1 x0 = false ->
  interp_at [(x0, y0); (x1, y1)] v
  = ret ((y1 - y0) / (x1 - x0) * (v - x0) + y0)%Q.
Proof.
  intros H. unfold interp_at. cbn [length Nat.sub].
  rewrite clip_nat_1_1. cbn [Nat.sub lookup list_lookup]. rewrite H. reflexivity.
Qed.

Lemma shifted_line_eq a b v : (shifted_line a b v == v - a + b)%Q.
Proof. unfold shifted_line. field. lra. Qed.

(** The function of the stretched problem at the parameters [(a, b, s, d)]:
    the shifted line, scaled about some centre, clipped to the data range;
    the appended point stays 0. *)
Lemma stretched_function (a b s d : Q) :
  exists cen,
    interp_atmo_func [0; 1; 2; 0]%Q [a; b; s; d]%Q stretched_functargs
    = ret (np_clip ((fun y => cen + (1 + s) * (y - cen))%Q
                      <$> [shifted_line a b 0; shifted_line a b 1; shifted_line a b 2])
                   0 4 ++ [0%Q]).
Proof.
  exists ((1 # 2) * (fold_left Qmin2 [shifted_line a b 1; shifted_line a b 2]
                       (shifted_line a b 0)
                     + fold_left Qmax2 [shifted_line a b 1; shifted_line a b 2]
                         (shifted_line a b 0)))%Q.
  unfold interp_atmo_func, stretched_functargs.
  cbn [fa_x2 fa_y2 fa_y1 fa_ndep default from_option id].
  change (getitem [a; b; s; d] 0) with (ret a).
  change (getitem [a; b; s; d] 1) with (ret b).
  change (getitem [a; b; s; d] 2) with (ret s).
  rewrite !bind_ret_l.
  change (slice [0; 1; 2; 0]%Q 0 3) with [0; 1; 2]%Q.
  unfold interp1d. cbn [length fmap list_fmap Nat.eqb negb Nat.ltb Nat.leb].
  cbn [zip_with sort_pairs foldr insert_pair fst].
  assert (E1 : Qleb (0 + a) (1 + a) = true) by (apply Qleb_le; lra).
  assert (E2 : Qeqb (1 + a) (0 + a) = false).
  { unfold Qeqb. destruct (Qeq_bool (1 + a) (0 + a)) eqn:E; [|reflexivity].
    apply Qeq_bool_iff in E. lra. }
  rewrite E1. cbn [mapM].
  rewrite !interp_at_two_points by exact E2.
  rewrite !bind_ret_l.
  fold (shifted_line a b 0). fold (shifted_line a b 1). fold (shifted_line a b 2).
  set (h0 := shifted_line a b 0). set (h1 := shifted_line a b 1).
  set (h2 := shifted_line a b 2).
  change (set_prefix [0; 0; 0; 0]%Q [h0; h1; h2]) with [h0; h1; h2; 0%Q].
  change (slice [h0; h1; h2; 0%Q] 0 3) with [h0; h1; h2].
  unfold np_min, np_max. rewrite !bind_ret_l. reflexivity.
Qed.

Lemma clipped_two v : (Qmin2 (Qmax2 v 0) 4 == 2)%Q -> (v == 2)%Q.
Proof.
  unfold Qmin2, Qmax2.
  destruct (Qleb v 0) eqn:E1; [apply Qleb_le in E1 | apply Qleb_gt in E1];
    match goal with |- context [Qleb ?x 4] =>
      destruct (Qleb x 4) eqn:E2; [apply Qleb_le in E2 | apply Qleb_gt in E2]
    end; lra.
Qed.

Lemma clipped_zero v : (Qmin2 (Qmax2 v 0) 4 == 0)%Q -> (v <= 0)%Q.
Proof.
  unfold Qmin2, Qmax2.
  destruct (Qleb v 0) eqn:E1; [apply Qleb_le in E1 | apply Qleb_gt in E1];
    match goal with |- context [Qleb ?x 4] =>
      destruct (Qleb x 4) eqn:E2; [apply Qleb_le in E2 | apply Qleb_gt in E2]
    end; lra.
Qed.

(** With the scale parameter at its initial value 0, no shift reproduces
    the stretched data. *)
Lemma stretched_needs_scale (a b d : Q) t out :
  interp_atmo_func [0; 1; 2; 0]%Q [a; b; 0; d]%Q stretched_functargs = (t, inr out) ->
  same_values out [0; 2; 4; 0]%Q = false.
Proof.
  destruct (stretched_function a b 0 d) as [cen ->]. intros [= _ <-].
  unfold same_values, np_clip.
  cbn [length fmap list_fmap app Nat.eqb andb zip_with forallb fst snd].
  destruct (Qeqb _ 0) eqn:E0; [|reflexivity].
  destruct (Qeqb _ 2) eqn:E1; [|reflexivity].
  exfalso. apply Qeq_bool_iff in E0, E1.
  apply clipped_zero in E0. apply clipped_two in E1.
  pose proof (shifted_line_eq a b 0). pose proof (shifted_line_eq a b 1).
  lra.
Qed.

(** C3. The record [parinfo] flags the parameter of index 2 as fixed, and
    the fit never reads it: [interp_atmo_constrained] gives scipy's
    [curve_fit] the four parameters to vary. On the stretched problem no
    parameter vector with the scale at its initial value 0 reproduces the
    data, the vector (0, 1, 1, 0) does, and a fitter that finds it returns
    it through the routine, flags or no flags: the fitted parameter of
    index 2 is 1, not its initial value. *)
Theorem fixed_parameter_is_free :
  parinfo0 = [0; 0; 1; 0]
  /\ (forall N x y e p c fa pinfo pinfo',
        interp_atmo_constrained N x y e p c fa pinfo
        = interp_atmo_constrained N x y e p c fa pinfo')
  /\ (forall a b d t out,
        interp_atmo_func [0; 1; 2; 0]%Q [a; b; 0; d]%Q stretched_functargs
          = (t, inr out) ->
        same_values out [0; 2; 4; 0]%Q = false)
  /\ (exists out,
        interp_atmo_func [0; 1; 2; 0]%Q [0; 1; 1; 0]%Q stretched_functargs = ret out
        /\ same_values out [0; 2; 4; 0]%Q = true)
  /\ (exists yfit,
        interp_atmo_constrained (search_numerics [[0; 1; 1; 0]%Q])
          [0; 1; 2]%Q [0; 2; 4]%Q (replicate 3 (5 # 100)) [0; 0; 0; 0]%Q
          (Some constraints0) stretched_functargs parinfo0
        = ([Call_curve_fit], inr ([0; 1; 1; 0]%Q, yfit))).
Proof.
  split; [reflexivity|].
  split; [reflexivity|].
  split; [apply stretched_needs_scale|].
  split.
  - eexists. split; vm_compute; reflexivity.
  - eexists. vm_compute. reflexivity.
Qed.

(** ** Lengths of the interpolated vectors *)

Lemma mapM_lookup {A B} (f : A -> M B) (l : list A) : forall t r i a,
  mapM f l = (t, inr r) -> l !! i = Some a ->
  exists t' b, f a = (t', inr b) /\ r !! i = Some b.
Proof.
  induction l as [|x l IH]; intros t r i a H Hi; [destruct i; discriminate|].
  simpl in H.
  apply bind_ok in H as (t1 & b & t2 & Hb & H & _).
  apply bind_ok in H as (t3 & bs & t4 & Hbs & H & _).
  injection H as _ <-. destruct i as [|i]; simpl in Hi.
  - injection Hi as <-. exists t1, b. split; [exact Hb | reflexivity].
  - destruct (IH _ _ _ _ Hbs Hi) as (t' & b' & Hf & Hr).
    exists t', b'. split; [exact Hf | exact Hr].
Qed.

Lemma slice_length_le {A} (l : list A) lo hi : (length (slice l lo hi) <= length l)%nat.
Proof.
  unfold slice. rewrite length_take, length_drop. lia.
Qed.

Lemma set_prefix_length y h :
  (length h <= length y)%nat -> length (set_prefix y h) = length y.
Proof.
  intros H. unfold set_prefix. rewrite length_app, length_drop. lia.
Qed.

Lemma interp_atmo_func_length x1 par fa t out :
  interp_atmo_func x1 par fa = (t, inr out) -> length out = length x1.
Proof.
  unfold interp_atmo_func. intros H.
  set (ndep := default (Zlen x1) (fa_ndep fa)) in *.
  apply bind_ok in H as (? & p0 & ? & _ & H & _).
  apply bind_ok in H as (? & p1 & ? & _ & H & _).
  apply bind_ok in H as (? & head & ? & Hh & H & _).
  apply interp1d_length in Hh.
  pose proof (slice_length_le x1 0 ndep) as Hle.
  set (y1 := set_prefix ((fun _ : Q => 0%Q) <$> x1) head) in *.
  assert (L1 : length y1 = length x1)
    by (unfold y1; rewrite set_prefix_length; rewrite length_fmap; lia).
  apply bind_ok in H as (? & y1min & ? & _ & H & _).
  apply bind_ok in H as (? & y1max & ? & _ & H & _).
  apply bind_ok in H as (? & p2 & ? & _ & H & _).
  match type of H with context [set_prefix y1 (?f <$> slice y1 0 ndep)] =>
    set (y2 := set_prefix y1 (f <$> slice y1 0 ndep)) in *;
    assert (L2 : length y2 = length x1)
      by (unfold y2; rewrite set_prefix_length;
          [exact L1 | rewrite length_fmap; apply slice_length_le])
  end.
  destruct (fa_y1 fa) as [yy|].
  - apply bind_ok in H as (? & lo & ? & _ & H & _).
    apply bind_ok in H as (? & hi & ? & _ & H & _).
    injection H as _ <-. rewrite set_prefix_length; [exact L2|].
    unfold np_clip. rewrite length_fmap. apply slice_length_le.
  - injection H as _ <-. exact L2.
Qed.

Lemma zip_with_same_length {A B C} (f : A -> B -> C) l : forall k t r,
  zip_with_same f l k = (t, inr r) -> length r = length l.
Proof.
  induction l as [|a l IH]; intros [|b k] t r H; simpl in H; try discriminate.
  - injection H as _ <-. reflexivity.
  - apply bind_ok in H as (? & r' & ? & Hr & H & _).
    injection H as _ <-. simpl. f_equal. eauto.
Qed.

Lemma broadcast2_length {A B C} (f : A -> B -> C) l k t r :
  length l = length k -> broadcast2 f l k = (t, inr r) -> length r = length l.
Proof.
  intros Hlen. unfold broadcast2.
  destruct l as [|a [|a' l]]; destruct k as [|b [|b' k]]; simpl in Hlen;
    try discriminate; apply zip_with_same_length.
Qed.



(** ** The output structure of a pairwise blend *)

Lemma mapM_tagged {A B} (g : A -> M B) (l : list A) : forall t r,
  mapM (fun a => v ← g a; ret (a, v)) l = (t, inr r) -> fst <$> r = l.
Proof.
  induction l as [|a l IH]; intros t r H; simpl in H.
  - injection H as _ <-. reflexivity.
  - apply bind_ok in H as (? & b & ? & Hb & H & _).
    apply bind_ok in H as (? & bs & ? & Hbs & H & _).
    injection H as _ <-.
    apply bind_ok in Hb as (? & v & ? & _ & Hb & _). injection Hb as _ <-.
    simpl. f_equal. eauto.
Qed.

Lemma construct_output_lookup N frac a1 a2 vtags vects ndep t krz tag :
  construct_output N frac a1 a2 vtags vects ndep = (t, inr krz) ->
  has_tag a1 tag = true ->
  exists temp t' v,
    get_vec a1 "TEMP" = ret temp
    /\ output_field N frac a1 a2 vtags vects ndep (Zlen temp) tag = (t', inr v)
    /\ krz !! tag = Some v.
Proof.
  unfold construct_output. intros H Htag.
  apply bind_ok in H as (t1 & temp & ? & Htemp & H & _).
  assert (t1 = []) as -> by (eapply silent_ok; [apply get_vec_silent | exact Htemp]).
  apply bind_ok in H as (? & fields & ? & Hf & H & _).
  injection H as _ <-.
  pose proof (mapM_tagged _ _ _ _ Hf) as Hkeys.
  unfold has_tag in Htag. destruct (a1 !! tag) as [v1|] eqn:Hv1; [|discriminate].
  assert (Hin : tag ∈ (fst <$> map_to_list a1)).
  { apply list_elem_of_fmap. exists (tag, v1). split; [reflexivity|].
    apply elem_of_map_to_list. exact Hv1. }
  apply list_elem_of_lookup in Hin as [i Hi].
  destruct (mapM_lookup _ _ _ _ _ _ Hf Hi) as (t' & b & Hb & Hbi).
  apply bind_ok in Hb as (t'' & v & ? & Hv & Hb & _). injection Hb as _ <-.
  exists temp, t'', v. split; [exact Htemp|]. split; [exact Hv|].
  apply elem_of_list_to_map_1.
  - rewrite Hkeys. apply NoDup_fst_map_to_list.
  - apply list_elem_of_lookup. eauto.
Qed.


Lemma select_interpvar_ok a1 a2 iv t interpvar :
  select_interpvar a1 a2 iv = (t, inr interpvar) ->
  interpvar = "TAU" \/ interpvar = "RHOX".
Proof.
  unfold select_interpvar.
  destruct (negb _ && negb _); [discriminate|].
  match goal with |- (if ?c then _ else _) = _ -> _ => destruct c eqn:E end;
    [discriminate|].
  intros [= _ <-].
  apply andb_false_iff in E. rewrite !negb_false_iff, !String.eqb_eq in E. exact E.
Qed.

Lemma vtags_of_six a1 a2 interpvar tag :
  interpvar = "TAU" \/ interpvar = "RHOX" ->
  In tag (vtags_of a1 a2 interpvar) -> In tag six_tags.
Proof.
  intros [->| ->] H; unfold vtags_of in H; simpl in H;
    repeat match type of H with context [if ?c then _ else _] => destruct c end;
    simpl in H; unfold six_tags; simpl; intuition.
Qed.


Lemma output_field_NDEP N frac a1 a2 vtags vects ndep ndep_orig t v :
  output_field N frac a1 a2 vtags vects ndep ndep_orig "NDEP" = (t, inr v) ->
  v = VInt ndep.
Proof.
  unfold output_field. intros H.
  apply bind_ok in H as (? & v1 & ? & _ & H & _).
  apply bind_ok in H as (? & v0 & ? & _ & H & _).
  apply bind_ok in H as (? & v' & ? & Hv & H & _).
  simpl in H. injection H as _ <-. reflexivity.
Qed.

Lemma depth_scale_has_NDEP N a interpvar itop t r :
  depth_scale N a interpvar itop = (t, inr r) -> has_tag a "NDEP" = true.
Proof.
  unfold depth_scale. intros H.
  apply bind_ok in H as (? & itop1 & ? & _ & H & _).
  apply bind_ok in H as (? & nd & ? & Hnd & H & _).
  unfold get_int, getattr, has_tag in *.
  destruct (a !! "NDEP"); [reflexivity | discriminate].
Qed.



(** ** The structure the grid interpolation returns *)

Lemma copy_fields_lookup ktags krz : forall atmo t out tag,
  copy_fields ktags krz atmo = (t, inr out) ->
  out !! tag =
    if existsb (String.eqb tag) ktags && negb (existsb (String.eqb tag) discard)
    then krz !! tag else atmo !! tag.
Proof.
  induction ktags as [|k r IH]; intros atmo t out tag H; cbn [copy_fields] in H.
  - injection H as _ <-. reflexivity.
  - cbn [existsb]. destruct (String.eqb tag k) eqn:E.
    + apply String.eqb_eq in E. subst k. cbn [orb].
      destruct (existsb (String.eqb tag) discard) eqn:D.
      * rewrite (IH _ _ _ tag H), D, andb_false_r. reflexivity.
      * apply bind_ok in H as (? & v & ? & Hv & H & _).
        unfold getfield in Hv. destruct (krz !! tag) as [v'|] eqn:Hk; [|discriminate].
        injection Hv as _ ->.
        rewrite (IH _ _ _ tag H), D. cbn [negb andb].
        rewrite andb_true_r.
        destruct (existsb (String.eqb tag) r); [exact Hk|].
        rewrite lookup_insert_eq. reflexivity.
    + cbn [orb]. destruct (existsb (String.eqb k) discard).
      * apply (IH _ _ _ tag H).
      * apply bind_ok in H as (? & v & ? & Hv & H & _).
        rewrite (IH _ _ _ tag H).
        rewrite lookup_insert_ne; [reflexivity|].
        intros ->. rewrite String.eqb_refl in E. discriminate.
Qed.







(** * Further properties of the routines *)

(** ** Brackets of a target inside the grid *)

Lemma nearest_below (xs : list Q) (x lo : Q) :
  In lo xs -> (lo <= x)%Q ->
  exists a, np_max (List.filter (fun m => Qleb m x) xs) = ret a
            /\ In a xs /\ (a <= x)%Q
            /\ forall y, In y xs -> (y <= x)%Q -> (y <= a)%Q.
Proof.
  intros Hin Hle.
  assert (Hf : In lo (List.filter (fun m => Qleb m x) xs))
    by (apply filter_In; split; [exact Hin | apply Qleb_le; exact Hle]).
  destruct (np_max_nonempty _ _ Hf) as [a Ha].
  destruct (np_max_ok _ _ _ Ha) as (_ & HaIn & Hale).
  apply filter_In in HaIn as [HaIn Hax]. apply Qleb_le in Hax.
  exists a. repeat split; auto.
  intros y Hy Hyx. apply Hale. apply filter_In. split; [exact Hy|].
  apply Qleb_le. exact Hyx.
Qed.

Lemma nearest_above (xs : list Q) (x hi : Q) :
  In hi xs -> (x <= hi)%Q ->
  exists b, np_min (List.filter (fun m => Qleb x m) xs) = ret b
            /\ In b xs /\ (x <= b)%Q
            /\ forall y, In y xs -> (x <= y)%Q -> (b <= y)%Q.
Proof.
  intros Hin Hle.
  assert (Hf : In hi (List.filter (fun m => Qleb x m) xs))
    by (apply filter_In; split; [exact Hin | apply Qleb_le; exact Hle]).
  destruct (np_min_nonempty _ _ Hf) as [b Hb].
  destruct (np_min_ok _ _ _ Hb) as (_ & HbIn & Hble).
  apply filter_In in HbIn as [HbIn Hbx]. apply Qleb_le in Hbx.
  exists b. repeat split; auto.
  intros y Hy Hyx. apply Hble. apply filter_In. split; [exact Hy|].
  apply Qleb_le. exact Hyx.
Qed.

Lemma bracket_in_range_aux (xs : list Q) (x lo hi : Q) :
  np_min xs = ret lo -> np_max xs = ret hi -> (lo <= x)%Q -> (x <= hi)%Q ->
  exists a b,
    In a xs /\ In b xs /\ (a <= x)%Q /\ (x <= b)%Q
    /\ (forall y, In y xs -> (y <= x)%Q -> (y <= a)%Q)
    /\ (forall y, In y xs -> (x <= y)%Q -> (b <= y)%Q)
    /\ metallicity_bracket xs x = ret (a, b)
    /\ gravity_bracket xs x = ret (a, b)
    /\ ((lo < x)%Q -> temperature_bracket xs x = ret (a, b)).
Proof.
  intros Hmin Hmax Hlo Hhi.
  destruct (np_min_ok _ _ _ Hmin) as (_ & HloIn & _).
  destruct (np_max_ok _ _ _ Hmax) as (_ & HhiIn & _).
  destruct (nearest_below xs x lo HloIn Hlo) as (a & Ha & HaIn & Hax & Hamax).
  destruct (nearest_above xs x hi HhiIn Hhi) as (b & Hb & HbIn & Hbx & Hbmin).
  exists a, b. repeat (split; [assumption|]).
  assert (E1 : Qltb hi x = false) by (apply Qltb_ge; exact Hhi).
  assert (E2 : Qltb x lo = false) by (apply Qltb_ge; exact Hlo).
  assert (E3 : Qleb x hi = true) by (apply Qleb_le; exact Hhi).
  split; [|split].
  - unfold metallicity_bracket.
    rewrite Hmin, bind_ret_l, Hmax, bind_ret_l, E1, E2, !when_false, !bind_ret_l, E3.
    rewrite Ha, bind_ret_l, Hb, bind_ret_l. reflexivity.
  - unfold gravity_bracket.
    rewrite Hmin, bind_ret_l, Hmax, bind_ret_l, E1, E2, !when_false, !bind_ret_l, E3.
    rewrite Ha, bind_ret_l, Hb, bind_ret_l. reflexivity.
  - intros Hlt. apply Qltb_lt in Hlt. unfold temperature_bracket.
    rewrite Hmin, bind_ret_l, Hmax, bind_ret_l, E1, E2, !when_false, !bind_ret_l, Hlt.
    rewrite Ha, bind_ret_l, Hb, bind_ret_l. reflexivity.
Qed.

(** X1. A target between the smallest and the largest value of a list is
    bracketed, without any message, by its nearest neighbours in the list:
    the largest value not above it and the smallest value not below it. The
    three bracket searches agree there, the temperature search for a target
    above the smallest value. *)
Theorem bracket_in_range (xs : list Q) (x lo hi : Q) :
  np_min xs = ret lo -> np_max xs = ret hi -> (lo <= x)%Q -> (x <= hi)%Q ->
  exists a b,
    In a xs /\ In b xs /\ (a <= x)%Q /\ (x <= b)%Q
    /\ (forall y, In y xs -> (y <= x)%Q -> (y <= a)%Q)
    /\ (forall y, In y xs -> (x <= y)%Q -> (b <= y)%Q)
    /\ metallicity_bracket xs x = ret (a, b)
    /\ gravity_bracket xs x = ret (a, b)
    /\ ((lo < x)%Q -> temperature_bracket xs x = ret (a, b)).
Proof. apply bracket_in_range_aux. Qed.

(** The target 5500 between the grid values 5000 and 6000, with a third
    value further away. *)
Lemma bracket_in_range_witness :
  exists a b,
    In a [5000; 6000; 7000]%Q /\ In b [5000; 6000; 7000]%Q
    /\ (a <= 5500)%Q /\ (5500 <= b)%Q
    /\ (forall y, In y [5000; 6000; 7000]%Q -> (y <= 5500)%Q -> (y <= a)%Q)
    /\ (forall y, In y [5000; 6000; 7000]%Q -> (5500 <= y)%Q -> (b <= y)%Q)
    /\ metallicity_bracket [5000; 6000; 7000]%Q 5500 = ret (a, b)
    /\ gravity_bracket [5000; 6000; 7000]%Q 5500 = ret (a, b)
    /\ ((5000 < 5500)%Q -> temperature_bracket [5000; 6000; 7000]%Q 5500 = ret (a, b)).
Proof.
  apply (bracket_in_range [5000; 6000; 7000]%Q 5500 5000 7000);
    [reflexivity | reflexivity | |]; apply Qleb_le; reflexivity.
Defined.

(** X2. A target on the lowest temperature of a list is not given the
    collapsed bracket that the metallicity and gravity searches give a
    target on a node: the temperature search pairs the lowest value with
    the next higher one, and fails when there is none. *)
Theorem temperature_at_lowest_node (xs : list Q) (x lo : Q) :
  np_min xs = ret lo -> (x == lo)%Q ->
  ((forall t, In t xs -> (t <= lo)%Q) ->
     temperature_bracket xs x
     = raise (ValueError "zero-size array to reduction operation minimum"))
  /\ ((exists t, In t xs /\ (lo < t)%Q) ->
      exists above,
        In above xs /\ (lo < above)%Q
        /\ (forall t, In t xs -> (lo < t)%Q -> (above <= t)%Q)
        /\ temperature_bracket xs x = ret (lo, above))
  /\ exists a b, (a == x)%Q /\ (b == x)%Q
       /\ metallicity_bracket xs x = ret (a, b)
       /\ gravity_bracket xs x = ret (a, b).
Proof.
  intros Hmin Hx.
  destruct (np_min_ok _ _ _ Hmin) as (_ & HloIn & Hlole).
  destruct (np_max_nonempty _ _ HloIn) as [hi Hmax].
  destruct (np_max_ok _ _ _ Hmax) as (_ & HhiIn & Hhile).
  assert (Hxhi : (x <= hi)%Q) by (rewrite Hx; auto).
  assert (Hlox : (lo <= x)%Q) by (rewrite Hx; apply Qle_refl).
  assert (E1 : Qltb hi x = false) by (apply Qltb_ge; exact Hxhi).
  assert (E2 : Qltb x lo = false) by (apply Qltb_ge; exact Hlox).
  assert (E3 : Qltb lo x = false) by (apply Qltb_ge; rewrite Hx; apply Qle_refl).
  assert (Hstart :
    temperature_bracket xs x
    = (Tup ← np_min (List.filter (fun t => Qltb lo t) xs); ret (lo, Tup))).
  { unfold temperature_bracket.
    rewrite Hmin, bind_ret_l, Hmax, bind_ret_l, E1, E2, !when_false, !bind_ret_l, E3.
    reflexivity. }
  split; [|split].
  - intros Hall. rewrite Hstart.
    assert (E : List.filter (fun t => Qltb lo t) xs = []).
    { clear -Hall. induction xs as [|y r IH]; [reflexivity|]. simpl.
      assert (Hy : Qltb lo y = false) by (apply Qltb_ge; apply Hall; left; reflexivity).
      rewrite Hy. apply IH. intros t Ht. apply Hall. right. exact Ht. }
    rewrite E. reflexivity.
  - intros (t0 & Hin0 & Hgt0). rewrite Hstart.
    assert (Hf : In t0 (List.filter (fun t => Qltb lo t) xs))
      by (apply filter_In; split; [exact Hin0 | apply Qltb_lt; exact Hgt0]).
    destruct (np_min_nonempty _ _ Hf) as [up Hup].
    destruct (np_min_ok _ _ _ Hup) as (_ & HupIn & Huple).
    apply filter_In in HupIn as [HupIn Hupgt]. apply Qltb_lt in Hupgt.
    exists up. split; [exact HupIn|]. split; [exact Hupgt|]. split.
    + intros t Ht Hgt. apply Huple. apply filter_In. split; [exact Ht|].
      apply Qltb_lt. exact Hgt.
    + rewrite Hup, bind_ret_l. reflexivity.
  - destruct (bracket_in_range_aux xs x lo hi Hmin Hmax Hlox Hxhi)
      as (a & b & HaIn & HbIn & Hax & Hxb & Hamax & Hbmin & HM & HG & _).
    exists a, b. split; [|split; [|split; assumption]].
    + apply Qle_antisym; [exact Hax|]. rewrite Hx. apply Hlole. exact HaIn.
    + apply Qle_antisym; [|exact Hxb].
      apply Qle_trans with lo; [|rewrite Hx; apply Qle_refl].
      apply Hbmin; [exact HloIn|]. rewrite Hx. apply Qle_refl.
Qed.

(** A list with one temperature, and a list with two; a grid of one model
    cannot return that model. *)
Lemma temperature_at_lowest_node_witness :
  temperature_bracket [5000]%Q 5000
  = raise (ValueError "zero-size array to reduction operation minimum")
  /\ temperature_bracket [5000; 6000]%Q 5000 = ret (5000, 6000)%Q
  /\ metallicity_bracket [5000; 6000]%Q 5000 = ret (5000, 5000)%Q
  /\ interp_atmo_grid decade_numerics [cool_model] 5000 (9 # 2) 0 sample_atmo_in 0
     = raise (ValueError "zero-size array to reduction operation minimum").
Proof.
  split; [|split; [|split]].
  - apply (temperature_at_lowest_node [5000]%Q 5000 5000);
      [reflexivity | reflexivity |].
    intros t [<-|[]]. apply Qle_refl.
  - reflexivity.
  - reflexivity.
  - vm_compute. reflexivity.
Defined.

(** ** The depth and interpolation variables *)

(** X4. Whatever [interp_atmo_grid] settles on for ATMO.DEPTH or
    ATMO.INTERP is TAU or RHOX and names a field of the grid, and settling
    prints nothing. A value set in the caller's structure wins, in upper
    case; without one the choice is the preferred field of the grid, or the
    other one when the grid lacks the preferred one. *)
Theorem resolve_variable_valid
    (tag first second : string) (atmo_in : struct) (grid : list struct) t v :
  resolve_variable tag first second atmo_in grid = (t, inr v) ->
  t = [] /\ (v = "TAU" \/ v = "RHOX") /\ gtag grid v = true
  /\ (is_set atmo_in tag = true ->
      exists s, atmo_in !! tag = Some (VStr s) /\ v = upper s)
  /\ (is_set atmo_in tag = false ->
      v = first \/ (v = second /\ gtag grid first = false)).
Proof.
  unfold resolve_variable. intros H.
  apply bind_ok in H as (t1 & v0 & t2 & Hv & H & ->).
  destruct (negb (String.eqb v0 "TAU") && negb (String.eqb v0 "RHOX")) eqn:E;
    [discriminate|].
  destruct (negb (gtag grid v0)) eqn:G; [discriminate|].
  injection H as <- <-.
  apply negb_false_iff in G.
  apply andb_false_iff in E. rewrite !negb_false_iff, !String.eqb_eq in E.
  destruct (is_set atmo_in tag) eqn:S.
  - apply bind_ok in Hv as (? & x & ? & Hx & Hv & ->).
    unfold getattr in Hx. destruct (atmo_in !! tag) as [x'|] eqn:L; [|discriminate].
    injection Hx as <- ->.
    destruct x; try discriminate. injection Hv as <- <-.
    repeat split; auto; [intros _; eauto | intros; discriminate].
  - destruct (match grid with e :: _ => is_set e tag | [] => false end);
      [discriminate|].
    destruct (gtag grid first) eqn:G1.
    + injection Hv as <- <-. repeat split; auto. intros; discriminate.
    + destruct (gtag grid second); [|discriminate].
      injection Hv as <- <-. repeat split; auto. intros; discriminate.
Qed.

(** The caller asks for the depth variable in lower case. *)
Lemma resolve_variable_valid_witness :
  resolve_depth (<["DEPTH" := VStr "tau"]> sample_atmo_in) sample_grid = ret "TAU"
  /\ gtag sample_grid "TAU" = true
  /\ exists s, <["DEPTH" := VStr "tau"]> sample_atmo_in !! "DEPTH" = Some (VStr s)
               /\ "TAU" = upper s.
Proof.
  split; [reflexivity|].
  destruct (resolve_variable_valid "DEPTH" "RHOX" "TAU"
              (<["DEPTH" := VStr "tau"]> sample_atmo_in) sample_grid [] "TAU")
    as (_ & _ & G & S & _); [reflexivity|].
  split; [exact G|]. apply S. reflexivity.
Defined.

(** X5. The second rule of the source's order of precedence cannot be
    used: when the caller's structure leaves the variable unset and the grid
    has the field set, the code passes the whole column [atmo_grid.depth] to
    [str.upper], and the call ends with a [TypeError] before anything is
    computed. *)
Theorem grid_setting_raises
    (tag first second : string) (atmo_in e : struct) (grid : list struct) :
  is_set atmo_in tag = false -> is_set e tag = true ->
  resolve_variable tag first second atmo_in (e :: grid) = raise TypeError
  /\ (tag = "DEPTH" ->
      forall N Teff logg MonH trace,
        interp_atmo_grid N (e :: grid) Teff logg MonH atmo_in trace = raise TypeError).
Proof.
  intros Ha He.
  assert (R : forall f s, resolve_variable tag f s atmo_in (e :: grid) = raise TypeError).
  { intros f s. unfold resolve_variable. rewrite Ha, He. reflexivity. }
  split; [apply R|].
  intros -> N Teff logg MonH trace. unfold interp_atmo_grid, resolve_depth.
  rewrite R. reflexivity.
Qed.

(** The sample grid with the field DEPTH set in its entries, and a caller
    who leaves DEPTH unset. *)
Lemma grid_setting_raises_witness :
  resolve_variable "DEPTH" "RHOX" "TAU" (delete "DEPTH" sample_atmo_in)
    (<["DEPTH" := VStr "RHOX"]> cool_model :: [warm_model]) = raise TypeError
  /\ ("DEPTH" = "DEPTH" ->
      forall N Teff logg MonH trace,
        interp_atmo_grid N (<["DEPTH" := VStr "RHOX"]> cool_model :: [warm_model])
          Teff logg MonH (delete "DEPTH" sample_atmo_in) trace = raise TypeError).
Proof.
  apply (grid_setting_raises "DEPTH" "RHOX" "TAU" (delete "DEPTH" sample_atmo_in)
           (<["DEPTH" := VStr "RHOX"]> cool_model) [warm_model]);
    vm_compute; reflexivity.
Defined.

(** ** The shape and the range of the shifted function *)

Lemma slice_0_take {A} (l : list A) n :
  slice l 0 n = take (Z.to_nat (slice_bound (Zlen l) n)) l.
Proof.
  unfold slice. rewrite slice_bound_0 by (unfold Zlen; lia).
  rewrite Z.sub_0_r. reflexivity.
Qed.

(** ** The result of a constrained fit *)

Lemma slice_0_length {A} (l : list A) (n : nat) :
  (n <= length l)%nat -> length (slice l 0 (Z.of_nat n)) = n.
Proof.
  intros H. rewrite slice_0_take, length_take. unfold slice_bound, Zlen.
  replace (Z.of_nat n <? 0) with false by (symmetry; apply Z.ltb_ge; lia). lia.
Qed.

(** X7. A constrained fit that returns has called [curve_fit] once and
    hands back the parameters that call produced. When [ndep] is the number
    of input points, the fitted curve it returns has one value per input
    point: the points appended for the constraints are cut off again.
    Without [ndep] they stay in the returned curve. *)
Theorem interp_atmo_constrained_result
    (N : numerics) (x_in y_in err_in par : list Q) (constraints : list Q)
    (fa : functargs) (parinfo : list Z) t popt yfit :
  interp_atmo_constrained N x_in y_in err_in par (Some constraints) fa parinfo
    = (t, inr (popt, yfit)) ->
  let k := length (List.filter nonzero constraints) in
  t = [Call_curve_fit]
  /\ (let '(_, (x, y, err)) := constrained_points x_in y_in err_in (Some constraints) in
      curve_fit N (fun x p => interp_atmo_func x p fa) x y err par = inr popt)
  /\ (fa_ndep fa = Some (Zlen x_in) -> length yfit = length x_in)
  /\ (fa_ndep fa = None -> length yfit = (length x_in + k)%nat).
Proof.
  intros H k.
  assert (Ht : t = [Call_curve_fit]).
  { pose proof (interp_atmo_constrained_events N x_in y_in err_in par
                  (Some constraints) fa parinfo) as E.
    rewrite H in E. exact E. }
  split; [exact Ht|].
  unfold interp_atmo_constrained in H.
  assert (Hx : length (fst (fst (snd (constrained_points x_in y_in err_in
                                       (Some constraints)))))
               = (length x_in + k)%nat).
  { unfold constrained_points. fold k.
    destruct (0 <? Zlen (List.filter nonzero constraints)) eqn:P; cbn [fst snd].
    - rewrite length_app, length_replicate. unfold Zlen, k. lia.
    - apply Z.ltb_ge in P. unfold Zlen, k in *. lia. }
  assert (Hn : fst (constrained_points x_in y_in err_in (Some constraints))
               = Z.of_nat k).
  { unfold constrained_points.
    destruct (0 <? Zlen (List.filter nonzero constraints)); reflexivity. }
  destruct (constrained_points x_in y_in err_in (Some constraints))
    as [n [[x y] err]]. cbn [fst snd] in *. subst n.
  rewrite bind_emit in H. unfold events, outcome in H.
  match type of H with (_ :: fst ?m, snd ?m) = _ => destruct m as [t' r] eqn:Hm end.
  cbn [fst snd] in H. injection H as _ ->.
  destruct (curve_fit N (fun x0 p => interp_atmo_func x0 p fa) x y err par)
    as [e|p] eqn:Hc.
  - rewrite bind_raise in Hm. discriminate.
  - rewrite bind_ret_l in Hm.
    apply bind_ok in Hm as (? & yf & ? & Hyf & Hm & _).
    injection Hm as _ <- <-. split; [reflexivity|].
    apply interp_atmo_func_length in Hyf.
    split.
    + intros Hnd. rewrite Hnd.
      destruct (0 <? Z.of_nat k) eqn:P.
      * unfold Zlen. apply slice_0_length. lia.
      * apply Z.ltb_ge in P. lia.
    + intros Hnd. rewrite Hnd. destruct (0 <? Z.of_nat k) eqn:P; [lia|].
      apply Z.ltb_ge in P. lia.
Qed.

(** The first pass on four points with the constraint on the shift, fitted
    by a fitter that returns the initial guess of an exact problem. *)
Lemma interp_atmo_constrained_result_witness :
  interp_atmo_constrained decade_numerics [0; 1; 2; 3]%Q [1; 2; 4; 8]%Q
    (replicate 4 (5 # 100)) [0; 0; 0; 0]%Q (Some constraints0)
    sample_functargs parinfo0
  = ([Call_curve_fit], inr ([0; 0; 0; 0]%Q, [1; 8 # 4; 16 # 4; 32 # 4]%Q))
  /\ length [1; 8 # 4; 16 # 4; 32 # 4]%Q = length [0; 1; 2; 3]%Q.
Proof.
  split; [vm_compute; reflexivity|].
  apply (interp_atmo_constrained_result decade_numerics [0; 1; 2; 3]%Q [1; 2; 4; 8]%Q
           (replicate 4 (5 # 100)) [0; 0; 0; 0]%Q constraints0
           sample_functargs parinfo0 [Call_curve_fit] [0; 0; 0; 0]%Q
           [1; 8 # 4; 16 # 4; 32 # 4]%Q);
    vm_compute; reflexivity.
Defined.

(** ** The fields of a pairwise blend *)

(** What a pairwise blend that returns went through: the interpolation
    variable, the two depth scales, the output depth scale and the call
    that built the output structure. *)
Lemma interp_atmo_pair_output N a1 a2 frac iv itop t krz :
  interp_atmo_pair N a1 a2 frac iv itop = (t, inr krz) ->
  exists interpvar itop1 ibot1 ndep1 depth1 itop2 ibot2 ndep2 depth2 xsh depth vects t',
    select_interpvar a1 a2 iv = ret interpvar
    /\ depth_scale N a1 interpvar itop = ret (itop1, ibot1, ndep1, depth1)
    /\ depth_scale N a2 interpvar itop = ret (itop2, ibot2, ndep2, depth2)
    /\ output_depth frac xsh ndep1 ndep2 depth1 depth2 = ret depth
    /\ construct_output N frac a1 a2 (vtags_of a1 a2 interpvar) vects (Zlen depth)
       = (t', inr krz)
    /\ (forall tag, In tag ["TEFF"; "LOGG"; "MONH"] ->
        exists x1 x2, get_num a1 tag = ret x1 /\ get_num a2 tag = ret x2).
Proof.
  unfold interp_atmo_pair. intros H.
  apply bind_ok in H as (t1 & ? & ? & G1 & H & _).
  apply bind_ok in H as (t2 & ? & ? & G2 & H & _).
  apply bind_ok in H as (t3 & ? & ? & G3 & H & _).
  apply bind_ok in H as (t4 & ? & ? & G4 & H & _).
  apply bind_ok in H as (t5 & ? & ? & G5 & H & _).
  apply bind_ok in H as (t6 & ? & ? & G6 & H & _).
  assert (t1 = []) as -> by (eapply silent_ok; [apply get_num_silent | exact G1]).
  assert (t2 = []) as -> by (eapply silent_ok; [apply get_num_silent | exact G2]).
  assert (t3 = []) as -> by (eapply silent_ok; [apply get_num_silent | exact G3]).
  assert (t4 = []) as -> by (eapply silent_ok; [apply get_num_silent | exact G4]).
  assert (t5 = []) as -> by (eapply silent_ok; [apply get_num_silent | exact G5]).
  assert (t6 = []) as -> by (eapply silent_ok; [apply get_num_silent | exact G6]).
  apply bind_ok in H as (ts & interpvar & ? & Hsel & H & _).
  assert (ts = []) as -> by (eapply silent_ok; [apply select_interpvar_silent | exact Hsel]).
  apply bind_ok in H as (td1 & ds1 & ? & Hds1 & H & _).
  destruct ds1 as [[[itop1 ibot1] ndep1] depth1].
  assert (td1 = []) as -> by (eapply silent_ok; [apply depth_scale_silent | exact Hds1]).
  apply bind_ok in H as (td2 & ds2 & ? & Hds2 & H & _).
  destruct ds2 as [[[itop2 ibot2] ndep2] depth2].
  assert (td2 = []) as -> by (eapply silent_ok; [apply depth_scale_silent | exact Hds2]).
  do 9 (apply bind_ok in H as (? & ? & ? & _ & H & _)).
  apply bind_ok in H as (? & st & ? & _ & H & _).
  apply bind_ok in H as (? & col0 & ? & _ & H & _).
  apply bind_ok in H as (to & depth & ? & Hd & H & _).
  assert (to = []) as -> by (eapply silent_ok; [apply output_depth_silent | exact Hd]).
  do 2 (apply bind_ok in H as (? & ? & ? & _ & H & _)).
  apply bind_ok in H as (? & vects & ? & _ & H & _).
  exists interpvar, itop1, ibot1, ndep1, depth1, itop2, ibot2, ndep2, depth2.
  eexists. exists depth, vects. eexists.
  split; [exact Hsel|]. split; [exact Hds1|]. split; [exact Hds2|].
  split; [exact Hd|]. split; [exact H|].
  intros tag [<-|[<-|[<-|[]]]]; eauto.
Qed.

Lemma construct_output_fields N frac a1 a2 vtags vects ndep t krz tag :
  construct_output N frac a1 a2 vtags vects ndep = (t, inr krz) ->
  has_tag krz tag = has_tag a1 tag.
Proof.
  unfold construct_output. intros H.
  apply bind_ok in H as (? & temp & ? & _ & H & _).
  apply bind_ok in H as (? & fields & ? & Hf & H & _).
  injection H as _ <-.
  pose proof (mapM_tagged _ _ _ _ Hf) as Hkeys.
  unfold has_tag.
  destruct (a1 !! tag) as [v1|] eqn:Hv1.
  - destruct (list_to_map fields !! tag) as [v|] eqn:L; [reflexivity|].
    exfalso. apply (not_elem_of_list_to_map_2 (M := gmap string)) in L.
    apply L. rewrite Hkeys. apply list_elem_of_fmap. exists (tag, v1).
    split; [reflexivity|]. apply elem_of_map_to_list. exact Hv1.
  - destruct (list_to_map fields !! tag) as [v|] eqn:L; [|reflexivity].
    exfalso. apply (elem_of_list_to_map_2 (M := gmap string)) in L.
    assert (Hin : tag ∈ fields.*1) by (apply list_elem_of_fmap; exists (tag, v); auto).
    rewrite Hkeys in Hin. apply list_elem_of_fmap in Hin as ([k w] & -> & Hin).
    apply elem_of_map_to_list in Hin. simpl in Hv1. congruence.
Qed.

Lemma first_index_None tag l : ~ In tag l -> first_index tag l = None.
Proof.
  induction l as [|x l IH]; [reflexivity|]. simpl. intros H.
  destruct (String.eqb tag x) eqn:E.
  - apply String.eqb_eq in E. subst. tauto.
  - rewrite IH by tauto. reflexivity.
Qed.

Lemma vtags_not_six a1 a2 interpvar tag :
  interpvar = "TAU" \/ interpvar = "RHOX" -> ~ In tag six_tags ->
  first_index tag (vtags_of a1 a2 interpvar) = None.
Proof.
  intros Hiv Hn. apply first_index_None. intros H. apply Hn.
  eapply vtags_of_six; eauto.
Qed.

(** The value of a field that is neither shifted nor blended. *)
Lemma output_field_plain N frac a1 a2 vtags vects ndep ndep_orig tag t v :
  first_index tag vtags = None ->
  existsb (String.eqb tag) stags = false -> tag <> "NDEP" ->
  output_field N frac a1 a2 vtags vects ndep ndep_orig tag = (t, inr v) ->
  exists v1, a1 !! tag = Some v1
    /\ if np_size v1 =? ndep_orig then trim_value v1 ndep = ret v else v = v1.
Proof.
  intros Hfi Hst Hnd. unfold output_field. rewrite Hfi, Hst. intros H.
  assert (Hab : String.eqb tag "ABUND" = false).
  { destruct (String.eqb tag "ABUND") eqn:E; [|reflexivity].
    apply String.eqb_eq in E. subst. discriminate. }
  assert (Hn : String.eqb tag "NDEP" = false).
  { apply String.eqb_neq. exact Hnd. }
  apply bind_ok in H as (? & v1 & ? & Hv1 & H & _).
  rewrite Hab in H. cbn [negb] in H. rewrite andb_true_r in H.
  unfold getfield in Hv1. destruct (a1 !! tag) as [w|] eqn:L; [|discriminate].
  injection Hv1 as _ ->. exists v1. split; [reflexivity|].
  destruct (np_size v1 =? ndep_orig).
  - apply bind_ok in H as (t1 & v0 & ? & Hv0 & H & _).
    rewrite !bind_ret_l in H. rewrite ?Hn, ?Hab in H. injection H as _ <-.
    assert (t1 = []) as ->.
    { destruct v1; simpl in Hv0; try discriminate; injection Hv0 as <- _; reflexivity. }
    exact Hv0.
  - rewrite !bind_ret_l in H. rewrite ?Hn, ?Hab in H. injection H as _ <-. reflexivity.
Qed.

(** The value of a scalar that is interpolated using [frac]. *)
Lemma output_field_scalar N frac a1 a2 vtags vects ndep ndep_orig tag t v :
  first_index tag vtags = None ->
  In tag ["TEFF"; "LOGG"; "MONH"; "VTURB"; "LONH"] ->
  output_field N frac a1 a2 vtags vects ndep ndep_orig tag = (t, inr v) ->
  exists v1, a1 !! tag = Some v1
    /\ match a2 !! tag with
       | Some v2 => blend_value frac v1 v2 = ret v
       | None => v = v1
       end.
Proof.
  intros Hfi Hin. unfold output_field. rewrite Hfi. intros H.
  apply bind_ok in H as (? & v1 & ? & Hv1 & H & _).
  unfold getfield in Hv1. destruct (a1 !! tag) as [w|] eqn:L; [|discriminate].
  injection Hv1 as _ ->. exists v1. split; [reflexivity|].
  apply bind_ok in H as (? & v0 & ? & _ & H & _).
  rewrite bind_ret_l in H.
  assert (Hst : existsb (String.eqb tag) stags = true
                /\ String.eqb tag "NDEP" = false /\ String.eqb tag "ABUND" = false).
  { simpl in Hin. destruct Hin as [<-|[<-|[<-|[<-|[<-|[]]]]]]; repeat split. }
  destruct Hst as (Hst & Hn & Hab). rewrite Hst, Hn, Hab in H.
  unfold has_tag in H. destruct (a2 !! tag) as [v2|] eqn:L2.
  - apply bind_ok in H as (? & v' & ? & Hb & H & _). injection H as _ <-.
    apply bind_ok in Hb as (? & v2' & ? & Hv2 & Hb & _).
    unfold getfield in Hv2. rewrite L2 in Hv2. injection Hv2 as _ <-.
    assert (Hs : events (blend_value frac v1 v2) = []) by apply blend_value_silent.
    destruct (blend_value frac v1 v2) as [tb rb]. simpl in Hs. subst tb.
    injection Hb as _ ->. reflexivity.
  - rewrite bind_ret_l in H. injection H as _ <-. reflexivity.
Qed.

Lemma never_returns {A} (m : M A) :
  (forall t a, m = (t, inr a) -> False) -> exists t e, m = (t, inl e).
Proof.
  intros H. destruct m as [t [e|a]]; [eauto|]. exfalso. eapply H. reflexivity.
Qed.

Lemma get_vec_lookup (a : struct) tag t v :
  get_vec a tag = (t, inr v) -> a !! tag = Some (VVec v).
Proof.
  unfold get_vec, getattr. destruct (a !! tag) as [w|]; [|discriminate].
  rewrite bind_ret_l. destruct w; try discriminate. intros [= _ <-]. reflexivity.
Qed.

Lemma interp_atmo_pair_has_tag N a1 a2 frac iv itop t krz tag :
  interp_atmo_pair N a1 a2 frac iv itop = (t, inr krz) ->
  has_tag krz tag = has_tag a1 tag.
Proof.
  intros H.
  destruct (interp_atmo_pair_output _ _ _ _ _ _ _ _ H)
    as (interpvar & ? & ? & ? & ? & ? & ? & ? & ? & ? & depth & vects & t'
        & _ & _ & _ & _ & Hc & _).
  eapply construct_output_fields. exact Hc.
Qed.

(** X8. A pairwise blend that returns has exactly the fields of its first
    atmosphere: a field that only the second atmosphere has is dropped, and
    no field of the first one is lost. *)
Theorem interp_atmo_pair_fields
    (N : numerics) (a1 a2 : struct) (frac : Q) (iv : option string) (itop : Z)
    t (krz : struct) :
  interp_atmo_pair N a1 a2 frac iv itop = (t, inr krz) ->
  forall tag, has_tag krz tag = has_tag a1 tag.
Proof. intros H tag. eapply interp_atmo_pair_has_tag. exact H. Qed.

(** The blend of [tall_model] and [bare_model] has the first model's
    HEIGHT and VTURB, and not the second model's OPFLAG. *)
Lemma interp_atmo_pair_fields_witness :
  has_tag tall_krz "HEIGHT" = true /\ has_tag tall_krz "VTURB" = true
  /\ has_tag bare_model "OPFLAG" = true /\ has_tag tall_krz "OPFLAG" = false.
Proof.
  assert (H : forall tag, has_tag tall_krz tag = has_tag tall_model tag).
  { apply (interp_atmo_pair_fields decade_numerics tall_model bare_model (1 # 2)
             (Some "TAU") 1 (events tall_blend) tall_krz).
    vm_compute. reflexivity. }
  rewrite !H. vm_compute. repeat split; reflexivity.
Defined.

(** X9. A field of the first atmosphere that the blend neither shifts nor
    interpolates is copied as it is, unless it has as many entries as TEMP:
    then its first [ndep] entries are kept, where [ndep] is the number of
    depth points of the result. The second atmosphere and the fraction play
    no part; a vector per depth point such as HEIGHT loses entries at its
    end, whatever points the blend dropped at the top. *)
Theorem unshifted_fields_are_copied
    (N : numerics) (a1 a2 : struct) (frac : Q) (iv : option string) (itop : Z)
    t (krz : struct) :
  interp_atmo_pair N a1 a2 frac iv itop = (t, inr krz) ->
  exists temp ndep,
    a1 !! "TEMP" = Some (VVec temp) /\ krz !! "NDEP" = Some (VInt ndep)
    /\ forall tag v,
         a1 !! tag = Some v ->
         ~ In tag six_tags -> existsb (String.eqb tag) stags = false ->
         tag <> "NDEP" ->
         (np_size v <> Zlen temp -> krz !! tag = Some v)
         /\ (forall l, v = VVec l -> Zlen l = Zlen temp ->
             krz !! tag = Some (VVec (slice l 0 ndep))).
Proof.
  intros H.
  destruct (interp_atmo_pair_output _ _ _ _ _ _ _ _ H)
    as (interpvar & ? & ? & ? & ? & ? & ? & ? & ? & ? & depth & vects & t'
        & Hsel & Hds1 & _ & _ & Hc & _).
  pose proof (select_interpvar_ok _ _ _ _ _ Hsel) as Hiv.
  destruct (construct_output_lookup _ _ _ _ _ _ _ _ _ "NDEP" Hc
              (depth_scale_has_NDEP _ _ _ _ _ _ Hds1))
    as (temp & tn & vn & Htemp & Hof & Hk).
  apply output_field_NDEP in Hof. subst vn.
  exists temp, (Zlen depth).
  split; [eapply get_vec_lookup; exact Htemp|]. split; [exact Hk|].
  intros tag v Hv Hsix Hst Hnd.
  assert (Hhas : has_tag a1 tag = true) by (unfold has_tag; rewrite Hv; reflexivity).
  destruct (construct_output_lookup _ _ _ _ _ _ _ _ _ tag Hc Hhas)
    as (temp' & tt' & w & Htemp' & Hof & Hkw).
  rewrite Htemp in Htemp'. injection Htemp' as <-.
  apply output_field_plain in Hof as (v1 & Hv1 & Hw);
    [| apply vtags_not_six; assumption | exact Hst | exact Hnd].
  rewrite Hv in Hv1. injection Hv1 as <-.
  split.
  - intros Hsz. apply Z.eqb_neq in Hsz. rewrite Hsz in Hw. subst w. exact Hkw.
  - intros l -> Hl. simpl in Hw. rewrite Hl, Z.eqb_refl in Hw.
    injection Hw as <-. exact Hkw.
Qed.

(** The heights of [tall_model] run from 7 at the top to 1: the blend, which
    drops the top point of every shifted vector, returns the heights 7 to 2
    beside the temperatures of the points below the top. *)
Lemma unshifted_fields_are_copied_witness :
  tall_model !! "TEMP" = Some (VVec [3500; 4000; 4500; 5000; 6000; 7000; 9000]%Q)
  /\ tall_krz !! "TEMP" = Some (VVec [4000; 4500; 5000; 6000; 7000; 9000]%Q)
  /\ tall_model !! "HEIGHT" = Some (VVec [7; 6; 5; 4; 3; 2; 1]%Q)
  /\ tall_krz !! "HEIGHT" = Some (VVec [7; 6; 5; 4; 3; 2]%Q).
Proof.
  split; [reflexivity|]. split; [vm_compute; reflexivity|]. split; [reflexivity|].
  destruct (unshifted_fields_are_copied decade_numerics tall_model bare_model (1 # 2)
              (Some "TAU") 1 (events tall_blend) tall_krz)
    as (temp & ndep & Ht & Hn & Hall); [vm_compute; reflexivity|].
  vm_compute in Ht. injection Ht as <-.
  vm_compute in Hn. injection Hn as <-.
  destruct (Hall "HEIGHT" (VVec [7; 6; 5; 4; 3; 2; 1]%Q)) as [_ Hc].
  - reflexivity.
  - unfold six_tags. simpl. intuition discriminate.
  - reflexivity.
  - discriminate.
  - rewrite (Hc _ eq_refl eq_refl). reflexivity.
Defined.

(** X10. The second atmosphere may lack a scalar that is interpolated using
    [frac]: the turbulence and the mixing length are then taken from the
    first atmosphere. The abundances are not covered by that test: when the
    first atmosphere has ABUND and the second has not, the blend fails. *)
Theorem scalars_missing_in_second
    (N : numerics) (a1 a2 : struct) (frac : Q) (iv : option string) (itop : Z) :
  (has_tag a1 "ABUND" = true -> has_tag a2 "ABUND" = false ->
   exists t e, interp_atmo_pair N a1 a2 frac iv itop = (t, inl e))
  /\ (forall tag t krz,
        In tag ["VTURB"; "LONH"] ->
        has_tag a1 tag = true -> has_tag a2 tag = false ->
        interp_atmo_pair N a1 a2 frac iv itop = (t, inr krz) ->
        krz !! tag = a1 !! tag).
Proof.
  split.
  - intros H1 H2. apply never_returns. intros t krz H.
    destruct (interp_atmo_pair_output _ _ _ _ _ _ _ _ H)
      as (interpvar & ? & ? & ? & ? & ? & ? & ? & ? & ? & depth & vects & t'
          & _ & _ & _ & _ & Hc & _).
    destruct (construct_output_lookup _ _ _ _ _ _ _ _ _ "ABUND" Hc H1)
      as (temp & tt' & w & _ & Hof & _).
    unfold output_field in Hof.
    apply bind_ok in Hof as (? & v1 & ? & _ & Hof & _).
    apply bind_ok in Hof as (? & v0 & ? & _ & Hof & _).
    apply bind_ok in Hof as (? & v0' & ? & _ & Hof & _).
    apply bind_ok in Hof as (? & v0'' & ? & _ & Hof & _).
    cbn in Hof. unfold getfield in Hof. unfold has_tag in H2.
    destruct (a2 !! "ABUND"); discriminate.
  - intros tag t krz Hin H1 H2 H.
    destruct (interp_atmo_pair_output _ _ _ _ _ _ _ _ H)
      as (interpvar & ? & ? & ? & ? & ? & ? & ? & ? & ? & depth & vects & t'
          & Hsel & _ & _ & _ & Hc & _).
    pose proof (select_interpvar_ok _ _ _ _ _ Hsel) as Hiv.
    destruct (construct_output_lookup _ _ _ _ _ _ _ _ _ tag Hc H1)
      as (temp & tt' & w & _ & Hof & Hk).
    apply output_field_scalar in Hof as (v1 & Hv1 & Hw).
    + unfold has_tag in H2. destruct (a2 !! tag); [discriminate|]. congruence.
    + apply vtags_not_six; [exact Hiv|]. unfold six_tags.
      simpl in Hin. destruct Hin as [<-|[<-|[]]]; simpl; intuition discriminate.
    + simpl in Hin. simpl. tauto.
Qed.

(** The warm model against itself without abundances, and the blend of
    [tall_model] with [bare_model], which has no turbulence value. *)
Lemma scalars_missing_in_second_witness :
  interp_atmo_pair decade_numerics warm_model (delete "ABUND" warm_model) (1 # 2)
    (Some "TAU") 1 = (replicate 6 Call_curve_fit, inl (KeyError "ABUND"))
  /\ (exists t e,
        interp_atmo_pair decade_numerics warm_model (delete "ABUND" warm_model) (1 # 2)
          (Some "TAU") 1 = (t, inl e))
  /\ tall_krz !! "VTURB" = tall_model !! "VTURB".
Proof.
  split; [vm_compute; reflexivity|]. split.
  - apply (scalars_missing_in_second decade_numerics warm_model
             (delete "ABUND" warm_model) (1 # 2) (Some "TAU") 1); reflexivity.
  - apply (proj2 (scalars_missing_in_second decade_numerics tall_model bare_model
                    (1 # 2) (Some "TAU") 1) "VTURB" (events tall_blend) tall_krz);
      [simpl; tauto | reflexivity | reflexivity | vm_compute; reflexivity].
Defined.

(** X11. An interpolation variable given by the caller is checked for its
    spelling only, not against the fields of the two atmospheres: with TAU
    in both and RHOX missing in the second, [interpvar='RHOX'] passes the
    selection, and the blend fails when it reads the missing field. *)
Theorem interpvar_not_checked
    (N : numerics) (a1 a2 : struct) (frac : Q) (itop : Z) :
  has_tag a1 "TAU" = true -> has_tag a2 "TAU" = true -> has_tag a2 "RHOX" = false ->
  select_interpvar a1 a2 (Some "RHOX") = ret "RHOX"
  /\ exists t e, interp_atmo_pair N a1 a2 frac (Some "RHOX") itop = (t, inl e).
Proof.
  intros H1 H2 H3.
  assert (S : select_interpvar a1 a2 (Some "RHOX") = ret "RHOX").
  { unfold select_interpvar. rewrite H1, H2. reflexivity. }
  split; [exact S|].
  apply never_returns. intros t krz H.
  destruct (interp_atmo_pair_output _ _ _ _ _ _ _ _ H)
    as (interpvar & ? & ? & ? & ? & ? & ? & ? & ? & ? & depth & vects & t'
        & Hsel & _ & Hds2 & _).
  rewrite S in Hsel. injection Hsel as <-.
  unfold depth_scale in Hds2. cbn [String.eqb Ascii.eqb Bool.eqb] in Hds2.
  unfold get_vec, getattr, has_tag in *.
  destruct (a2 !! "RHOX"); [discriminate|].
  rewrite !bind_raise in Hds2. discriminate.
Qed.

(** The warm model against itself without its mass column. *)
Lemma interpvar_not_checked_witness :
  select_interpvar warm_model (delete "RHOX" warm_model) (Some "RHOX") = ret "RHOX"
  /\ (exists t e,
        interp_atmo_pair decade_numerics warm_model (delete "RHOX" warm_model) (1 # 2)
          (Some "RHOX") 1 = (t, inl e))
  /\ interp_atmo_pair decade_numerics warm_model (delete "RHOX" warm_model) (1 # 2)
       (Some "RHOX") 1 = raise (AttributeError "RHOX").
Proof.
  destruct (interpvar_not_checked decade_numerics warm_model (delete "RHOX" warm_model)
              (1 # 2) 1) as [S F]; try reflexivity.
  split; [exact S|]. split; [exact F|]. vm_compute. reflexivity.
Defined.

(** ** The structure handed back to the caller *)

Lemma copy_fields_total ktags krz : forall atmo,
  (forall tag, In tag ktags -> has_tag krz tag = true) ->
  exists out, copy_fields ktags krz atmo = ret out.
Proof.
  induction ktags as [|k r IH]; intros atmo Hall; cbn [copy_fields].
  - eauto.
  - destruct (existsb (String.eqb k) discard).
    + apply IH. intros tag Ht. apply Hall. right. exact Ht.
    + assert (Hk : has_tag krz k = true) by (apply Hall; left; reflexivity).
      unfold getfield, has_tag in *. destruct (krz !! k) as [v|]; [|discriminate].
      rewrite bind_ret_l. apply IH. intros tag Ht. apply Hall. right. exact Ht.
Qed.

(** X12. Copying the interpolation result into the caller's structure cannot
    fail when the tags copied are fields of the result, and it is an
    overwrite: every copied tag other than MODTYP, SPHERE and NDEP takes the
    value of the result, and every other field keeps the caller's value. *)
Theorem copy_fields_overwrites (ktags : list string) (krz atmo : struct) :
  (forall tag, In tag ktags -> has_tag krz tag = true) ->
  exists out,
    copy_fields ktags krz atmo = ret out
    /\ forall tag,
         out !! tag =
           if existsb (String.eqb tag) ktags && negb (existsb (String.eqb tag) discard)
           then krz !! tag else atmo !! tag.
Proof.
  intros Hall. destruct (copy_fields_total ktags krz atmo Hall) as [out Hout].
  exists out. split; [exact Hout|].
  intros tag. eapply copy_fields_lookup. exact Hout.
Qed.

(** The warm model copied into the caller's structure. *)
Lemma copy_fields_overwrites_witness :
  exists out,
    copy_fields (fst <$> map_to_list warm_model) warm_model sample_atmo_in = ret out
    /\ out !! "TEFF" = Some (VNum 6000)
    /\ out !! "NDEP" = Some (VInt 56)
    /\ out !! "DEPTH" = Some (VStr "RHOX").
Proof.
  destruct (copy_fields_overwrites (fst <$> map_to_list warm_model) warm_model
              sample_atmo_in) as (out & Hout & Hl).
  - intros tag Ht. apply list_elem_of_In, list_elem_of_fmap in Ht as ([k v] & -> & Ht).
    apply elem_of_map_to_list in Ht. unfold has_tag. simpl. rewrite Ht. reflexivity.
  - exists out. split; [exact Hout|]. rewrite !Hl. vm_compute. repeat split; reflexivity.
Defined.




(** ** The number of fits of a grid interpolation *)

Lemma fit_calls_bind {A B} (m : M A) (f : A -> M B) :
  fit_calls (m ≫= f)
  = (fit_calls m + match outcome m with
                   | inr a => fit_calls (f a)
                   | inl _ => 0
                   end)%nat.
Proof.
  rewrite bind_unfold. unfold bind, fit_calls, events, outcome.
  destruct m as [t [e|a]]; cbn [fst snd]; [lia|].
  destruct (f a) as [t' r]. cbn [fst]. rewrite filter_app, length_app. reflexivity.
Qed.

Lemma nofit_bind {A B} (m : M A) (f : A -> M B) :
  fit_calls m = 0%nat -> (forall a, fit_calls (f a) = 0%nat) ->
  fit_calls (m ≫= f) = 0%nat.
Proof.
  intros Hm Hf. rewrite fit_calls_bind, Hm. destruct (outcome m); simpl; auto.
Qed.

Lemma nofit_silent {A} (m : M A) : events m = [] -> fit_calls m = 0%nat.
Proof. unfold fit_calls. intros ->. reflexivity. Qed.

Lemma nofit_when b (d : diag) : fit_calls (when b (emit (Print d))) = 0%nat.
Proof. destruct b; reflexivity. Qed.

Lemma nofit_mapM {A B} (f : A -> M B) (l : list A) :
  (forall a, fit_calls (f a) = 0%nat) -> fit_calls (mapM f l) = 0%nat.
Proof.
  intros Hf. induction l as [|a l IH]; [reflexivity|]. simpl.
  apply nofit_bind; [apply Hf|]. intros b.
  apply nofit_bind; [exact IH|]. intros bs. reflexivity.
Qed.

Ltac nofit_step :=
  match goal with
  | |- fit_calls (_ ≫= _) = 0%nat => apply nofit_bind; [|intros]
  | |- fit_calls (when _ (emit (Print _))) = 0%nat => apply nofit_when
  | |- fit_calls (emit (Print _)) = 0%nat => reflexivity
  | |- fit_calls (ret _) = 0%nat => reflexivity
  | |- fit_calls (raise _) = 0%nat => reflexivity
  | |- fit_calls (if ?c then _ else _) = 0%nat => destruct c
  | |- fit_calls (when ?c _) = 0%nat => destruct c; [rewrite when_true | reflexivity]
  | |- fit_calls (mapM _ _) = 0%nat => apply nofit_mapM; intros
  | |- fit_calls _ = 0%nat =>
      apply nofit_silent; solve [auto with silent | silent; auto with silent]
  end.

Ltac nofit := repeat nofit_step.

Lemma nofit_resolve tag first second atmo_in grid :
  fit_calls (resolve_variable tag first second atmo_in grid) = 0%nat.
Proof.
  apply nofit_silent. unfold resolve_variable, str_upper. silent; auto with silent.
Qed.

Lemma nofit_metallicity l x : fit_calls (metallicity_bracket l x) = 0%nat.
Proof. unfold metallicity_bracket. nofit. Qed.

Lemma nofit_gravity l x : fit_calls (gravity_bracket l x) = 0%nat.
Proof. unfold gravity_bracket. nofit. Qed.

Lemma nofit_temperature l x : fit_calls (temperature_bracket l x) = 0%nat.
Proof. unfold temperature_bracket. nofit. Qed.

Lemma nofit_column grid tag : fit_calls (column grid tag) = 0%nat.
Proof. apply nofit_silent, column_silent. Qed.

Lemma nofit_find_brackets grid Teff logg MonH trace :
  fit_calls (find_brackets grid Teff logg MonH trace) = 0%nat.
Proof.
  assert (G : forall M_b i, fit_calls (gravity_at grid logg M_b i trace) = 0%nat).
  { intros. unfold gravity_at.
    apply nofit_bind; [apply nofit_column|]. intros.
    apply nofit_bind; [apply nofit_column|]. intros.
    apply nofit_bind; [apply nofit_gravity|]. intros. nofit. }
  assert (T : forall M_b G_b i j, fit_calls (temperature_at grid Teff M_b G_b i j trace) = 0%nat).
  { intros. unfold temperature_at.
    apply nofit_bind; [apply nofit_column|]. intros.
    apply nofit_bind; [apply nofit_column|]. intros.
    apply nofit_bind; [apply nofit_column|]. intros.
    apply nofit_bind; [apply nofit_temperature|]. intros. nofit. }
  unfold find_brackets.
  apply nofit_bind; [apply nofit_column|]. intros.
  apply nofit_bind; [apply nofit_metallicity|]. intros.
  apply nofit_bind; [nofit|]. intros.
  repeat (apply nofit_bind; [solve [apply G | apply T]|]; intros).
  reflexivity.
Qed.

Lemma nofit_find_corner grid key : fit_calls (find_corner grid key) = 0%nat.
Proof.
  unfold find_corner.
  repeat (apply nofit_bind; [apply nofit_column|]; intros).
  apply nofit_bind; [nofit|]. intros. apply nofit_silent, getitem_silent.
Qed.

Lemma nofit_find_corners grid b : fit_calls (find_corners grid b) = 0%nat.
Proof.
  unfold find_corners.
  repeat (apply nofit_bind; [apply nofit_find_corner|]; intros). reflexivity.
Qed.

Lemma vtags_of_bounds a1 a2 interpvar :
  (5 <= length (vtags_of a1 a2 interpvar) <= 6)%nat.
Proof.
  unfold vtags_of. rewrite !length_app. cbn [length].
  destruct (String.eqb interpvar "RHOX") eqn:E1;
    destruct (String.eqb interpvar "TAU") eqn:E2; cbn [andb].
  - apply String.eqb_eq in E1, E2. congruence.
  - destruct (has_tag a1 "TAU" && has_tag a2 "TAU"); simpl; lia.
  - destruct (has_tag a1 "RHOX" && has_tag a2 "RHOX"); simpl; lia.
  - simpl. lia.
Qed.

Lemma fits_of_step {A} (m : M A) t a :
  fit_calls m = 0%nat -> m = (t, inr a) -> length (filter is_fit t) = 0%nat.
Proof. intros H ->. exact H. Qed.

Lemma interp_atmo_pair_fit_count N a1 a2 frac iv itop t krz :
  interp_atmo_pair N a1 a2 frac iv itop = (t, inr krz) ->
  (5 <= length (filter is_fit t) <= 6)%nat.
Proof.
  intros H. destruct (interp_atmo_pair_fits _ _ _ _ _ _ _ _ H) as (interpvar & _ & ->).
  pose proof (fit_calls_replicate (A := unit)
                (length (vtags_of a1 a2 interpvar)) (inr tt)) as E.
  unfold fit_calls, events in E. cbn [fst] in E. rewrite E.
  apply vtags_of_bounds.
Qed.

Lemma blend_corners_fit_count N grid MonH interpvar itop i0 i1 t a :
  blend_corners N grid MonH interpvar itop i0 i1 = (t, inr a) ->
  (5 <= length (filter is_fit t) <= 6)%nat.
Proof.
  unfold blend_corners. intros H.
  do 4 next H. eapply interp_atmo_pair_fit_count. exact H.
Qed.

Lemma blend_models_fit_count N tag x interpvar a0 a1 t a :
  blend_models N tag x interpvar a0 a1 = (t, inr a) ->
  (5 <= length (filter is_fit t) <= 6)%nat.
Proof.
  unfold blend_models. intros H.
  do 2 next H. eapply interp_atmo_pair_fit_count. exact H.
Qed.

Lemma nofit_trace (trace : Z) :
  fit_calls (when (1 <=? trace)
               (mapM (fun _ : nat => emit (Print trace_line)) (seq 0 10);; ret tt)) = 0%nat.
Proof. destruct (1 <=? trace); reflexivity. Qed.

Lemma nofit_reconcile_geom atmo geom : fit_calls (reconcile_geom atmo geom) = 0%nat.
Proof.
  unfold reconcile_geom. apply nofit_bind; [|intros; reflexivity].
  destruct (has_tag atmo "GEOM"); [|reflexivity].
  apply nofit_bind; [apply nofit_silent, getattr_silent|]. intros g.
  destruct (negb (is_str g "") && negb (is_str g geom)); [|reflexivity].
  destruct (is_str g "SPH"); reflexivity.
Qed.

Lemma copy_fields_silent ktags krz : forall atmo, events (copy_fields ktags krz atmo) = [].
Proof.
  induction ktags as [|k r IH]; intros atmo; cbn [copy_fields]; [reflexivity|].
  destruct (existsb (String.eqb k) discard); [apply IH|].
  apply silent_bind; [apply getfield_silent|]. intros v. apply IH.
Qed.

Lemma compute_geometry_silent N grid c logg : events (compute_geometry N grid c logg) = [].
Proof.
  unfold compute_geometry, log10_scalar, np_mean, column.
  silent; auto using column_silent with silent.
Qed.

(** X14. A grid interpolation that returns has run seven pairwise blends,
    four in metallicity, two in gravity and one in temperature, and each of
    them has called [curve_fit] five or six times: between 35 and 42 fits,
    whatever the target, also for a target on a grid node. *)
Theorem grid_fit_count
    (N : numerics) (grid : list struct) (Teff logg MonH : Q)
    (atmo_in : struct) (trace : Z) t (out : struct) :
  interp_atmo_grid N grid Teff logg MonH atmo_in trace = (t, inr out) ->
  (35 <= fit_calls (interp_atmo_grid N grid Teff logg MonH atmo_in trace) <= 42)%nat.
Proof.
  intros H. rewrite H. unfold fit_calls, events. cbn [fst].
  unfold interp_atmo_grid in H.
  apply bind_ok in H as (t1 & depth & ? & H1 & H & ->).
  apply (fits_of_step _ _ _ (nofit_resolve _ _ _ _ _)) in H1.
  apply bind_ok in H as (t2 & interp & ? & H2 & H & ->).
  apply (fits_of_step _ _ _ (nofit_resolve _ _ _ _ _)) in H2.
  apply bind_ok in H as (t3 & b & ? & H3 & H & ->).
  apply (fits_of_step _ _ _ (nofit_find_brackets _ _ _ _ _)) in H3.
  apply bind_ok in H as (t4 & c & ? & H4 & H & ->).
  apply (fits_of_step _ _ _ (nofit_find_corners _ _)) in H4.
  apply bind_ok in H as (t5 & ? & ? & H5 & H & ->).
  apply (fits_of_step _ _ _ (nofit_trace _)) in H5.
  apply bind_ok in H as (b1 & atmo00 & ? & B1 & H & ->).
  apply bind_ok in H as (b2 & atmo01 & ? & B2 & H & ->).
  apply bind_ok in H as (b3 & atmo10 & ? & B3 & H & ->).
  apply bind_ok in H as (b4 & atmo11 & ? & B4 & H & ->).
  apply bind_ok in H as (b5 & atmo0 & ? & B5 & H & ->).
  apply bind_ok in H as (b6 & atmo1 & ? & B6 & H & ->).
  apply bind_ok in H as (b7 & krz & ? & B7 & H & ->).
  apply bind_ok in H as (t6 & g & ? & H6 & H & ->).
  apply (fits_of_step _ _ _ (nofit_silent _ (compute_geometry_silent _ _ _ _))) in H6.
  apply bind_ok in H as (t7 & atmo & t8 & H7 & H & ->).
  apply (fits_of_step _ _ _ (nofit_reconcile_geom _ _)) in H7.
  apply (fits_of_step _ _ _ (nofit_silent _ (copy_fields_silent _ _ _))) in H.
  apply blend_corners_fit_count in B1, B2, B3, B4.
  apply blend_models_fit_count in B5, B6, B7.
  rewrite !filter_app, !length_app. lia.
Qed.

(** The interpolation to a node of the sample grid, whose models have both
    depth variables: 42 fits. *)
Lemma grid_fit_count_witness :
  fit_calls sample_run = 42%nat /\ (35 <= fit_calls sample_run <= 42)%nat.
Proof.
  split; [vm_compute; reflexivity|].
  apply (grid_fit_count decade_numerics sample_grid 6000 (9 # 2) 0 sample_atmo_in 0
           (events sample_run) sample_out).
  vm_compute. reflexivity.
Defined.

(** X15. The range of the grid is tested before anything is fitted: when
    the search for the brackets fails, the whole call fails without a
    single call of [curve_fit]. *)
Theorem range_errors_precede_fits
    (N : numerics) (grid : list struct) (Teff logg MonH : Q)
    (atmo_in : struct) (trace : Z) tb e :
  find_brackets grid Teff logg MonH trace = (tb, inl e) ->
  fit_calls (interp_atmo_grid N grid Teff logg MonH atmo_in trace) = 0%nat
  /\ exists t' e', interp_atmo_grid N grid Teff logg MonH atmo_in trace = (t', inl e').
Proof.
  intros Hb. unfold interp_atmo_grid. split.
  - apply nofit_bind; [apply nofit_resolve|]. intros depth.
    apply nofit_bind; [apply nofit_resolve|]. intros interp.
    rewrite fit_calls_bind, Hb. cbn [outcome snd].
    pose proof (nofit_find_brackets grid Teff logg MonH trace) as E.
    rewrite Hb in E. rewrite E. reflexivity.
  - apply never_returns. intros t a H.
    apply bind_ok in H as (? & depth & ? & _ & H & _).
    apply bind_ok in H as (? & interp & ? & _ & H & _).
    apply bind_ok in H as (? & b & ? & H3 & H & _).
    rewrite Hb in H3. discriminate.
Qed.

(** A temperature above the sample grid. *)
Lemma range_errors_precede_fits_witness :
  interp_atmo_grid decade_numerics sample_grid 7000 (9 # 2) 0 sample_atmo_in 0
  = raise (ValueError Teff_too_large)
  /\ fit_calls (interp_atmo_grid decade_numerics sample_grid 7000 (9 # 2) 0
                  sample_atmo_in 0) = 0%nat.
Proof.
  split; [vm_compute; reflexivity|].
  apply (range_errors_precede_fits decade_numerics sample_grid 7000 (9 # 2) 0
           sample_atmo_in 0 [] (ValueError Teff_too_large)).
  vm_compute. reflexivity.
Defined.

(** ** The number of depth points of a pairwise blend *)

Lemma trim_top_bounds min_d v n : forall (j : nat) t r,
  (length v - j <= n)%nat ->
  trim_top min_d v (Z.of_nat j) = (t, inr r) ->
  t = [] /\ Z.of_nat j <= r /\ r + 1 < Zlen v.
Proof.
  induction n as [|n IH]; intros j t r Hn H; rewrite trim_top_nat in H.
  - rewrite (proj2 (lookup_ge_None v (S j))) in H by lia. discriminate.
  - destruct (v !! S j) as [a|] eqn:Ha; [|discriminate].
    destruct (v !! j) as [b|] eqn:Hb; [|discriminate].
    apply lookup_lt_Some in Ha.
    destruct (small_step min_d a b).
    + apply IH in H; [|lia]. destruct H as (-> & H1 & H2). repeat split; lia.
    + injection H as <- <-. unfold Zlen. repeat split; lia.
Qed.

Lemma slice_length_inner {A} (l : list A) lo hi :
  0 <= lo -> lo <= hi -> hi <= Zlen l -> Zlen (slice l lo hi) = hi - lo.
Proof.
  intros H0 H1 H2. unfold slice, slice_bound, Zlen in *.
  replace (lo <? 0) with false by (symmetry; apply Z.ltb_ge; lia).
  replace (hi <? 0) with false by (symmetry; apply Z.ltb_ge; lia).
  rewrite length_take, length_drop. lia.
Qed.

Lemma np_log10_length N l t r : np_log10 N l = (t, inr r) -> length r = length l.
Proof. apply mapM_length. Qed.

(** The depth scale of an atmosphere whose NDEP is the number of entries of
    its depth vector. *)
Lemma depth_scale_points N a interpvar (itop : nat) v t itop1 ibot1 ndep1 depth1 :
  interpvar = "TAU" \/ interpvar = "RHOX" ->
  a !! interpvar = Some (VVec v) -> a !! "NDEP" = Some (VInt (Zlen v)) ->
  depth_scale N a interpvar (Z.of_nat itop) = (t, inr (itop1, ibot1, ndep1, depth1)) ->
  trim_top min_dtau v (Z.of_nat itop) = ret itop1
  /\ Z.of_nat itop <= itop1 /\ itop1 + 1 < Zlen v
  /\ ndep1 = Zlen v - itop1 /\ Zlen depth1 = ndep1.
Proof.
  intros Hiv Hv Hn H. unfold depth_scale in H.
  assert (Hg : get_vec a interpvar = ret v)
    by (unfold get_vec, getattr; rewrite Hv; reflexivity).
  assert (Hi : get_int a "NDEP" = ret (Zlen v))
    by (unfold get_int, getattr; rewrite Hn; reflexivity).
  assert (Ht : exists t1 t2,
    trim_top min_dtau v (Z.of_nat itop) = (t1, inr itop1)
    /\ np_log10 N (slice v itop1 (Zlen v - 1 + 1)) = (t2, inr depth1)
    /\ ndep1 = Zlen v - 1 - itop1 + 1).
  { destruct Hiv as [-> | ->]; cbn [String.eqb Ascii.eqb Bool.eqb] in H;
      rewrite Hg, bind_ret_l in H;
      apply bind_ok in H as (t1 & i1 & ? & Htrim & H & _);
      rewrite ?Hi, bind_ret_l in H;
      rewrite ?Hg, bind_ret_l in H;
      apply bind_ok in H as (t2 & d & ? & Hlog & H & _);
      injection H as _ <- <- <- <-;
      exists t1, t2; repeat split; assumption. }
  destruct Ht as (t1 & t2 & Htrim & Hlog & ->).
  destruct (trim_top_bounds min_dtau v (length v) itop t1 itop1 ltac:(lia) Htrim)
    as (-> & B1 & B2).
  split; [exact Htrim|]. split; [exact B1|]. split; [exact B2|].
  split; [lia|].
  apply np_log10_length in Hlog. unfold Zlen at 1. rewrite Hlog.
  fold (Zlen (slice v itop1 (Zlen v - 1 + 1))).
  rewrite slice_length_inner; lia.
Qed.

Lemma output_depth_length frac xsh ndep1 ndep2 depth1 depth2 t depth :
  Zlen depth1 = ndep1 -> Zlen depth2 = ndep2 ->
  output_depth frac xsh ndep1 ndep2 depth1 depth2 = (t, inr depth) ->
  Zlen depth = Z.min ndep1 ndep2.
Proof.
  intros H1 H2. unfold output_depth.
  destruct (ndep2 <? ndep1) eqn:E1.
  - intros [= _ <-]. apply Z.ltb_lt in E1. unfold Zlen in *.
    rewrite length_fmap. lia.
  - apply Z.ltb_ge in E1. destruct (ndep1 =? ndep2) eqn:E2.
    + apply Z.eqb_eq in E2. intros H.
      apply broadcast2_length in H.
      * unfold Zlen in *. rewrite H, length_fmap. lia.
      * rewrite !length_fmap. unfold Zlen in *. lia.
    + apply Z.eqb_neq in E2. intros [= _ <-]. unfold Zlen in *.
      rewrite length_fmap. lia.
Qed.

(** X18. A pairwise blend of two atmospheres whose NDEP is the number of
    entries of their depth vectors has as many depth points as the shorter
    of the two has left after the trimming loop, its test computed in
    binary64, has dropped the points above the first large step. *)
Theorem blend_depth_points
    (N : numerics) (a1 a2 : struct) (frac : Q) (iv : option string) (itop : nat)
    t (krz : struct) (interpvar : string) (v1 v2 : list Q) :
  interp_atmo_pair N a1 a2 frac iv (Z.of_nat itop) = (t, inr krz) ->
  select_interpvar a1 a2 iv = ret interpvar ->
  a1 !! interpvar = Some (VVec v1) -> a1 !! "NDEP" = Some (VInt (Zlen v1)) ->
  a2 !! interpvar = Some (VVec v2) -> a2 !! "NDEP" = Some (VInt (Zlen v2)) ->
  exists itop1 itop2,
    trim_top min_dtau v1 (Z.of_nat itop) = ret itop1
    /\ trim_top min_dtau v2 (Z.of_nat itop) = ret itop2
    /\ krz !! "NDEP" = Some (VInt (Z.min (Zlen v1 - itop1) (Zlen v2 - itop2))).
Proof.
  intros H Hsel Hv1 Hn1 Hv2 Hn2.
  destruct (interp_atmo_pair_output _ _ _ _ _ _ _ _ H)
    as (interpvar' & itop1 & ibot1 & ndep1 & depth1 & itop2 & ibot2 & ndep2 & depth2
        & xsh & depth & vects & t' & Hsel' & Hds1 & Hds2 & Hd & Hc & _).
  rewrite Hsel in Hsel'. injection Hsel' as <-.
  pose proof (select_interpvar_ok _ _ _ _ _ Hsel) as Hiv.
  destruct (depth_scale_points _ _ _ _ _ _ _ _ _ _ Hiv Hv1 Hn1 Hds1)
    as (T1 & _ & _ & E1 & L1).
  destruct (depth_scale_points _ _ _ _ _ _ _ _ _ _ Hiv Hv2 Hn2 Hds2)
    as (T2 & _ & _ & E2 & L2).
  exists itop1, itop2. split; [exact T1|]. split; [exact T2|].
  destruct (construct_output_lookup _ _ _ _ _ _ _ _ _ "NDEP" Hc
              (depth_scale_has_NDEP _ _ _ _ _ _ Hds1))
    as (temp & tn & vn & _ & Hof & Hk).
  apply output_field_NDEP in Hof. subst vn. rewrite Hk.
  rewrite (output_depth_length _ _ _ _ _ _ _ _ L1 L2 Hd), E1, E2. reflexivity.
Qed.

(** A model of six depth points blended with one of seven, the top point
    of each dropped: five depth points. *)
Lemma blend_depth_points_witness :
  ramp_krz !! "NDEP" = Some (VInt 5)
  /\ exists itop1 itop2,
       trim_top min_dtau [1 # 10000; 1 # 1000; 1 # 100; 1 # 10; 1; 10]%Q
         (Z.of_nat 1) = ret itop1
       /\ trim_top min_dtau [1 # 10000; 1 # 1000; 1 # 100; 1 # 10; 1; 10; 100]%Q
            (Z.of_nat 1) = ret itop2
       /\ ramp_krz !! "NDEP"
          = Some (VInt (Z.min
               (Zlen [1 # 10000; 1 # 1000; 1 # 100; 1 # 10; 1; 10]%Q - itop1)
               (Zlen [1 # 10000; 1 # 1000; 1 # 100; 1 # 10; 1; 10; 100]%Q - itop2))).
Proof.
  split; [vm_compute; reflexivity|].
  apply (blend_depth_points decade_numerics short_model ramp_model (1 # 2)
           (Some "TAU") 1 (events ramp_blend) ramp_krz "TAU");
    vm_compute; reflexivity.
Defined.

(** ** A depth count beyond the input *)

Lemma bind_congr {A B} (m : M A) (f g : A -> M B) :
  (forall t a, m = (t, inr a) -> f a = g a) -> (m ≫= f) = (m ≫= g).
Proof.
  intros H. rewrite !bind_unfold. unfold bind.
  destruct m as [t [e|a]]; [reflexivity|]. rewrite (H t a eq_refl). reflexivity.
Qed.

Lemma slice_beyond {A} (l : list A) n : Zlen l <= n -> slice l 0 n = l.
Proof.
  intros H. rewrite slice_0_take. unfold slice_bound, Zlen in *.
  replace (n <? 0) with false by (symmetry; apply Z.ltb_ge; lia).
  apply take_ge. lia.
Qed.

Lemma interp_atmo_func_whole (x1 par x2 y2 : list Q) (y1 ip : option (list Q)) n :
  Zlen x1 <= n ->
  interp_atmo_func x1 par
    {| fa_x2 := x2; fa_y2 := y2; fa_y1 := y1; fa_ndep := Some n; fa_ipar := ip |}
  = interp_atmo_func x1 par
      {| fa_x2 := x2; fa_y2 := y2; fa_y1 := y1; fa_ndep := None; fa_ipar := ip |}.
Proof.
  intros Hn. unfold interp_atmo_func.
  cbn [fa_x2 fa_y2 fa_y1 fa_ndep fa_ipar default from_option id].
  rewrite (slice_beyond x1 n Hn), (slice_all x1).
  apply bind_congr. intros ? p0 _. apply bind_congr. intros ? p1 _.
  apply bind_congr. intros ? head Hh. apply interp1d_length in Hh.
  assert (L1 : Zlen (set_prefix ((fun _ : Q => 0%Q) <$> x1) head) = Zlen x1).
  { unfold Zlen. rewrite set_prefix_length; rewrite length_fmap; lia. }
  rewrite (slice_beyond _ n ltac:(rewrite L1; exact Hn)).
  rewrite (slice_beyond _ (Zlen x1) ltac:(rewrite L1; lia)).
  apply bind_congr. intros ? y1min _. apply bind_congr. intros ? y1max _.
  apply bind_congr. intros ? p2 _.
  match goal with |- context [set_prefix ?y (?f <$> ?y)] =>
    assert (L2 : Zlen (set_prefix y (f <$> y)) = Zlen x1)
      by (unfold Zlen in *; rewrite set_prefix_length; rewrite ?length_fmap; lia)
  end.
  rewrite (slice_beyond _ n ltac:(rewrite L2; exact Hn)).
  rewrite (slice_beyond _ (Zlen x1) ltac:(rewrite L2; lia)).
  reflexivity.
Qed.

(** X19. A depth count [ndep] that is not smaller than the number of points
    handed to [interp_atmo_func] has no effect: every point, a point
    appended for a constraint included, is treated as a depth point. In a
    constrained fit with such a count the curve handed back keeps the
    appended points. *)
Theorem ndep_beyond_input
    (N : numerics) (x_in y_in err_in par constraints x2 y2 : list Q)
    (y1 ip : option (list Q)) (parinfo : list Z) (n : Z) :
  let fa := {| fa_x2 := x2; fa_y2 := y2; fa_y1 := y1; fa_ndep := Some n;
               fa_ipar := ip |} in
  let k := length (List.filter nonzero constraints) in
  Zlen x_in + Z.of_nat k <= n ->
  (forall p, interp_atmo_func (x_in ++ replicate k 0%Q) p fa
             = interp_atmo_func (x_in ++ replicate k 0%Q) p
                 {| fa_x2 := x2; fa_y2 := y2; fa_y1 := y1; fa_ndep := None;
                    fa_ipar := ip |})
  /\ (forall t popt yfit,
        interp_atmo_constrained N x_in y_in err_in par (Some constraints) fa parinfo
        = (t, inr (popt, yfit)) ->
        length yfit = (length x_in + k)%nat).
Proof.
  intros fa k Hn. split.
  - intros p. apply interp_atmo_func_whole.
    unfold Zlen in *. rewrite length_app, length_replicate. lia.
  - intros t popt yfit H. unfold interp_atmo_constrained in H.
    assert (Hx : length (fst (fst (snd (constrained_points x_in y_in err_in
                                         (Some constraints)))))
                 = (length x_in + k)%nat).
    { unfold constrained_points. fold k.
      destruct (0 <? Zlen (List.filter nonzero constraints)) eqn:P; cbn [fst snd].
      - rewrite length_app, length_replicate. unfold Zlen, k. lia.
      - apply Z.ltb_ge in P. unfold Zlen, k in *. lia. }
    destruct (constrained_points x_in y_in err_in (Some constraints))
      as [m [[x y] err]]. cbn [fst snd] in Hx.
    rewrite bind_emit in H. unfold events, outcome in H.
    match type of H with (_ :: fst ?c, snd ?c) = _ => destruct c as [t' r] eqn:Hm end.
    cbn [fst snd] in H. injection H as _ ->.
    destruct (curve_fit N (fun x0 p => interp_atmo_func x0 p fa) x y err par)
      as [e|p] eqn:Hc.
    + rewrite bind_raise in Hm. discriminate.
    + rewrite bind_ret_l in Hm.
      apply bind_ok in Hm as (? & yf & ? & Hyf & Hm & _).
      injection Hm as _ <- <-.
      apply interp_atmo_func_length in Hyf.
      cbn [fa fa_ndep]. destruct (0 <? m); [|lia].
      rewrite slice_beyond; [lia|]. unfold Zlen in *. lia.
Qed.

(** Two depth points and the constraint point, with the depth count 4:
    the value at the constraint point is read off the reference curve. *)
Lemma ndep_beyond_input_witness :
  interp_atmo_func [1; 2; 0]%Q [0; 0; 0; 0]%Q sample_functargs
  = ret [8 # 4; 16 # 4; 1]%Q
  /\ interp_atmo_func ([1; 2] ++ replicate 1 0)%Q [0; 0; 0; 0]%Q sample_functargs
     = interp_atmo_func ([1; 2] ++ replicate 1 0)%Q [0; 0; 0; 0]%Q
         {| fa_x2 := [0; 1; 2; 3]%Q; fa_y2 := [1; 2; 4; 8]%Q;
            fa_y1 := Some [1; 2; 4; 8]%Q; fa_ndep := None;
            fa_ipar := Some [0; 0; 0; 0]%Q |}.
Proof.
  split; [vm_compute; reflexivity|].
  apply (ndep_beyond_input decade_numerics [1; 2]%Q [2; 4]%Q (replicate 2 (5 # 100))
           [0; 0; 0; 0]%Q constraints0 [0; 1; 2; 3]%Q [1; 2; 4; 8]%Q
           (Some [1; 2; 4; 8]%Q) (Some [0; 0; 0; 0]%Q) parinfo0 4).
  vm_compute. discriminate.
Defined.

(** ** The trace level *)

Lemma outcome_bind {A B} (m : M A) (f : A -> M B) :
  outcome (m ≫= f)
  = match outcome m with inl e => inl e | inr a => outcome (f a) end.
Proof.
  rewrite bind_unfold. unfold bind, outcome.
  destruct m as [t [e|a]]; cbn [snd]; [reflexivity|].
  destruct (f a). reflexivity.
Qed.

Lemma outcome_bind_congr {A B} (m m' : M A) (f f' : A -> M B) :
  outcome m = outcome m' -> (forall a, outcome (f a) = outcome (f' a)) ->
  outcome (m ≫= f) = outcome (m' ≫= f').
Proof. intros Hm Hf. rewrite !outcome_bind, Hm. destruct (outcome m'); auto. Qed.

Lemma outcome_bind_same {A B} (m : M A) (f f' : A -> M B) :
  (forall a, outcome (f a) = outcome (f' a)) ->
  outcome (m ≫= f) = outcome (m ≫= f').
Proof. intros Hf. apply outcome_bind_congr; [reflexivity | exact Hf]. Qed.

Lemma outcome_trace_lines (c c' : bool) (m m' : M unit) :
  outcome m = inr tt -> outcome m' = inr tt ->
  outcome (when c m) = outcome (when c' m').
Proof. intros H H'. destruct c, c'; cbn [when]; rewrite ?H, ?H'; reflexivity. Qed.

Lemma gravity_at_outcome grid logg M_b iMb trace trace' :
  outcome (gravity_at grid logg M_b iMb trace)
  = outcome (gravity_at grid logg M_b iMb trace').
Proof.
  unfold gravity_at.
  do 3 (apply outcome_bind_same; intros).
  apply outcome_bind_congr; [|reflexivity].
  apply outcome_trace_lines; destruct (iMb =? 0); reflexivity.
Qed.

Lemma temperature_at_outcome grid Teff M_b G_b iMb iGb trace trace' :
  outcome (temperature_at grid Teff M_b G_b iMb iGb trace)
  = outcome (temperature_at grid Teff M_b G_b iMb iGb trace').
Proof.
  unfold temperature_at.
  do 4 (apply outcome_bind_same; intros).
  apply outcome_bind_congr; [|reflexivity].
  apply outcome_trace_lines; destruct ((iGb =? 0) && (iMb =? 0)); reflexivity.
Qed.

Lemma find_brackets_outcome grid Teff logg MonH trace trace' :
  outcome (find_brackets grid Teff logg MonH trace)
  = outcome (find_brackets grid Teff logg MonH trace').
Proof.
  unfold find_brackets.
  do 2 (apply outcome_bind_same; intros).
  apply outcome_bind_congr; [apply outcome_trace_lines; reflexivity|]. intros.
  do 2 (apply outcome_bind_congr; [apply gravity_at_outcome|]; intros).
  do 4 (apply outcome_bind_congr; [apply temperature_at_outcome|]; intros).
  reflexivity.
Qed.

(** X22. The trace level changes what [interp_atmo_grid] prints and nothing
    else: the atmosphere returned, or the exception raised, is the same at
    every trace level. *)
Theorem trace_is_inert
    (N : numerics) (grid : list struct) (Teff logg MonH : Q)
    (atmo_in : struct) (trace trace' : Z) :
  outcome (interp_atmo_grid N grid Teff logg MonH atmo_in trace)
  = outcome (interp_atmo_grid N grid Teff logg MonH atmo_in trace').
Proof.
  unfold interp_atmo_grid.
  do 2 (apply outcome_bind_same; intros).
  apply outcome_bind_congr; [apply find_brackets_outcome|]. intros b.
  apply outcome_bind_same. intros c.
  apply outcome_bind_congr; [|reflexivity].
  apply outcome_trace_lines; reflexivity.
Qed.
